(** * Document-to-graph workflow: a shallow embedding and its properties

    The development follows the Python scripts of the repository:
    - [cyber-poc_2-langchain-document-to-graph-adaptive.py] (the adaptive
      pipeline),
    - [neo4j_2b.i-langchain-document-to-graph-parallel.py] (the parallel
      pipeline),
    - [neo4j_9-entity-duplicate-detection.py] (duplicate detection and the
      resolution engine).

    External services (the LLM, the graph store, the operator at the
    terminal, [json.loads]) are oracles: functions or outcomes supplied
    from outside, over which every theorem quantifies. *)

From Stdlib Require Import Ascii String ZArith.
From stdpp Require Import base gmap sets list strings pretty.

#[local] Set Warnings "-clear-no-such-hyp".

Open Scope string_scope.
Open Scope list_scope.
Open Scope stdpp_scope.

(** ** Python values read out of parsed JSON *)

Module Py.

(** The [Exception] subclasses the modelled code raises or catches.
    [UnboundLocalError] is a subclass of [NameError]; [OtherException]
    stands for any other subclass, with its message. *)
Inductive exception :=
  | TimeoutError
  | JSONDecodeError
  | TypeError
  | AttributeError
  | KeyError (key : string)
  | UnboundLocalError (name : string)
  | OtherException (msg : string).

#[global] Instance exception_eq_dec : EqDecision exception.
Proof. solve_decision. Defined.

(** A call either returns a value or raises. *)
Inductive result (A : Type) :=
  | Ok (a : A)
  | Raise (e : exception).
Arguments Ok {A} a.
Arguments Raise {A} e.

(** The scalars [json.loads] delivers for the key fields of an entity or
    a relationship: [null], an integer, a string.  Floats and booleans are
    left out, and so are lists and objects in key position (as an entity
    id those make the set-membership test raise [TypeError]). *)
Inductive pyval :=
  | PNone
  | PInt (z : Z)
  | PStr (s : string).

#[global] Instance pyval_eq_dec : EqDecision pyval.
Proof. solve_decision. Defined.

#[global] Instance pyval_countable : Countable pyval.
Proof.
  refine (inj_countable'
    (λ v, match v with
          | PNone => inl ()
          | PInt z => inr (inl z)
          | PStr s => inr (inr s)
          end)
    (λ x, match x with
          | inl _ => PNone
          | inr (inl z) => PInt z
          | inr (inr s) => PStr s
          end) _).
  by intros [].
Defined.

(** [str(v)], which is what an f-string field [{v}] inserts. *)
Definition py_str (v : pyval) : string :=
  match v with
  | PNone => "None"
  | PInt z => pretty z
  | PStr s => s
  end.

(** Truth value of [v], as tested by [if v] and [not v]. *)
Definition truthy (v : pyval) : bool :=
  match v with
  | PNone => false
  | PInt z => negb (z =? 0)%Z
  | PStr s => negb (String.eqb s "")
  end.

(** A JSON object is read field by field through [d.get(k)] and
    [d.get(k, dflt)].  A field of a record below is [None] when the key is
    absent from the object and [Some v] when it is present; [get] and
    [get_or] are the two forms of [dict.get]. *)
Definition get (field : option pyval) : pyval := default PNone field.
Definition get_or {A} (field : option A) (dflt : A) : A := default dflt field.

(** The items of a JSON object, in the order of the text. *)
Definition items := list (string * pyval).

(** [{"id": .., "type": .., "name": .., "properties": {..}}] *)
Record entity_dict := Entity {
  ent_id : option pyval;
  ent_type : option pyval;
  ent_name : option pyval;
  ent_properties : option items
}.

(** [{"source": .., "target": .., "type": .., "properties": {..}}] *)
Record relationship_dict := Relationship {
  rel_source : option pyval;
  rel_target : option pyval;
  rel_type : option pyval;
  rel_properties : option items
}.

(** [{"entities": [..], "relationships": [..]}] *)
Record extracted := Extracted {
  entities : option (list entity_dict);
  relationships : option (list relationship_dict)
}.

#[global] Instance items_eq_dec : EqDecision items.
Proof. solve_decision. Defined.
#[global] Instance entity_eq_dec : EqDecision entity_dict.
Proof. solve_decision. Defined.
#[global] Instance relationship_eq_dec : EqDecision relationship_dict.
Proof. solve_decision. Defined.
#[global] Instance extracted_eq_dec : EqDecision extracted.
Proof. solve_decision. Defined.

(** [bool(d)] of a result dictionary: only the empty dictionary [{}] is
    false. *)
Definition extracted_truthy (d : extracted) : bool :=
  match entities d, relationships d with
  | None, None => false
  | _, _ => true
  end.

End Py.

Import Py.

(** ** String methods, on ASCII text *)

Module PyStr.

Definition is_upper (c : ascii) : bool :=
  let n := nat_of_ascii c in (65 <=? n)%nat && (n <=? 90)%nat.
Definition is_lower (c : ascii) : bool :=
  let n := nat_of_ascii c in (97 <=? n)%nat && (n <=? 122)%nat.
Definition is_digit (c : ascii) : bool :=
  let n := nat_of_ascii c in (48 <=? n)%nat && (n <=? 57)%nat.

(** [c.isalnum()] *)
Definition isalnum (c : ascii) : bool := is_upper c || is_lower c || is_digit c.

Definition lower_ascii (c : ascii) : ascii :=
  if is_upper c then ascii_of_nat (nat_of_ascii c + 32) else c.
Definition upper_ascii (c : ascii) : ascii :=
  if is_lower c then ascii_of_nat (nat_of_ascii c - 32) else c.

Fixpoint map_chars (f : ascii → ascii) (s : string) : string :=
  match s with
  | EmptyString => EmptyString
  | String c s' => String (f c) (map_chars f s')
  end.

(** [s.lower()] and [s.upper()] *)
Definition lower (s : string) : string := map_chars lower_ascii s.
Definition upper (s : string) : string := map_chars upper_ascii s.

(** [s.find(c)]: the index of the first [c], or [-1]. *)
Fixpoint find_from (c : ascii) (s : string) (i : Z) : Z :=
  match s with
  | EmptyString => (-1)%Z
  | String a s' => if Ascii.eqb a c then i else find_from c s' (i + 1)%Z
  end.
Definition find (c : ascii) (s : string) : Z := find_from c s 0.

(** [s.rfind(c)]: the index of the last [c], or [-1]. *)
Fixpoint rfind_from (c : ascii) (s : string) (i last : Z) : Z :=
  match s with
  | EmptyString => last
  | String a s' =>
      rfind_from c s' (i + 1)%Z (if Ascii.eqb a c then i else last)
  end.
Definition rfind (c : ascii) (s : string) : Z := rfind_from c s 0 (-1).

(** [s[start:stop]] *)
Definition slice (s : string) (start stop : Z) : string :=
  let len := Z.of_nat (String.length s) in
  let norm (i : Z) := if (i <? 0)%Z then Z.max 0 (i + len) else Z.min i len in
  let a := norm start in
  let b := norm stop in
  substring (Z.to_nat a) (Z.to_nat (b - a)) s.

(** [s.replace(old, new)] for a non-empty [old]: occurrences are replaced
    from the left and do not overlap; [skip] counts the characters of a
    matched [old] still to be passed over. *)
Fixpoint replace_skip (old new : string) (skip : nat) (s : string) : string :=
  match s with
  | EmptyString => EmptyString
  | String c s' =>
      match skip with
      | S k => replace_skip old new k s'
      | O =>
          if String.prefix old s
          then new +:+ replace_skip old new (String.length old - 1) s'
          else String c (replace_skip old new 0 s')
      end
  end.
Definition replace (old new s : string) : string := replace_skip old new 0 s.

End PyStr.

(** ** The Result Merger: [merge_extracted_data] (both pipelines) *)

Module Merger.

(** [f"{source}-{rel_type}-{target}"] *)
Definition rel_key (relationship : relationship_dict) : string :=
  let source := get (rel_source relationship) in
  let target := get (rel_target relationship) in
  let rel_type := get (rel_type relationship) in
  py_str source +:+ "-" +:+ py_str rel_type +:+ "-" +:+ py_str target.

(** One pass of the inner entity loop: the state is the list
    [merged_data["entities"]] and the set [entity_ids]. *)
Definition merge_entity (st : list entity_dict * gset pyval)
    (entity : entity_dict) : list entity_dict * gset pyval :=
  let '(merged_entities, entity_ids) := st in
  if decide (get (ent_id entity) ∈ entity_ids) then st
  else (merged_entities ++ [entity], {[get (ent_id entity)]} ∪ entity_ids).

(** One pass of the inner relationship loop: the state is the list
    [merged_data["relationships"]] and the set [processed_relationships]. *)
Definition merge_relationship (st : list relationship_dict * gset string)
    (relationship : relationship_dict) : list relationship_dict * gset string :=
  let '(merged_relationships, processed_relationships) := st in
  if decide (rel_key relationship ∈ processed_relationships) then st
  else (merged_relationships ++ [relationship],
        {[rel_key relationship]} ∪ processed_relationships).

Definition merge_entities (data_list : list extracted) : list entity_dict :=
  (foldl (λ st data, foldl merge_entity st (get_or (entities data) []))
         ([], ∅) data_list).1.

Definition merge_relationships (data_list : list extracted)
    : list relationship_dict :=
  (foldl (λ st data,
            foldl merge_relationship st (get_or (relationships data) []))
         ([], ∅) data_list).1.

Definition merge_extracted_data (data_list : list extracted) : extracted :=
  {| entities := Some (merge_entities data_list);
     relationships := Some (merge_relationships data_list) |}.

(** The entities and relationships of the input in list order, chunk after
    chunk. *)
Definition all_entities (data_list : list extracted) : list entity_dict :=
  concat ((λ data, get_or (entities data) []) <$> data_list).
Definition all_relationships (data_list : list extracted)
    : list relationship_dict :=
  concat ((λ data, get_or (relationships data) []) <$> data_list).

Definition entity_id (e : entity_dict) : pyval := get (ent_id e).

(** The [(source, type, target)] triple of a relationship. *)
Definition triple (r : relationship_dict) : pyval * pyval * pyval :=
  (get (rel_source r), get (rel_type r), get (rel_target r)).

(** The elements of [l] whose key is neither in [seen] nor carried by an
    earlier element of [l]: what a first-occurrence-wins loop keeps. *)
Fixpoint first_occurrences {A K} `{Countable K} (key : A → K)
    (seen : gset K) (l : list A) : list A :=
  match l with
  | [] => []
  | x :: l' =>
      if decide (key x ∈ seen) then first_occurrences key seen l'
      else x :: first_occurrences key ({[key x]} ∪ seen) l'
  end.

End Merger.

(** ** The Graph Writer: [build_graph] (both pipelines) *)

Module Writer.

(** A parameter of a query: a scalar or a dictionary of properties. *)
Inductive param :=
  | PVal (v : pyval)
  | PProps (d : gmap string pyval).

(** One call [graph.query(query, params=..)]. *)
Record call := Call {
  cypher : string;
  params : list (string * param)
}.

(** The graph store: the outcome of the [n]-th query of the run, given
    the call.  The rows a query returns are opaque. *)
Definition row := string.
Definition graph_store := nat → call → result (list row).

(** What the writer does to the outside: queries sent and lines printed. *)
Inductive event :=
  | Query (c : call)
  | Print (line : string).

Record state := State {
  calls : nat;
  trace : list event
}.

Definition graph_query (graph : graph_store) (c : call) (st : state)
    : result (list row) * state :=
  (graph (calls st) c,
   {| calls := S (calls st); trace := trace st ++ [Query c] |}).

Definition print (line : string) (st : state) : state :=
  {| calls := calls st; trace := trace st ++ [Print line] |}.

(** [str(e)] *)
Definition exception_str (e : exception) : string :=
  match e with
  | TimeoutError => "TimeoutError"
  | JSONDecodeError => "JSONDecodeError"
  | TypeError => "TypeError"
  | AttributeError => "AttributeError"
  | KeyError key => key
  | UnboundLocalError name =>
      "local variable '" +:+ name +:+ "' referenced before assignment"
  | OtherException msg => msg
  end.

(** A [for] loop whose body may raise: the first exception leaves the
    loop and the function. *)
Fixpoint for_each {A} (body : A → state → result () * state)
    (l : list A) (st : state) : result () * state :=
  match l with
  | [] => (Ok (), st)
  | x :: l' =>
      match body x st with
      | (Ok _, st') => for_each body l' st'
      | (Raise e, st') => (Raise e, st')
      end
  end.

Definition clear_query : call :=
  {| cypher := "MATCH (n) DETACH DELETE n"; params := [] |}.

(** ["".join(c if c.isalnum() else "_" for c in entity_type)] *)
Definition sanitize_entity_type (entity_type : string) : string :=
  PyStr.map_chars (λ c, if PyStr.isalnum c then c else "_"%char) entity_type.

(** ["".join(c if c.isalnum() or c == "_" else "_" for c in rel_type)] *)
Definition sanitize_rel_type (rel_type : string) : string :=
  PyStr.map_chars
    (λ c, if PyStr.isalnum c || Ascii.eqb c "_" then c else "_"%char) rel_type.

Definition entity_query (entity_type : string) (properties : gmap string pyval)
    : call :=
  {| cypher := "MERGE (e:" +:+ entity_type +:+ " {id: $id}) SET e += $properties";
     params := [("id", PVal (default PNone (properties !! "id")));
                ("properties", PProps properties)] |}.

(** The dictionary of a JSON object: a later item replaces an earlier one
    with the same key. *)
Definition dict_of_items (base : gmap string pyval) (l : items)
    : gmap string pyval :=
  foldl (λ properties kv, <[kv.1 := kv.2]> properties) base l.

(** The properties dictionary of the node: [id] and [name] first, then
    every item of the entity's own properties, a later assignment to a
    key replacing the earlier one. *)
Definition entity_properties (entity : entity_dict) : gmap string pyval :=
  let properties : gmap string pyval :=
    <["name" := get_or (ent_name entity) (PStr "")]>
      (<["id" := get_or (ent_id entity) (PStr "")]> ∅) in
  dict_of_items properties (get_or (ent_properties entity) []).

(** The statements of the entity loop before its [try]: they build the
    call.  Iterating over a type that is not a string raises [TypeError]. *)
Definition entity_call (entity : entity_dict) : result call :=
  let properties := entity_properties entity in
  match get_or (ent_type entity) (PStr "Entity") with
  | PStr entity_type =>
      let entity_type := sanitize_entity_type entity_type in
      Ok (entity_query entity_type properties)
  | _ => Raise TypeError
  end.

(** The body of the entity loop: the call, sent inside
    [try: .. except Exception as e: print(..)]. *)
Definition write_entity (graph : graph_store) (entity : entity_dict)
    (st : state) : result () * state :=
  match entity_call entity with
  | Raise e => (Raise e, st)
  | Ok c =>
      match graph_query graph c st with
      | (Ok _, st) => (Ok (), st)
      | (Raise e, st) =>
          (Ok (),
           print ("Error creating entity node "
                    +:+ py_str (default PNone (entity_properties entity !! "id"))
                    +:+ ": " +:+ exception_str e) st)
      end
  end.

Definition relationship_query (rel_type : string) (source_id target_id : pyval)
    (rel_properties : items) : call :=
  let props_query :=
    match rel_properties with
    | [] => ""
    | _ :: _ => "SET r += $rel_properties"
    end in
  {| cypher := "MATCH (source {id: $source_id}) MATCH (target {id: $target_id}) MERGE (source)-[r:"
                 +:+ rel_type +:+ "]->(target) " +:+ props_query;
     params := [("source_id", PVal source_id);
                ("target_id", PVal target_id);
                ("rel_properties", PProps (dict_of_items ∅ rel_properties))] |}.

(** [not source_id or not target_id] *)
Definition missing_endpoint (rel : relationship_dict) : bool :=
  negb (truthy (get_or (rel_source rel) (PStr "")))
  || negb (truthy (get_or (rel_target rel) (PStr ""))).

(** The statements of the relationship loop before its [try]: [None]
    when the relationship is passed over by [continue], else the call.
    [.upper()] on a type that is not a string raises [AttributeError]. *)
Definition relationship_call (rel : relationship_dict) : result (option call) :=
  let source_id := get_or (rel_source rel) (PStr "") in
  let target_id := get_or (rel_target rel) (PStr "") in
  if missing_endpoint rel then Ok None
  else
    match get_or (rel_type rel) (PStr "RELATED_TO") with
    | PStr rel_type =>
        let rel_type := PyStr.replace " " "_" (PyStr.upper rel_type) in
        let rel_type := sanitize_rel_type rel_type in
        let rel_properties := get_or (rel_properties rel) [] in
        Ok (Some (relationship_query rel_type source_id target_id rel_properties))
    | _ => Raise AttributeError
    end.

(** The body of the relationship loop. *)
Definition write_relationship (graph : graph_store) (rel : relationship_dict)
    (st : state) : result () * state :=
  match relationship_call rel with
  | Raise e => (Raise e, st)
  | Ok None => (Ok (), st)
  | Ok (Some c) =>
      match graph_query graph c st with
      | (Ok _, st) => (Ok (), st)
      | (Raise e, st) =>
          (Ok (),
           print ("Error creating relationship from "
                    +:+ py_str (get_or (rel_source rel) (PStr ""))
                    +:+ " to " +:+ py_str (get_or (rel_target rel) (PStr ""))
                    +:+ ": " +:+ exception_str e) st)
      end
  end.

Definition build_graph (graph : graph_store) (extracted_data : extracted)
    (clear_existing : bool) (st : state) : result () * state :=
  let cleared :=
    if clear_existing then
      match graph_query graph clear_query st with
      | (Ok _, st) => (Ok (), st)
      | (Raise e, st) => (Raise e, st)
      end
    else (Ok (), st) in
  match cleared with
  | (Raise e, st) => (Raise e, st)
  | (Ok _, st) =>
      match for_each (write_entity graph)
                     (get_or (entities extracted_data) []) st with
      | (Raise e, st) => (Raise e, st)
      | (Ok _, st) =>
          for_each (write_relationship graph)
                   (get_or (relationships extracted_data) []) st
      end
  end.

(** The queries sent and the lines printed, read off a trace. *)
Definition queries (tr : list event) : list call :=
  omap (λ ev, match ev with Query c => Some c | Print _ => None end) tr.




End Writer.

(** ** Collecting the per-chunk results of the worker pool *)

Module Pipeline.

(** A completed future: the chunk index and what [process_chunk] returned
    for it ([None] for a chunk that failed for good). *)
Definition completed := (nat * option extracted)%type.

(** Adaptive pipeline, the done-callback [update_progress]:
    [if result: results[idx] = result].  The index comes from
    [enumerate(chunks)], so it is always inside [results]. *)
Definition update_progress (results : list (option extracted))
    (future : completed) : list (option extracted) :=
  let '(idx, result) := future in
  match result with
  | Some r => if extracted_truthy r then <[idx := Some r]> results else results
  | None => results
  end.

(** Adaptive pipeline: [results = [None] * len(chunks)], the callbacks in
    completion order, then
    [[result for result in results if result is not None]]. *)
Definition collect_slots (n_chunks : nat) (completion : list completed)
    : list extracted :=
  let results := foldl update_progress (replicate n_chunks None) completion in
  omap id results.

(** Parallel pipeline, the loop over [as_completed(future_to_chunk)]:
    [if extracted_data: all_extracted_data.append(extracted_data)]. *)
Definition append_completed (all_extracted_data : list extracted)
    (future : completed) : list extracted :=
  match future.2 with
  | Some extracted_data =>
      if extracted_truthy extracted_data
      then all_extracted_data ++ [extracted_data]
      else all_extracted_data
  | None => all_extracted_data
  end.

Definition collect_as_completed (completion : list completed)
    : list extracted :=
  foldl append_completed [] completion.

(** The futures of a run in a given completion order: [order] lists the
    chunk indices as they finish, [outcome] is what each chunk's
    extraction returns. *)
Definition completions (outcome : nat → option extracted) (order : list nat)
    : list completed :=
  (λ i, (i, outcome i)) <$> order.

(** Parallel pipeline: what the Merger returns for a completion order. *)
Definition parallel_merge (outcome : nat → option extracted)
    (order : list nat) : extracted :=
  Merger.merge_extracted_data
    (collect_as_completed (completions outcome order)).

End Pipeline.

(** ** The adaptive pipeline: [process_document_to_graph] *)

Module Adaptive.

(** The services and files the function talks to. *)
Record environment := Environment {
  init_neo4j_graph : result ();
  graph : Writer.graph_store;
  load_extracted_data : result (list extracted);
  (** loading and splitting the document: the number of selected chunks *)
  load_and_split : result nat;
  (** [process_chunk] on chunk [i], retries included *)
  process_chunk : nat → option extracted;
  (** the order in which the futures of the pool complete *)
  completion_order : list nat;
  save_extracted_data : result ()
}.

Record arguments := Arguments {
  clear_existing : bool;
  parallel : bool;
  save_data : bool;
  load_data : bool
}.

(** The frame of one call: the local variables a claim depends on
    ([None] = not assigned yet) and the outside world. *)
Record frame := Frame {
  all_extracted_data : option (list extracted);
  merged_data : option extracted;
  io : Writer.state
}.

Definition M (A : Type) : Type := frame → result A * frame.

Definition ret {A} (a : A) : M A := λ f, (Ok a, f).
Definition bind {A B} (m : M A) (k : A → M B) : M B :=
  λ f, match m f with
       | (Ok a, f') => k a f'
       | (Raise e, f') => (Raise e, f')
       end.
Definition lift {A} (r : result A) : M A := λ f, (r, f).

#[local] Instance M_ret : MRet M := @ret.
#[local] Instance M_bind : MBind M := λ A B k m, bind m k.

Definition print (line : string) : M () :=
  λ f, (Ok (), {| all_extracted_data := all_extracted_data f;
                  merged_data := merged_data f;
                  io := Writer.print line (io f) |}).

Definition with_io {A} (m : Writer.state → result A * Writer.state) : M A :=
  λ f, let '(r, st) := m (io f) in
       (r, {| all_extracted_data := all_extracted_data f;
              merged_data := merged_data f;
              io := st |}).

(** Reading a local variable: unbound, it raises [UnboundLocalError]. *)
Definition read_local {A} (name : string) (var : frame → option A) : M A :=
  λ f, match var f with
       | Some v => (Ok v, f)
       | None => (Raise (UnboundLocalError name), f)
       end.

Definition assign_all_extracted_data (v : list extracted) : M () :=
  λ f, (Ok (), {| all_extracted_data := Some v;
                  merged_data := merged_data f;
                  io := io f |}).

Definition assign_merged_data (v : extracted) : M () :=
  λ f, (Ok (), {| all_extracted_data := all_extracted_data f;
                  merged_data := Some v;
                  io := io f |}).

(** The sequential loop: [if extracted_data: all_extracted_data.append(..)]
    for the chunks in index order. *)
Definition sequential (process_chunk : nat → option extracted) (n_chunks : nat)
    : list extracted :=
  Pipeline.collect_as_completed
    (Pipeline.completions process_chunk (seq 0 n_chunks)).

(** Lines 772-935: load, split, extract, save. *)
Definition process_document (env : environment) (args : arguments) : M () :=
  n_chunks ← lift (load_and_split env);
  (if parallel args then
     assign_all_extracted_data
       (Pipeline.collect_slots n_chunks
          (Pipeline.completions (process_chunk env) (completion_order env)))
   else
     assign_all_extracted_data (sequential (process_chunk env) n_chunks)) ;;
  data ← read_local "all_extracted_data" all_extracted_data;
  match save_data args, data with
  | true, _ :: _ => lift (save_extracted_data env)
  | _, _ => ret ()
  end.

Definition entity_count_query : Writer.call :=
  {| Writer.cypher := "MATCH (n) RETURN DISTINCT labels(n) AS type, count(n) AS count ORDER BY count DESC";
     Writer.params := [] |}.
Definition relationship_count_query : Writer.call :=
  {| Writer.cypher := "MATCH ()-[r]->() RETURN DISTINCT type(r) AS type, count(r) AS count ORDER BY count DESC";
     Writer.params := [] |}.

(** [not d.get(k)] for a list-valued key. *)
Definition is_empty {A} (field : option (list A)) : bool :=
  match field with
  | Some (_ :: _) => false
  | _ => true
  end.

(** The body of the [try] block, lines 738-1012. *)
Definition try_body (env : environment) (args : arguments) : M () :=
  print "Connecting to Neo4j..." ;;
  lift (init_neo4j_graph env) ;;
  print "Connected to Neo4j successfully." ;;
  assign_all_extracted_data [] ;;
  (if load_data args then
     data ← lift (load_extracted_data env);
     assign_all_extracted_data data
   else ret ()) ;;
  data ← read_local "all_extracted_data" all_extracted_data;
  match data with
  | [] => process_document env args
  | _ :: _ => ret ()
  end ;;
  (* line 937 *)
  checked ← read_local "merged_data" merged_data;
  if is_empty (entities checked) && is_empty (relationships checked) then
    print "Error: No entities or relationships were found after merging extracted data."
  else
    print "Merging data from all chunks..." ;;
    data ← read_local "all_extracted_data" all_extracted_data;
    assign_merged_data (Merger.merge_extracted_data data) ;;
    merged ← read_local "merged_data" merged_data;
    print "Building Neo4j graph..." ;;
    with_io (Writer.build_graph (graph env) merged (clear_existing args)) ;;
    print "Graph built successfully" ;;
    with_io (Writer.graph_query (graph env) entity_count_query) ;;
    with_io (Writer.graph_query (graph env) relationship_count_query) ;;
    print "PROCESSING COMPLETE".

(** [try: .. except Exception as e: print(..)]: the function returns
    [None] either way. *)
Definition handler_line (e : exception) : string :=
  "Error during document processing: " +:+ Writer.exception_str e.

(** The frame on entry: no local is bound, nothing has happened. *)
Definition start : frame :=
  {| all_extracted_data := None; merged_data := None;
     io := {| Writer.calls := 0; Writer.trace := [] |} |}.

Definition process_document_to_graph (env : environment) (args : arguments)
    : Writer.state :=
  match try_body env args start with
  | (Ok _, f) => io f
  | (Raise e, f) => Writer.print (handler_line e) (io f)
  end.

(** The stages before line 937 all return. *)
Definition reaches_post_extraction (env : environment) (args : arguments)
    : Prop :=
  init_neo4j_graph env = Ok () ∧
  ∃ loaded, (if load_data args then load_extracted_data env else Ok []) = Ok loaded ∧
    (loaded = [] →
       ∃ n_chunks, load_and_split env = Ok n_chunks ∧
         (save_data args = true → save_extracted_data env = Ok ())).

End Adaptive.

(** ** The extraction call: [extract_entities_relationships] (adaptive pipeline) *)

Module Extraction.

(** What [json.loads] returns. *)
#[local] Unset Elimination Schemes.
Inductive json :=
  | JNull
  | JBool (b : bool)
  | JNum (z : Z)
  | JStr (s : string)
  | JList (l : list json)
  | JObj (o : list (string * json)).
#[local] Set Elimination Schemes.

Definition is_dict (v : json) : bool :=
  match v with
  | JObj _ => true
  | _ => false
  end.

(** [{"entities": [], "relationships": []}] *)
Definition empty_result : json :=
  JObj [("entities", JList []); ("relationships", JList [])].

(** [data.get(key, dflt)]: only a dictionary has [.get]. *)
Definition json_get (data : json) (key : string) (dflt : json) : result json :=
  match data with
  | JObj o =>
      match list_find (λ kv : string * json, kv.1 = key) o with
      | Some (_, kv) => Ok kv.2
      | None => Ok dflt
      end
  | _ => Raise AttributeError
  end.

(** [len(v)] *)
Definition json_len (v : json) : result nat :=
  match v with
  | JStr s => Ok (String.length s)
  | JList l => Ok (length l)
  | JObj o => Ok (length o)
  | _ => Raise TypeError
  end.

(** The argument of the progress message
    [f"Success! Found {len(data.get('entities', []))} entities"], which is
    evaluated before [data] is returned. *)
Definition found_entities (data : json) : result nat :=
  match json_get data "entities" (JList []) with
  | Ok v => json_len v
  | Raise e => Raise e
  end.

(** [json_start], [json_end] and the test
    [json_start != -1 and json_end != -1]. *)
Definition json_start (result_text : string) : Z := PyStr.find "{" result_text.
Definition json_end (result_text : string) : Z :=
  (PyStr.rfind "}" result_text + 1)%Z.
Definition has_json (result_text : string) : bool :=
  negb (json_start result_text =? -1)%Z && negb (json_end result_text =? -1)%Z.

(** [result_text[json_start:json_end]] *)
Definition json_str (result_text : string) : string :=
  PyStr.slice result_text (json_start result_text) (json_end result_text).

(** [fixed_json.replace(",]", "]").replace(",}", "}")] *)
Definition fix_trailing_commas (json_str : string) : string :=
  PyStr.replace ",}" "}" (PyStr.replace ",]" "]" json_str).

(** How one pass of the [for attempt] loop ends. *)
Inductive step :=
  | Return (data : json)
  | Continue.

Section extract.
(** [json.loads]; [Raise JSONDecodeError] on malformed text. *)
Variable json_loads : string → result json.
(** [Ollama(..)]: [Some e] when the constructor raises [e]. *)
Variable ollama : option exception.
(** The chain on the chunk at attempt [attempt]: the completion text, or
    [Raise TimeoutError] when [result(timeout=..)] times out, or another
    exception raised by the call. *)
Variable invoke : string → nat → result string.

Definition is_last (attempt max_attempts : nat) : bool :=
  bool_decide (Z.of_nat attempt = Z.of_nat max_attempts - 1)%Z.

(** [return empty] on the last attempt, else [continue] (or fall through
    to the next pass). *)
Definition end_attempt (attempt max_attempts : nat) : step :=
  if is_last attempt max_attempts then Return empty_result else Continue.

(** [data = json.loads(s); update_extraction_step(.. len(..) ..);
    return data] *)
Definition parse_and_return (s : string) : result step :=
  match json_loads s with
  | Ok data =>
      match found_entities data with
      | Ok _ => Ok (Return data)
      | Raise e => Raise e
      end
  | Raise e => Raise e
  end.

(** The statements inside the outer [try] of one pass; an exception that
    no inner handler catches is the [Raise] of the result. *)
Definition attempt_body (text_chunk : string) (attempt max_attempts : nat)
    : result step :=
  match invoke text_chunk attempt with
  | Raise TimeoutError => Ok (end_attempt attempt max_attempts)
  | Raise e => Raise e
  | Ok result_text =>
      if has_json result_text then
        let json_str := json_str result_text in
        match parse_and_return json_str with
        | Raise JSONDecodeError =>
            let fixed_json := fix_trailing_commas json_str in
            match parse_and_return fixed_json with
            | Raise JSONDecodeError => Ok (end_attempt attempt max_attempts)
            | r => r
            end
        | r => r
        end
      else Ok (end_attempt attempt max_attempts)
  end.

(** One pass: the outer [except Exception] ends it like every other
    failure. *)
Definition attempt_step (text_chunk : string) (attempt max_attempts : nat)
    : step :=
  match attempt_body text_chunk attempt max_attempts with
  | Ok s => s
  | Raise _ => end_attempt attempt max_attempts
  end.

(** [for attempt in range(max_attempts)], from pass [attempt] on with
    [remaining] passes left, and the [return] after the loop. *)
Fixpoint attempts (text_chunk : string) (max_attempts : nat)
    (attempt remaining : nat) : json :=
  match remaining with
  | O => empty_result
  | S remaining' =>
      match attempt_step text_chunk attempt max_attempts with
      | Return data => data
      | Continue => attempts text_chunk max_attempts (S attempt) remaining'
      end
  end.


Definition extract_entities_relationships (text_chunk : string)
    (max_attempts : nat) : result json :=
  match ollama with
  | Some _ => Ok empty_result
  | None => Ok (attempts text_chunk max_attempts 0 max_attempts)
  end.

End extract.

(** A parser that knows two texts, [{}] and [{"entities": 5}], to run the
    extraction on examples. *)
Definition quote : string := String (ascii_of_nat 34) "".
Definition entities_5 : string := "{" +:+ quote +:+ "entities" +:+ quote +:+ ": 5}".
Definition tiny_loads (s : string) : result json :=
  if String.eqb s "{}" then Ok (JObj [])
  else if String.eqb s entities_5 then Ok (JObj [("entities", JNum 5)])
  else Raise JSONDecodeError.

End Extraction.

(** ** Rule-based duplicate entity types: [prefilter_duplicate_entity_types] *)

Module Detection.

(** [{"label": .., "count": ..}], an item of the graph statistics. *)
Record label_info := LabelInfo {
  label : string;
  count : Z
}.

Inductive reason :=
  | CaseVariation        (* "Case variation of the same term: .." *)
  | SingularPlural       (* "Singular/plural variation: .." *)
  | IdenticalExceptCase. (* "These labels are identical except for case: .." *)

Record duplicate_group := DuplicateGroup {
  duplicate_types : list string;
  reasoning : reason;
  keep_type : string
}.

(** The dictionaries [label_map] and [groups] keep their keys in insertion
    order; [add_variant] is
    [if k in m: m[k].append(label) else: m[k] = [label]]. *)
Fixpoint add_variant (lowercase label : string)
    (m : list (string * list string)) : list (string * list string) :=
  match m with
  | [] => [(lowercase, [label])]
  | (k, variants) :: m' =>
      if String.eqb k lowercase then (k, variants ++ [label]) :: m'
      else (k, variants) :: add_variant lowercase label m'
  end.

Definition group_by_lowercase (labels : list string)
    : list (string * list string) :=
  foldl (λ m label, add_variant (PyStr.lower label) label m) [] labels.

(** [next((item['count'] for item in node_labels if item['label'] == x), 0)] *)
Definition count_of (node_labels : list label_info) (x : string) : Z :=
  match list_find (λ item, label item = x) node_labels with
  | Some (_, item) => count item
  | None => 0%Z
  end.

(** [max(l, key=..)] and [min(l, key=..)] return the first extremal
    element; [best] is the extremal element so far. *)
Fixpoint max_from (key : string → Z) (best : string) (l : list string) : string :=
  match l with
  | [] => best
  | x :: l' => if (key best <? key x)%Z then max_from key x l' else max_from key best l'
  end.
Fixpoint min_from (key : string → Z) (best : string) (l : list string) : string :=
  match l with
  | [] => best
  | x :: l' => if (key x <? key best)%Z then min_from key x l' else min_from key best l'
  end.

(** The groups of [label_map.items()] with [len(variants) > 1]. *)
Definition case_variation_groups (node_labels : list label_info)
    (label_map : list (string * list string)) : list duplicate_group :=
  omap (λ entry : string * list string,
          match entry.2 with
          | v :: (_ :: _ as others) =>
              Some {| duplicate_types := entry.2;
                      reasoning := CaseVariation;
                      keep_type := max_from (count_of node_labels) v others |}
          | _ => None
          end) label_map.

(** The double loop over [labels] collecting [[label1, label2]]. *)
Definition singular_plural_pairs (labels : list string) : list (string * string) :=
  label1 ← labels;
  label2 ← labels;
  if bool_decide (label1 ≠ label2)
     && (String.eqb (PyStr.lower label1 +:+ "s") (PyStr.lower label2)
         || String.eqb (PyStr.lower label2 +:+ "s") (PyStr.lower label1))
  then [(label1, label2)] else [].

Definition prefilter_duplicate_entity_types (node_labels : list label_info)
    : list duplicate_group :=
  let labels := label <$> node_labels in
  let label_map := group_by_lowercase labels in
  let potential_duplicates := case_variation_groups node_labels label_map in
  potential_duplicates ++
    ((λ pair : string * string,
        {| duplicate_types := [pair.1; pair.2];
           reasoning := SingularPlural;
           keep_type :=
             min_from (λ s, Z.of_nat (String.length s)) pair.1 [pair.2] |})
       <$> singular_plural_pairs labels).

(** [find_case_insensitive_duplicates], on the labels the store returns
    for [CALL db.labels()]. *)
Definition find_case_insensitive_duplicates (labels : list string)
    : list duplicate_group :=
  omap (λ entry : string * list string,
          match entry.2 with
          | v :: _ :: _ =>
              Some {| duplicate_types := entry.2;
                      reasoning := IdenticalExceptCase;
                      keep_type := v |}
          | _ => None
          end) (group_by_lowercase labels).

End Detection.

(** ** The resolution engine: [execute_resolution_plan] *)

Module Resolution.

(** A step of a plan: [{"query", "description", "success_criteria",
    "requires_confirmation"}]. *)
Record step_dict := Step {
  query : option string;
  description : option string;
  success_criteria : option string;
  requires_confirmation : option bool
}.

(** An entry of [resolution_plan["resolution_plan"]]. *)
Record plan_dict := Plan {
  plan_group_id : option pyval;
  pre_merge_validation : option (list step_dict);
  merge_operations : option (list step_dict);
  post_merge_validation : option (list step_dict)
}.

(** An entry of [resolution_plan["groups"]]. *)
Record group_dict := Group {
  group_id : option pyval;
  group_summary : option string;
  group_items : option (list string);
  merge_target : option string
}.

Record resolution_plan_dict := ResolutionPlan {
  groups : option (list group_dict);
  resolution_plan : option (list plan_dict)
}.

(** [bool(group)]: false for the empty dictionary only. *)
Definition group_truthy (g : group_dict) : bool :=
  match group_id g, group_summary g, group_items g, merge_target g with
  | None, None, None, None => false
  | _, _, _, _ => true
  end.

Definition row := string.

(** The graph store and the operator: the outcome of the [n]-th query of
    the run and the line typed at the [n]-th prompt. *)
Record world := World {
  graph : nat → string → result (list row);
  operator : nat → string
}.

Inductive stage := PreValidation | MergeOperation | PostValidation.

(** What a run does to the outside, each event with the index [i] of the
    plan entry in [enumerate(plans)], its stage and the index [j] of the
    step. *)
Inductive event :=
  | Query (i : nat) (stg : stage) (j : nat) (query : string)
  | Input (i : nat) (stg : stage) (j : nat) (answer : string)
  | Warning (i : nat) (group_id : pyval).

Record state := State {
  queries : nat;
  prompts : nat;
  trace : list event
}.

(** [execute_cypher_query]: the rows and [True], or [[]] and [False] when
    the query raises. *)
Definition execute_cypher_query (w : world) (i : nat) (stg : stage) (j : nat)
    (query : string) (st : state) : list row * bool * state :=
  let st' := {| queries := S (queries st); prompts := prompts st;
                trace := trace st ++ [Query i stg j query] |} in
  match graph w (queries st) query with
  | Ok rows => (rows, true, st')
  | Raise _ => ([], false, st')
  end.

(** [input(..).lower() == 'y'] *)
Definition confirm (w : world) (i : nat) (stg : stage) (j : nat) (st : state)
    : bool * state :=
  let answer := operator w (prompts st) in
  (String.eqb (PyStr.lower answer) "y",
   {| queries := queries st; prompts := S (prompts st);
      trace := trace st ++ [Input i stg j answer] |}).

Record validation_result := ValidationResult {
  v_step : nat;
  v_success : bool;
  v_result_count : nat;
  v_user_approved : option bool
}.

Record operation_result := OperationResult {
  o_step : nat;
  o_requires_confirmation : bool;
  o_executed : bool;
  o_success : bool;
  o_records_affected : nat;
  o_user_approved : option bool;
  o_user_skipped : bool
}.

Record group_result := GroupResult {
  gr_group_id : pyval;
  gr_summary : option string;
  status : string;
  details : list string;
  pre_validation_results : list validation_result;
  operation_results : list operation_result;
  post_validation_results : list validation_result
}.

Record execution_results := ExecutionResults {
  total_groups : nat;
  successful_groups : nat;
  failed_groups : nat;
  skipped_groups : nat;
  group_results : list group_result
}.

Definition set_status (s : string) (detail : string) (gr : group_result)
    : group_result :=
  {| gr_group_id := gr_group_id gr; gr_summary := gr_summary gr;
     status := s; details := details gr ++ [detail];
     pre_validation_results := pre_validation_results gr;
     operation_results := operation_results gr;
     post_validation_results := post_validation_results gr |}.

Definition add_pre (r : validation_result) (gr : group_result) : group_result :=
  {| gr_group_id := gr_group_id gr; gr_summary := gr_summary gr;
     status := status gr; details := details gr;
     pre_validation_results := pre_validation_results gr ++ [r];
     operation_results := operation_results gr;
     post_validation_results := post_validation_results gr |}.

Definition add_operation (r : operation_result) (gr : group_result)
    : group_result :=
  {| gr_group_id := gr_group_id gr; gr_summary := gr_summary gr;
     status := status gr; details := details gr;
     pre_validation_results := pre_validation_results gr;
     operation_results := operation_results gr ++ [r];
     post_validation_results := post_validation_results gr |}.

Definition add_post (r : validation_result) (gr : group_result) : group_result :=
  {| gr_group_id := gr_group_id gr; gr_summary := gr_summary gr;
     status := status gr; details := details gr;
     pre_validation_results := pre_validation_results gr;
     operation_results := operation_results gr;
     post_validation_results := post_validation_results gr ++ [r] |}.

Definition step_number (j : nat) : string := pretty (S j).

(** The pre-merge validation loop from step [j] on; the boolean is
    [validation_passed]. *)
Fixpoint run_pre_validation (w : world) (i j : nat) (steps : list step_dict)
    (gr : group_result) (st : state) : bool * group_result * state :=
  match steps with
  | [] => (true, gr, st)
  | validation :: steps' =>
      let '(query_results, success, st) :=
        execute_cypher_query w i PreValidation j
          (get_or (query validation) "") st in
      let entry approved :=
        {| v_step := S j; v_success := success;
           v_result_count := length query_results;
           v_user_approved := approved |} in
      if negb success then
        (false,
         set_status "pre_validation_failed"
           ("Pre-validation step " +:+ step_number j
              +:+ " failed: Query execution error")
           (add_pre (entry None) gr),
         st)
      else
        let '(proceed, st) := confirm w i PreValidation j st in
        let gr := add_pre (entry (Some proceed)) gr in
        if negb proceed then
          (false,
           set_status "pre_validation_rejected"
             ("Pre-validation step " +:+ step_number j +:+ " rejected by user")
             gr,
           st)
        else run_pre_validation w i (S j) steps' gr st
  end.

(** The merge-operation loop; the boolean is [merge_successful]. *)
Fixpoint run_merge_operations (w : world) (i j : nat) (steps : list step_dict)
    (gr : group_result) (st : state) : bool * group_result * state :=
  match steps with
  | [] => (true, gr, st)
  | operation :: steps' =>
      let needs := get_or (requires_confirmation operation) true in
      let '(approved, st) :=
        if needs then
          let '(proceed, st) := confirm w i MergeOperation j st in
          (Some proceed, st)
        else (None, st) in
      match approved with
      | Some false =>
          (false,
           add_operation
             {| o_step := S j; o_requires_confirmation := needs;
                o_executed := false; o_success := false;
                o_records_affected := 0; o_user_approved := approved;
                o_user_skipped := true |}
             (set_status "operation_rejected"
                ("Operation step " +:+ step_number j +:+ " rejected by user") gr),
           st)
      | _ =>
          let '(query_results, success, st) :=
            execute_cypher_query w i MergeOperation j
              (get_or (query operation) "") st in
          let gr :=
            add_operation
              {| o_step := S j; o_requires_confirmation := needs;
                 o_executed := true; o_success := success;
                 o_records_affected := length query_results;
                 o_user_approved := approved; o_user_skipped := false |} gr in
          if negb success then
            (false,
             set_status "operation_failed"
               ("Operation step " +:+ step_number j
                  +:+ " failed: Query execution error") gr,
             st)
          else run_merge_operations w i (S j) steps' gr st
      end
  end.

(** The post-merge validation loop; the boolean is
    [post_validation_passed]. *)
Fixpoint run_post_validation (w : world) (i j : nat) (steps : list step_dict)
    (gr : group_result) (st : state) : bool * group_result * state :=
  match steps with
  | [] => (true, gr, st)
  | validation :: steps' =>
      let '(query_results, success, st) :=
        execute_cypher_query w i PostValidation j
          (get_or (query validation) "") st in
      let entry approved :=
        {| v_step := S j; v_success := success;
           v_result_count := length query_results;
           v_user_approved := approved |} in
      if negb success then
        (false,
         set_status "post_validation_failed"
           ("Post-validation step " +:+ step_number j
              +:+ " failed: Query execution error")
           (add_post (entry None) gr),
         st)
      else
        let '(validation_passes, st) := confirm w i PostValidation j st in
        let gr := add_post (entry (Some validation_passes)) gr in
        if negb validation_passes then
          (false,
           set_status "post_validation_rejected"
             ("Post-validation step " +:+ step_number j +:+ " rejected by user")
             gr,
           st)
        else run_post_validation w i (S j) steps' gr st
  end.

Definition count_skipped (gr : group_result) (ex : execution_results)
    : execution_results :=
  {| total_groups := total_groups ex;
     successful_groups := successful_groups ex;
     failed_groups := failed_groups ex;
     skipped_groups := S (skipped_groups ex);
     group_results := group_results ex ++ [gr] |}.

Definition count_failed (gr : group_result) (ex : execution_results)
    : execution_results :=
  {| total_groups := total_groups ex;
     successful_groups := successful_groups ex;
     failed_groups := S (failed_groups ex);
     skipped_groups := skipped_groups ex;
     group_results := group_results ex ++ [gr] |}.

Definition count_successful (gr : group_result) (ex : execution_results)
    : execution_results :=
  {| total_groups := total_groups ex;
     successful_groups := S (successful_groups ex);
     failed_groups := failed_groups ex;
     skipped_groups := skipped_groups ex;
     group_results := group_results ex ++ [gr] |}.

Definition count_nothing (gr : group_result) (ex : execution_results)
    : execution_results :=
  {| total_groups := total_groups ex;
     successful_groups := successful_groups ex;
     failed_groups := failed_groups ex;
     skipped_groups := skipped_groups ex;
     group_results := group_results ex ++ [gr] |}.

(** The body of [for i, plan in enumerate(plans)] once the group of the
    entry is found. *)
Definition run_group (w : world) (i : nat) (plan : plan_dict)
    (group : group_dict) (ex : execution_results) (st : state)
    : execution_results * state :=
  let group_result :=
    {| gr_group_id := get (group_id group);
       gr_summary := group_summary group;
       status := "pending"; details := [];
       pre_validation_results := []; operation_results := [];
       post_validation_results := [] |} in
  let '(validation_passed, group_result, st) :=
    run_pre_validation w i 0 (get_or (pre_merge_validation plan) [])
      group_result st in
  if negb validation_passed then (count_skipped group_result ex, st)
  else
    let '(merge_successful, group_result, st) :=
      run_merge_operations w i 0 (get_or (merge_operations plan) [])
        group_result st in
    if negb merge_successful then (count_failed group_result ex, st)
    else
      let '(post_validation_passed, group_result, st) :=
        run_post_validation w i 0 (get_or (post_merge_validation plan) [])
          group_result st in
      if post_validation_passed then
        (count_successful
           {| gr_group_id := gr_group_id group_result;
              gr_summary := gr_summary group_result;
              status := "success"; details := details group_result;
              pre_validation_results := pre_validation_results group_result;
              operation_results := operation_results group_result;
              post_validation_results := post_validation_results group_result |}
           ex, st)
      else (count_nothing group_result ex, st).

(** [group_lookup = {g.get("group_id"): g for g in groups}] *)
Definition make_group_lookup (groups : list group_dict)
    : gmap pyval group_dict :=
  foldl (λ m g, <[get (group_id g) := g]> m) ∅ groups.

(** [group = group_lookup.get(group_id); if not group: ..] *)
Definition find_group (group_lookup : gmap pyval group_dict) (plan : plan_dict)
    : option group_dict :=
  match group_lookup !! get (plan_group_id plan) with
  | Some group => if group_truthy group then Some group else None
  | None => None
  end.

(** [for i, plan in enumerate(plans)], from index [i] on. *)
Fixpoint run_plans (w : world) (group_lookup : gmap pyval group_dict)
    (i : nat) (plans : list plan_dict) (ex : execution_results) (st : state)
    : execution_results * state :=
  match plans with
  | [] => (ex, st)
  | plan :: plans' =>
      match find_group group_lookup plan with
      | None =>
          run_plans w group_lookup (S i) plans' ex
            {| queries := queries st; prompts := prompts st;
               trace := trace st ++ [Warning i (get (plan_group_id plan))] |}
      | Some group =>
          let '(ex, st) := run_group w i plan group ex st in
          run_plans w group_lookup (S i) plans' ex st
      end
  end.

Definition initial : state := {| queries := 0; prompts := 0; trace := [] |}.

(** The plan entry an event belongs to, and the stage of a query or of an
    answer. *)
Definition event_index (ev : event) : nat :=
  match ev with
  | Query i _ _ _ | Input i _ _ _ | Warning i _ => i
  end.
Definition event_stage (ev : event) : option stage :=
  match ev with
  | Query _ stg _ _ | Input _ stg _ _ => Some stg
  | Warning _ _ => None
  end.

(** An event of entry [i] at stage [stg]. *)
Definition of_entry (i : nat) (stg : stage) (ev : event) : Prop :=
  event_index ev = i ∧ event_stage ev = Some stg.

(** The events a computation adds to the trace it starts from. *)
Definition added (st st' : state) : list event :=
  drop (length (trace st)) (trace st').

(** [execute_resolution_plan(graph, resolution_plan, group_idx)]: the
    returned boolean, the report when the loop ran, and the final state.
    [resolution_plan] is [None] for a plan that is [None] or [{}]. *)
Definition execute_resolution_plan (w : world)
    (resolution_plan_ : option resolution_plan_dict) (group_idx : option Z)
    : bool * option execution_results * state :=
  match resolution_plan_ with
  | None => (false, None, initial)
  | Some rp =>
      match get_or (resolution_plan rp) [] with
      | [] => (false, None, initial)
      | all_plans =>
          let selected : option (list plan_dict * list group_dict) :=
            match group_idx with
            | Some idx =>
                let all_groups := get_or (groups rp) [] in
                if (idx <? 0)%Z || (Z.of_nat (length all_groups) <=? idx)%Z
                then None
                else
                  (* [resolution_plan["groups"][group_idx]["group_id"]];
                     a missing key raises [KeyError], caught at the end *)
                  match all_groups !! Z.to_nat idx with
                  | Some group =>
                      match group_id group with
                      | Some gid =>
                          match filter (λ p, get (plan_group_id p) = gid)
                                       all_plans with
                          | [] => None
                          | plan_to_execute => Some (plan_to_execute, [group])
                          end
                      | None => None
                      end
                  | None => None
                  end
            | None => Some (all_plans, get_or (groups rp) [])
            end in
          match selected with
          | None => (false, None, initial)
          | Some (plans, groups) =>
              let execution_results :=
                {| total_groups := length groups; successful_groups := 0;
                   failed_groups := 0; skipped_groups := 0;
                   group_results := [] |} in
              let group_lookup := make_group_lookup groups in
              let '(ex, st) :=
                run_plans w group_lookup 0 plans execution_results initial in
              (bool_decide (failed_groups ex ≤ 0)%nat, Some ex, st)
          end
      end
  end.

End Resolution.

(** ** The scripts as processes: exit codes *)

Module Script.

(** What can leave a function besides a return: an [Exception], or one of
    the two [BaseException]s that [except Exception] lets through. *)
Inductive raised :=
  | KeyboardInterrupt
  | SystemExit (code : Z)
  | Exc (e : exception).

Inductive outcome :=
  | Returns
  | Raises (r : raised).









End Script.

(** ** Concrete inputs *)

Module Examples.

(** Three relationships of one chunk.  The first differs from the other
    two in source and type, yet all three have the key
    ["asset-change-MANAGES-x"]. *)
Definition rel_asset_change : relationship_dict :=
  {| rel_source := Some (PStr "asset-change"); rel_target := Some (PStr "x");
     rel_type := Some (PStr "MANAGES"); rel_properties := None |}.
Definition rel_asset : relationship_dict :=
  {| rel_source := Some (PStr "asset"); rel_target := Some (PStr "x");
     rel_type := Some (PStr "change-MANAGES"); rel_properties := None |}.
Definition rel_asset_again : relationship_dict :=
  {| rel_source := Some (PStr "asset"); rel_target := Some (PStr "x");
     rel_type := Some (PStr "change-MANAGES");
     rel_properties := Some [("strength", PInt 8)] |}.
Definition colliding_chunk : extracted :=
  {| entities := None;
     relationships := Some [rel_asset_change; rel_asset; rel_asset_again] |}.

(** Two chunks that mention the entity ["elias"] with different names. *)
Definition elias_0 : entity_dict :=
  {| ent_id := Some (PStr "elias"); ent_type := Some (PStr "Person");
     ent_name := Some (PStr "Elias"); ent_properties := None |}.
Definition elias_1 : entity_dict :=
  {| ent_id := Some (PStr "elias"); ent_type := Some (PStr "Person");
     ent_name := Some (PStr "Elias the leading man"); ent_properties := None |}.
Definition two_chunks (i : nat) : option extracted :=
  match i with
  | 0 => Some {| entities := Some [elias_0]; relationships := Some [] |}
  | _ => Some {| entities := Some [elias_1]; relationships := Some [] |}
  end.

(** The labels ["Person"], ["person"], ["Vehicle"] with arbitrary node
    counts. *)
Definition person_vehicle (c1 c2 c3 : Z) : list Detection.label_info :=
  [ {| Detection.label := "Person"; Detection.count := c1 |};
    {| Detection.label := "person"; Detection.count := c2 |};
    {| Detection.label := "Vehicle"; Detection.count := c3 |} ].



(** A store that accepts every query and returns no rows. *)
Definition accepting_store : Writer.graph_store := λ _ _, Ok [].

(** A run of the adaptive script on a document of one chunk whose
    extraction finds the entity [elias]. *)
Definition one_chunk_env : Adaptive.environment :=
  {| Adaptive.init_neo4j_graph := Ok ();
     Adaptive.graph := accepting_store;
     Adaptive.load_extracted_data := Ok [];
     Adaptive.load_and_split := Ok 1;
     Adaptive.process_chunk := two_chunks;
     Adaptive.completion_order := [0];
     Adaptive.save_extracted_data := Ok () |}.
Definition default_args : Adaptive.arguments :=
  {| Adaptive.clear_existing := true; Adaptive.parallel := false;
     Adaptive.save_data := false; Adaptive.load_data := false |}.



(** A resolution plan with one group and two entries: the first entry
    belongs to the group, the second names a group that does not exist. *)
Definition check_labels : Resolution.step_dict :=
  {| Resolution.query := Some "MATCH (n:person) RETURN count(n)";
     Resolution.description := Some "count the nodes to relabel";
     Resolution.success_criteria := Some "a count";
     Resolution.requires_confirmation := None |}.
Definition relabel : Resolution.step_dict :=
  {| Resolution.query := Some "MATCH (n:person) SET n:Person REMOVE n:person";
     Resolution.description := Some "relabel person as Person";
     Resolution.success_criteria := None;
     Resolution.requires_confirmation := Some false |}.
Definition person_group : Resolution.group_dict :=
  {| Resolution.group_id := Some (PStr "group-0001");
     Resolution.group_summary := Some "Person and person";
     Resolution.group_items := Some ["Person"; "person"];
     Resolution.merge_target := Some "Person" |}.
Definition person_plan : Resolution.plan_dict :=
  {| Resolution.plan_group_id := Some (PStr "group-0001");
     Resolution.pre_merge_validation := Some [check_labels];
     Resolution.merge_operations := Some [relabel];
     Resolution.post_merge_validation := Some [] |}.
Definition orphan_plan : Resolution.plan_dict :=
  {| Resolution.plan_group_id := Some (PStr "group-9999");
     Resolution.pre_merge_validation := Some [check_labels];
     Resolution.merge_operations := Some [relabel];
     Resolution.post_merge_validation := Some [] |}.
Definition plan_with_orphan : Resolution.resolution_plan_dict :=
  {| Resolution.groups := Some [person_group];
     Resolution.resolution_plan := Some [person_plan; orphan_plan] |}.

(** A store that answers every query with one row, an operator who
    approves everything, and one who answers [n] to everything. *)
Definition approving : Resolution.world :=
  {| Resolution.graph := λ _ _, Ok ["row"]; Resolution.operator := λ _, "y" |}.

End Examples.


(** * Further definitions *)

From stdpp Require Import sorting.

Module PipelineMore.

(** What a completed chunk contributes to the collected list: its result
    when it is a non-empty dictionary. *)
Definition kept (result : option extracted) : option extracted :=
  match result with
  | Some r => if extracted_truthy r then Some r else None
  | None => None
  end.

End PipelineMore.

Module WriterMore.





(** The value of the last item with key [k], if there is one. *)
Definition last_value (k : string) (l : items) : option pyval :=
  snd <$> last (filter (λ kv, kv.1 = k) l).

(** An entity the entity loop cannot turn into a query: its type is
    present and no string. *)
Definition bad_entity (e : entity_dict) : bool :=
  match ent_type e with
  | None | Some (PStr _) => false
  | Some _ => true
  end.

(** A relationship the relationship loop cannot turn into a query: it has
    both endpoints, and its type is present and no string. *)
Definition bad_relationship (r : relationship_dict) : bool :=
  negb (Writer.missing_endpoint r) &&
  match rel_type r with
  | None | Some (PStr _) => false
  | Some _ => true
  end.

Definition raises {A} (r : result A) : bool :=
  match r with Raise _ => true | Ok _ => false end.

End WriterMore.

Module DetectionMore.

(** The lowercase forms of the labels, each once, in the order in which
    they first occur. *)
Definition lowercase_keys (labels : list string) : list string :=
  Merger.first_occurrences id ∅ (PyStr.lower <$> labels).

(** The labels with the lowercase form [k], in the order of the list. *)
Definition variants_of (labels : list string) (k : string) : list string :=
  filter (λ l, PyStr.lower l = k) labels.


(** The groups of [label_map.items()] with [len(variants) > 1], the
    recommendation being [max(variants, key=..)] over all the variants.
    [Detection.case_variation_groups] has the same groups with the same
    members, and takes the maximum over the variants but the second. *)
Definition case_variation_groups (node_labels : list Detection.label_info)
    (label_map : list (string * list string)) : list Detection.duplicate_group :=
  omap (λ entry : string * list string,
          match entry.2 with
          | v :: others =>
              match others with
              | _ :: _ =>
                  Some {| Detection.duplicate_types := entry.2;
                          Detection.reasoning := Detection.CaseVariation;
                          Detection.keep_type :=
                            Detection.max_from
                              (Detection.count_of node_labels) v others |}
              | [] => None
              end
          | [] => None
          end) label_map.

Definition prefilter_duplicate_entity_types
    (node_labels : list Detection.label_info) : list Detection.duplicate_group :=
  let labels := Detection.label <$> node_labels in
  let label_map := Detection.group_by_lowercase labels in
  let potential_duplicates := case_variation_groups node_labels label_map in
  potential_duplicates ++
    ((λ pair : string * string,
        {| Detection.duplicate_types := [pair.1; pair.2];
           Detection.reasoning := Detection.SingularPlural;
           Detection.keep_type :=
             Detection.min_from (λ s, Z.of_nat (String.length s)) pair.1 [pair.2] |})
       <$> Detection.singular_plural_pairs labels).

End DetectionMore.

(** ** [identify_potential_duplicate_entity_types]: combining the results *)

Module Identify.

(** A group of the returned list: one of the prefilter, one of the
    last-resort search by case, or one parsed from the answer of the LLM,
    of which the function reads [duplicate_types] only. *)
Inductive found_group :=
  | ByRule (g : Detection.duplicate_group)
  | ByCase (variants : list string)
  | ByLLM (types : list string) (rest : string).

(** [group.get("duplicate_types", [])] *)
Definition duplicate_types (g : found_group) : list string :=
  match g with
  | ByRule g => Detection.duplicate_types g
  | ByCase variants => variants
  | ByLLM types _ => types
  end.

(** The last resort: [duplicates_by_case], filled from the labels whose
    lowercase form occurs more than once, and the groups made of it. *)
Definition duplicates_by_case (labels : list string)
    : list (string * list string) :=
  let lowercase_labels := PyStr.lower <$> labels in
  foldl (λ m label,
           let lowercase := PyStr.lower label in
           if (1 <? count_occ string_dec lowercase_labels lowercase)%nat
           then Detection.add_variant lowercase label m
           else m) [] labels.

Definition fallback (labels : list string) : list found_group :=
  omap (λ entry : string * list string,
          match entry.2 with
          | _ :: _ :: _ => Some (ByCase entry.2)
          | _ => None
          end) (duplicates_by_case labels).

(** [is_duplicate_group]: the two sets of types have a common member. *)
Definition is_duplicate_group (group1 group2 : found_group) : bool :=
  existsb (λ t, bool_decide (t ∈ duplicate_types group2))
          (duplicate_types group1).

(** The body of [for llm_group in llm_duplicates]. *)
Definition add_llm_group (all_duplicates : list found_group)
    (llm_group : found_group) : list found_group :=
  if existsb (is_duplicate_group llm_group) all_duplicates
  then all_duplicates
  else all_duplicates ++ [llm_group].

(** The function from the prefilter on, for the statistics [node_labels]
    and the list [llm_duplicates] that the analysis by the LLM leaves
    (empty when the call or the parsing failed). *)
Definition identify_potential_duplicate_entity_types
    (node_labels : list Detection.label_info) (llm_duplicates : list found_group)
    : list found_group :=
  if (length node_labels <=? 1)%nat then []
  else
    let rule_based_duplicates :=
      ByRule <$> DetectionMore.prefilter_duplicate_entity_types node_labels in
    match llm_duplicates, rule_based_duplicates with
    | [], [] => rule_based_duplicates ++ fallback (Detection.label <$> node_labels)
    | _, _ => foldl add_llm_group rule_based_duplicates llm_duplicates
    end.

End Identify.

Module ResolutionMore.






End ResolutionMore.

(** ** The parallel pipeline: [process_document_to_graph] *)

Module Parallel.
Import Adaptive.

#[local] Instance M_ret : MRet M := @ret.
#[local] Instance M_bind : MBind M := λ A B k m, bind m k.

(** The list [all_extracted_data] when the merge is reached: the loaded
    list when [--load-data] finds one, else the results of the chunks,
    appended in the order of completion in parallel mode and in the order
    of the chunks else, and saved on request. *)
Definition extract_all (env : environment) (args : arguments)
    : result (list extracted) :=
  match (if load_data args then load_extracted_data env else Ok []) with
  | Raise e => Raise e
  | Ok (data :: rest) => Ok (data :: rest)
  | Ok [] =>
      match load_and_split env with
      | Raise e => Raise e
      | Ok n_chunks =>
          let all_extracted_data :=
            if parallel args then
              Pipeline.collect_as_completed
                (Pipeline.completions (process_chunk env) (completion_order env))
            else sequential (process_chunk env) n_chunks in
          match save_data args, all_extracted_data with
          | true, _ :: _ =>
              match save_extracted_data env with
              | Ok _ => Ok all_extracted_data
              | Raise e => Raise e
              end
          | _, _ => Ok all_extracted_data
          end
      end
  end.

(** The body of the [try] block. *)
Definition try_body (env : environment) (args : arguments) : M () :=
  print "Connecting to Neo4j..." ;;
  lift (init_neo4j_graph env) ;;
  print "Connected to Neo4j successfully." ;;
  all_extracted_data ← lift (extract_all env args);
  match all_extracted_data with
  | [] =>
      print "Warning: No entities or relationships were extracted from the document."
  | _ :: _ =>
      print "Merging data from all chunks..." ;;
      let merged_data := Merger.merge_extracted_data all_extracted_data in
      print "Building Neo4j graph..." ;;
      with_io (Writer.build_graph (graph env) merged_data (clear_existing args)) ;;
      print "Graph built successfully" ;;
      with_io (Writer.graph_query (graph env) entity_count_query) ;;
      with_io (Writer.graph_query (graph env) relationship_count_query) ;;
      print "PROCESSING COMPLETE"
  end.

Definition process_document_to_graph (env : environment) (args : arguments)
    : Writer.state :=
  match try_body env args start with
  | (Ok _, f) => io f
  | (Raise e, f) => Writer.print (handler_line e) (io f)
  end.

End Parallel.

(** ** Processing one chunk: [process_chunk] (both pipelines) *)

Module Chunk.
Import Extraction.

(** [len(extracted_data.get(key, []))] *)
Definition count (extracted_data : json) (key : string) : result nat :=
  match json_get extracted_data key (JList []) with
  | Ok v => json_len v
  | Raise e => Raise e
  end.

(** [entity_count > 0 or relationship_count > 0], both counts being taken
    first. *)
Definition found_something (extracted_data : json) : result bool :=
  match count extracted_data "entities" with
  | Ok entity_count =>
      match count extracted_data "relationships" with
      | Ok relationship_count =>
          Ok ((0 <? entity_count)%nat || (0 <? relationship_count)%nat)
      | Raise e => Raise e
      end
  | Raise e => Raise e
  end.

(** One pass of the [try] block on what the extraction call returned or
    raised: the data when something was found, [None] when nothing was
    found or an exception was caught.  This is all of [process_chunk] in
    the parallel pipeline. *)
Definition try_once (extraction : result json) : option json :=
  match extraction with
  | Ok extracted_data =>
      match found_something extracted_data with
      | Ok true => Some extracted_data
      | _ => None
      end
  | Raise _ => None
  end.

(** The adaptive pipeline: [while retry_count <= max_retries], with
    [remaining] passes left; [extraction k] is the outcome of the call of
    [extract_entities_relationships] in pass [k]. *)
Fixpoint retries (extraction : nat → result json) (retry_count remaining : nat)
    : option json :=
  match remaining with
  | O => None
  | S remaining' =>
      match try_once (extraction retry_count) with
      | Some extracted_data => Some extracted_data
      | None => retries extraction (S retry_count) remaining'
      end
  end.

Definition process_chunk (extraction : nat → result json) (max_retries : nat)
    : option json :=
  retries extraction 0 (S max_retries).

(** [bool(data)] *)
Definition json_truthy (v : json) : bool :=
  match v with
  | JNull => false
  | JBool b => b
  | JNum z => negb (z =? 0)%Z
  | JStr s => negb (String.eqb s "")
  | JList l => match l with [] => false | _ => true end
  | JObj o => match o with [] => false | _ => true end
  end.

(** [get_optimal_chunk_settings]: the size and the overlap for a file of
    [file_size] bytes, [Raise] standing for a failing
    [os.path.getsize].  [file_size / 1024 < k] is [file_size < 1024 * k]. *)
Definition get_optimal_chunk_settings (getsize : result Z) : Z * Z :=
  match getsize with
  | Ok file_size =>
      if (file_size <? 1024 * 500)%Z then (800, 100)%Z
      else if (file_size <? 1024 * 1000)%Z then (1200, 150)%Z
      else if (file_size <? 1024 * 5000)%Z then (1800, 200)%Z
      else (2500, 300)%Z
  | Raise _ => (1000, 100)%Z
  end.

(** [extract_entities_relationships] of the parallel pipeline: one call
    of the LLM, one parse, the empty result on every failure. *)
Definition extract_once (json_loads : string → result json)
    (invoke : string → result string) (text_chunk : string) : json :=
  match invoke text_chunk with
  | Ok result_text =>
      if has_json result_text then
        match json_loads (json_str result_text) with
        | Ok data => data
        | Raise _ => empty_result
        end
      else empty_result
  | Raise _ => empty_result
  end.

End Chunk.

(** ** [initialize_llm] *)

Module LLM.

Definition models_to_try (model_name : string) : list string :=
  [model_name; "gemma3:12b"; "gemma3:4b"; "llama3.1:latest"; "deepseek-r1:8b"].

(** [if model not in unique_models: unique_models.append(model)] *)
Definition unique_models (models : list string) : list string :=
  foldl (λ unique model,
           if bool_decide (model ∈ unique) then unique else unique ++ [model])
        [] models.

(** The loop over the models: the models attempted so far, and the model
    of the first attempt that succeeds or the last exception.  [connect
    model] is the outcome of constructing the client and of the test
    call. *)
Fixpoint try_models (connect : string → result ()) (models : list string)
    (attempted : list string) (last_exception : option exception)
    : result string * list string :=
  match models with
  | [] =>
      (Raise (OtherException
                ("All LLM models failed. Last error: "
                   +:+ match last_exception with
                       | Some e => Writer.exception_str e
                       | None => "None"
                       end)),
       attempted)
  | model :: models' =>
      match connect model with
      | Ok _ => (Ok model, attempted ++ [model])
      | Raise e => try_models connect models' (attempted ++ [model]) (Some e)
      end
  end.

Definition initialize_llm (connect : string → result ()) (model_name : string)
    : result string * list string :=
  try_models connect (unique_models (models_to_try model_name)) [] None.

End LLM.

(** ** [create_resolution_plan]: the groups handed to the LLM *)

Module Plan.

(** The order of [sorted] on strings: by code point, then by length. *)
Definition string_le (a b : string) : Prop := String.leb a b = true.

#[global] Instance string_le_dec (a b : string) : Decision (string_le a b) :=
  decide (String.leb a b = true).

(** [items = tuple(sorted(group.get("duplicate_types", [])))] *)
Definition items (group : Identify.found_group) : list string :=
  merge_sort string_le (Identify.duplicate_types group).

(** The body of [for group in duplicate_groups], for entity types:
    [if items and items not in seen_pairs and len(items) > 1]. *)
Definition keep_unseen (st : list Identify.found_group * gset (list string))
    (group : Identify.found_group)
    : list Identify.found_group * gset (list string) :=
  let '(unique_groups, seen_pairs) := st in
  let items := items group in
  if bool_decide (items ≠ []) && bool_decide (items ∉ seen_pairs)
     && (1 <? length items)%nat
  then (unique_groups ++ [group], {[items]} ∪ seen_pairs)
  else (unique_groups, seen_pairs).

Definition unique_groups (duplicate_groups : list Identify.found_group)
    : list Identify.found_group :=
  (foldl keep_unseen ([], ∅) duplicate_groups).1.

End Plan.

(** ** The interactive workflow and the command line of the detection script *)

Module Workflow.

(** [filtered_groups] when the operator does not include all groups:
    [pieces] holds, for each comma-separated piece of the answer, the
    outcome of [int(idx.strip())], [None] when it raises.  The list
    comprehension raises when a piece does, and all groups are used as a
    fallback. *)
Definition selected_indices (pieces : list (option Z)) : option (list Z) :=
  mapM (λ piece : option Z, (λ n, n - 1)%Z <$> piece) pieces.

Definition select_groups {G} (duplicate_groups : list G)
    (pieces : list (option Z)) : list G :=
  match selected_indices pieces with
  | Some indices =>
      omap (λ idx : Z,
              if (0 <=? idx)%Z && (idx <? Z.of_nat (length duplicate_groups))%Z
              then duplicate_groups !! Z.to_nat idx
              else None) indices
  | None => duplicate_groups
  end.

(** The index of the last [c] in [s]. *)
Fixpoint last_index (c : ascii) (s : string) : option nat :=
  match s with
  | EmptyString => None
  | String a s' =>
      match last_index c s' with
      | Some k => Some (S k)
      | None => if Ascii.eqb a c then Some 0 else None
      end
  end.

(** [os.path.basename] on a POSIX system: [i = p.rfind('/') + 1; p[i:]]. *)
Definition basename (p : string) : string :=
  let i := (PyStr.rfind "/" p + 1)%Z in
  PyStr.slice p i (Z.of_nat (String.length p)).

(** The directory [save_resolution_plan] writes to. *)
Definition output_dir (output_dir : string) : string :=
  let safe_dir := basename output_dir in
  if String.eqb safe_dir "" then "resolution_plans" else safe_dir.

(** [main] with [--load-plan], once the plan is loaded. *)
Record load_plan_args := LoadPlanArgs {
  execute : bool;
  backup : bool;
  dry_run : bool
}.

Inductive question := ExecutePlan | CreateBackup | ProceedAnyway.

Inductive step :=
  | Asked (q : question) (answer : string)
  | Backup (success : bool)
  | Execute.

(** [input(..).lower() == 'y'] *)
Definition yes (answer : string) : bool := String.eqb (PyStr.lower answer) "y".

(** The steps taken: [operator] gives the answers by the number of the
    prompt, [backup_success] is what [backup_neo4j_database] returns. *)
Definition load_plan (args : load_plan_args) (operator : nat → string)
    (backup_success : bool) : list step :=
  let '(execute_plan, asked, prompts) :=
    if execute args then (true, [], 0)
    else (yes (operator 0), [Asked ExecutePlan (operator 0)], 1) in
  if execute_plan then
    let '(backup_needed, asked, prompts) :=
      if backup args then (true, asked, prompts)
      else (yes (operator prompts),
            asked ++ [Asked CreateBackup (operator prompts)], S prompts) in
    let '(cancelled, done) :=
      if backup_needed then
        if backup_success then (false, asked ++ [Backup true])
        else
          (negb (yes (operator prompts)),
           asked ++ [Backup false; Asked ProceedAnyway (operator prompts)])
      else (false, asked) in
    if cancelled then done
    else if dry_run args then done
    else done ++ [Execute]
  else asked.

(** The operator has answered [y] to the question [q]. *)
Definition approved (q : question) (steps : list step) : Prop :=
  ∃ answer, Asked q answer ∈ steps ∧ yes answer = true.

End Workflow.

(** ** [levenshtein_distance] *)

Module Levenshtein.

(** The inner loop [for j, c2 in enumerate(s2)] from column [j] on:
    [previous_row] is the row above from column [j] on and [left] is
    [current_row[j]]; the result is [current_row] from column [j + 1]
    on. *)
Fixpoint row_from (c1 : ascii) (s2 : list ascii) (previous_row : list nat)
    (left : nat) : list nat :=
  match s2, previous_row with
  | c2 :: s2', above_left :: previous_row' =>
      match previous_row' with
      | above :: _ =>
          let insertions := above + 1 in
          let deletions := left + 1 in
          let substitutions := above_left + (if Ascii.eqb c1 c2 then 0 else 1) in
          let cell := Nat.min (Nat.min insertions deletions) substitutions in
          cell :: row_from c1 s2' previous_row' cell
      | [] => []
      end
  | _, _ => []
  end.

(** [current_row = [i + 1]] and the inner loop. *)
Definition current_row (i : nat) (c1 : ascii) (s2 : list ascii)
    (previous_row : list nat) : list nat :=
  (i + 1) :: row_from c1 s2 previous_row (i + 1).

(** [for i, c1 in enumerate(s1)], from character [i] on. *)
Fixpoint rows (s1 s2 : list ascii) (i : nat) (previous_row : list nat)
    : list nat :=
  match s1 with
  | [] => previous_row
  | c1 :: s1' => rows s1' s2 (S i) (current_row i c1 s2 previous_row)
  end.

(** The function for [len(s1) >= len(s2)]. *)
Definition longer_first (s1 s2 : list ascii) : nat :=
  if (length s2 =? 0)%nat then length s1
  else default 0 (last (rows s1 s2 0 (seq 0 (S (length s2))))).

Definition levenshtein_distance (s1 s2 : string) : nat :=
  let s1 := list_ascii_of_string s1 in
  let s2 := list_ascii_of_string s2 in
  if (length s1 <? length s2)%nat then longer_first s2 s1 else longer_first s1 s2.

(** The edit distance by its recurrence, on the characters from the last
    one to the first: the least number of insertions, deletions and
    substitutions of single characters. *)
Fixpoint dist (r1 : list ascii) : list ascii → nat :=
  match r1 with
  | [] => λ r2, length r2
  | a :: r1' =>
      fix dist_row (r2 : list ascii) : nat :=
        match r2 with
        | [] => S (length r1')
        | b :: r2' =>
            Nat.min (Nat.min (dist r1' (b :: r2') + 1) (dist_row r2' + 1))
                    (dist r1' r2' + (if Ascii.eqb a b then 0 else 1))
        end
  end.

Definition edit_distance (s1 s2 : string) : nat :=
  dist (reverse (list_ascii_of_string s1)) (reverse (list_ascii_of_string s2)).

(** The row of the table for the characters [r1] (last first), from the
    column of [done2] to the last column. *)
Fixpoint row_of (r1 : list ascii) (done2 rest2 : list ascii) : list nat :=
  dist r1 (reverse done2) ::
    match rest2 with
    | [] => []
    | b :: rest2' => row_of r1 (done2 ++ [b]) rest2'
    end.

End Levenshtein.

Module ExamplesMore.

(** An entity whose own properties carry two [id] items. *)
Definition renamed : entity_dict :=
  {| ent_id := Some (PStr "e1"); ent_type := Some (PStr "Person");
     ent_name := Some (PStr "Elias");
     ent_properties := Some [("id", PStr "x"); ("id", PStr "y")] |}.



(** Two labels that differ by case, the second with more nodes. *)
Definition host_counts : list Detection.label_info :=
  [ {| Detection.label := "host"; Detection.count := 1 |};
    {| Detection.label := "Host"; Detection.count := 5 |} ].


(** Two groups as the LLM may name them: one about a label of a rule-based
    group, one about other labels. *)
Definition llm_answer : list Identify.found_group :=
  [ Identify.ByLLM ["Host"; "Server"] "same machines";
    Identify.ByLLM ["Org"; "Organisation"] "abbreviation" ].

(** A run in which no chunk yields anything. *)
Definition barren_env : Adaptive.environment :=
  {| Adaptive.init_neo4j_graph := Ok ();
     Adaptive.graph := Examples.accepting_store;
     Adaptive.load_extracted_data := Ok [];
     Adaptive.load_and_split := Ok 2;
     Adaptive.process_chunk := λ _, None;
     Adaptive.completion_order := [1; 0];
     Adaptive.save_extracted_data := Ok () |}.

End ExamplesMore.

(** * Properties *)

(** ** The model on small inputs *)

Example find_first_brace : PyStr.find "{" "ok {a} {b}" = 3%Z.
Proof. reflexivity. Qed.

Example rfind_last_brace : PyStr.rfind "}" "ok {a} {b}" = 9%Z.
Proof. reflexivity. Qed.

Example rfind_absent : PyStr.rfind "}" "no brace" = (-1)%Z.
Proof. reflexivity. Qed.

Example slice_between_braces : Extraction.json_str "ok {a} {b} bye" = "{a} {b}".
Proof. reflexivity. Qed.

Example slice_closing_before_opening : Extraction.json_str "} then {" = "".
Proof. reflexivity. Qed.

Example replace_does_not_overlap : PyStr.replace "aa" "b" "aaaaa" = "bba".
Proof. reflexivity. Qed.

Example trailing_commas_stripped :
  Extraction.fix_trailing_commas "{a:[1,2,],}" = "{a:[1,2]}".
Proof. reflexivity. Qed.

Example lower_label : PyStr.lower "Person" = "person".
Proof. reflexivity. Qed.

Example rel_key_of_missing_source :
  Merger.rel_key
    {| rel_source := None; rel_target := Some (PInt 7);
       rel_type := Some (PStr "KNOWS"); rel_properties := None |}
  = "None-KNOWS-7".
Proof. reflexivity. Qed.

(** A completion without braces at each of two attempts: the empty
    result. *)
Example extraction_without_braces :
  Extraction.extract_entities_relationships Extraction.tiny_loads None
    (λ _ _, Ok "I cannot help with that") "text" 2
  = Ok Extraction.empty_result.
Proof. reflexivity. Qed.

(** The text [{,}] does not parse; with the trailing comma stripped it is
    [{}] and parses. *)
Example extraction_after_comma_fix :
  Extraction.extract_entities_relationships Extraction.tiny_loads None
    (λ _ _, Ok "sure: {,} done") "text" 2
  = Ok (Extraction.JObj []).
Proof. reflexivity. Qed.

(** [{"entities": 5}] parses, [len(5)] raises [TypeError] in the progress
    message, the outer handler takes it as a failed attempt. *)
Example extraction_with_unsized_entities :
  Extraction.extract_entities_relationships Extraction.tiny_loads None
    (λ _ _, Ok Extraction.entities_5) "text" 2
  = Ok Extraction.empty_result.
Proof. reflexivity. Qed.

(** The slots of the adaptive pipeline after chunk 1 completed before
    chunk 0. *)
Example slots_after_reverse_completion :
  Pipeline.collect_slots 2 (Pipeline.completions Examples.two_chunks [1; 0])
  = [ {| entities := Some [Examples.elias_0]; relationships := Some [] |};
      {| entities := Some [Examples.elias_1]; relationships := Some [] |} ].
Proof. reflexivity. Qed.

(** The approving operator on the plan with an orphan entry: the entry of
    the existing group runs to its end, the orphan gets its warning. *)
Example approved_plan_trace :
  Resolution.trace
    (Resolution.execute_resolution_plan Examples.approving
       (Some Examples.plan_with_orphan) None).2
  = [ Resolution.Query 0 Resolution.PreValidation 0
        "MATCH (n:person) RETURN count(n)";
      Resolution.Input 0 Resolution.PreValidation 0 "y";
      Resolution.Query 0 Resolution.MergeOperation 0
        "MATCH (n:person) SET n:Person REMOVE n:person";
      Resolution.Warning 1 (PStr "group-9999") ].
Proof. by vm_compute. Qed.

(** ** First-occurrence-wins loops *)

Section first_wins.
Context {A K : Type} `{Countable K} (key : A → K).
Lemma first_occurrences_sublist seen l :
  Merger.first_occurrences key seen l `sublist_of` l.
Proof.
  revert seen. induction l as [|x l IH]; intros seen; simpl; [done|].
  case_decide; [by apply sublist_cons | by apply sublist_skip].
Qed.

Lemma first_occurrences_filter seen l v :
  filter (λ x, key x = v) (Merger.first_occurrences key seen l) =
    if decide (v ∈ seen) then []
    else match list_find (λ x, key x = v) l with
         | Some (_, e) => [e]
         | None => []
         end.
Proof.
  revert seen. induction l as [|x l IH]; intros seen; simpl.
  { by case_decide. }
  destruct (decide (key x ∈ seen)) as [Hin|Hnin].
  - rewrite IH. destruct (decide (v ∈ seen)) as [|Hv]; [done|].
    destruct (decide (key x = v)) as [Heq|]; [by rewrite Heq in Hin|].
    by destruct (list_find _ l) as [[??]|].
  - rewrite filter_cons. destruct (decide (key x = v)) as [<-|Hk].
    + rewrite IH. rewrite decide_True by set_solver.
      by rewrite decide_False.
    + rewrite IH. destruct (decide (v ∈ seen)) as [Hv|Hv].
      * rewrite decide_True by set_solver. done.
      * rewrite decide_False by set_solver.
        by destruct (list_find _ l) as [[??]|].
Qed.

Lemma first_occurrences_keys_nodup seen l :
  NoDup (key <$> Merger.first_occurrences key seen l) ∧
  ∀ x, x ∈ Merger.first_occurrences key seen l → key x ∉ seen.
Proof.
  revert seen. induction l as [|x l IH]; intros seen; simpl.
  { split; [constructor | by intros ? ?%elem_of_nil]. }
  case_decide as Hx; [apply IH|].
  destruct (IH ({[key x]} ∪ seen)) as [Hnd Hout]. split.
  - rewrite fmap_cons. constructor; [|done].
    intros (y & Hy & Hin)%list_elem_of_fmap.
    apply Hout in Hin. set_solver.
  - intros y [->|Hy]%elem_of_cons; [done|].
    apply Hout in Hy. set_solver.
Qed.

(** The kept copy of a key: the first element of the input carrying it,
    and that one only. *)
Lemma first_occurrences_exactly_once l e :
  e ∈ l →
  ∃ i first,
    list_find (λ x, key x = key e) l = Some (i, first) ∧
    filter (λ x, key x = key e) (Merger.first_occurrences key ∅ l) = [first].
Proof.
  intros Hin.
  destruct (list_find_elem_of (λ x, key x = key e) l e Hin eq_refl)
    as [[i first] Hfind].
  exists i, first. split; [done|].
  rewrite first_occurrences_filter, decide_False by set_solver.
  by rewrite Hfind.
Qed.

Lemma first_occurrences_is_first l e :
  e ∈ Merger.first_occurrences key ∅ l →
  ∃ i, list_find (λ x, key x = key e) l = Some (i, e).
Proof.
  intros Hin.
  assert (e ∈ l) as Hl.
  { eapply elem_of_sublist; [done | apply first_occurrences_sublist]. }
  destruct (first_occurrences_exactly_once l e Hl) as (i & first & Hf & Hflt).
  exists i. rewrite Hf. do 2 f_equal.
  assert (e ∈ filter (λ x, key x = key e) (Merger.first_occurrences key ∅ l))
    as He by (by apply list_elem_of_filter).
  rewrite Hflt in He. by apply list_elem_of_singleton in He.
Qed.

Section loop.
Context (step : list A * gset K → A → list A * gset K).
Context (step_spec : ∀ acc seen x,
  step (acc, seen) x =
    if decide (key x ∈ seen) then (acc, seen)
    else (acc ++ [x], {[key x]} ∪ seen)).

Lemma foldl_first_occurrences l acc seen :
  foldl step (acc, seen) l =
    (acc ++ Merger.first_occurrences key seen l,
     seen ∪ list_to_set (key <$> l)).
Proof.
  revert acc seen. induction l as [|x l IH]; intros acc seen; simpl.
  { f_equal; [by rewrite app_nil_r | set_solver]. }
  rewrite step_spec. case_decide as Hx; rewrite IH.
  - f_equal. set_solver.
  - rewrite <- app_assoc. f_equal. set_solver.
Qed.

Lemma foldl_chunks {D} (f : D → list A) (ds : list D) st :
  foldl (λ st d, foldl step st (f d)) st ds = foldl step st (concat (f <$> ds)).
Proof.
  revert st. induction ds as [|d ds IH]; intros st; simpl; [done|].
  by rewrite foldl_app, IH.
Qed.
End loop.

End first_wins.

Lemma list_find_concat_Some {A} (P : A → Prop) `{!∀ x, Decision (P x)}
    (ls : list (list A)) i x :
  list_find P (concat ls) = Some (i, x) →
  ∃ c l, ls !! c = Some l ∧ x ∈ l ∧
    ∀ c' l' y, c' < c → ls !! c' = Some l' → y ∈ l' → ¬ P y.
Proof.
  revert i. induction ls as [|l ls IH]; intros i; simpl.
  { done. }
  intros [Hl|(_ & Hnone & Hrest)]%list_find_app_Some.
  - exists 0, l. split; [done|]. split; [|intros; lia].
    apply list_find_Some in Hl as (Hl & _). by eapply list_elem_of_lookup_2.
  - destruct (IH _ Hrest) as (c & l0 & Hc & Hx & Hbefore).
    exists (S c), l0. split; [done|]. split; [done|].
    intros [|c'] l' y Hlt Hl' Hy; simpl in Hl'.
    + simplify_eq. apply list_find_None in Hnone.
      by eapply Forall_forall in Hnone.
    + eapply Hbefore; [|done..]. lia.
Qed.

(** ** The Result Merger *)

Section merger.
Import Merger.

Lemma merge_entities_spec data_list :
  merge_entities data_list = first_occurrences entity_id ∅ (all_entities data_list).
Proof.
  unfold merge_entities, all_entities.
  rewrite (foldl_chunks merge_entity).
  by rewrite (foldl_first_occurrences entity_id merge_entity).
Qed.

Lemma merge_relationships_spec data_list :
  merge_relationships data_list =
    first_occurrences rel_key ∅ (all_relationships data_list).
Proof.
  unfold merge_relationships, all_relationships.
  rewrite (foldl_chunks merge_relationship).
  by rewrite (foldl_first_occurrences rel_key merge_relationship).
Qed.

End merger.

(** C1.  For every list of per-chunk results, the merged entities are
    records of the input in input order, no two of them share an id, every
    id of the input is kept exactly once and the copy kept is the first
    occurrence in list order, unchanged; it comes from the lowest chunk
    index that contains the id. *)
Theorem merge_keeps_first_entity_per_id (data_list : list extracted) :
  let merged := get_or (entities (Merger.merge_extracted_data data_list)) [] in
  let input := Merger.all_entities data_list in
  merged `sublist_of` input ∧
  NoDup (Merger.entity_id <$> merged) ∧
  (∀ e, e ∈ input →
     ∃ i first,
       list_find (λ x, Merger.entity_id x = Merger.entity_id e) input
         = Some (i, first) ∧
       filter (λ x, Merger.entity_id x = Merger.entity_id e) merged = [first]) ∧
  (∀ e, e ∈ merged →
     ∃ c data,
       data_list !! c = Some data ∧
       e ∈ get_or (entities data) [] ∧
       ∀ c' data' x,
         c' < c → data_list !! c' = Some data' →
         x ∈ get_or (entities data') [] →
         Merger.entity_id x ≠ Merger.entity_id e).
Proof.
  simpl. rewrite merge_entities_spec. split_and!.
  - apply first_occurrences_sublist.
  - apply (first_occurrences_keys_nodup Merger.entity_id).
  - intros e He. by apply first_occurrences_exactly_once.
  - intros e He.
    destruct (first_occurrences_is_first Merger.entity_id _ e He) as [i Hfind].
    unfold Merger.all_entities in Hfind.
    apply list_find_concat_Some in Hfind as (c & l & Hc & Hl & Hbefore).
    rewrite list_lookup_fmap in Hc.
    destruct (data_list !! c) as [data|] eqn:Hdata; simplify_eq/=.
    exists c, data. split_and!; [done..|].
    intros c' data' x Hlt Hc' Hx.
    eapply (Hbefore c'); [done| |done].
    by rewrite list_lookup_fmap, Hc'.
Qed.

(** The merged relationships never share a key, hence never a triple. *)
Lemma merged_relationships_distinct (data_list : list extracted) :
  NoDup (Merger.rel_key <$> Merger.merge_relationships data_list) ∧
  NoDup (Merger.triple <$> Merger.merge_relationships data_list).
Proof.
  rewrite merge_relationships_spec.
  pose proof (first_occurrences_keys_nodup Merger.rel_key ∅
                (Merger.all_relationships data_list)) as [Hnd _].
  split; [done|].
  eapply (NoDup_fmap_1 (λ t : pyval * pyval * pyval,
            py_str t.1.1 +:+ "-" +:+ py_str t.1.2 +:+ "-" +:+ py_str t.2)).
  by rewrite <- list_fmap_compose.
Qed.

(** C4.  The merger on a chunk whose relationships are
    [(asset-change, MANAGES, x)], [(asset, change-MANAGES, x)] and
    [(asset, change-MANAGES, x)] again: the last two have equal triples and
    differ from the first, all three have the same key string, and the
    merge keeps the first relationship only, so of the pair with equal
    triples none survives. *)
Theorem merge_drops_both_of_equal_pair :
  let merged :=
    get_or (relationships
              (Merger.merge_extracted_data [Examples.colliding_chunk])) [] in
  Merger.triple Examples.rel_asset = Merger.triple Examples.rel_asset_again ∧
  Merger.triple Examples.rel_asset_change ≠ Merger.triple Examples.rel_asset ∧
  Merger.rel_key Examples.rel_asset_change = Merger.rel_key Examples.rel_asset ∧
  merged = [Examples.rel_asset_change] ∧
  filter (λ r, Merger.triple r = Merger.triple Examples.rel_asset) merged = [].
Proof.
  split_and!; [done | by intros [=] | done | by vm_compute | by vm_compute].
Qed.

(** ** Collecting the results of the worker pool *)

Lemma update_progress_comm results (x y : Pipeline.completed) :
  x.1 ≠ y.1 →
  Pipeline.update_progress (Pipeline.update_progress results x) y =
  Pipeline.update_progress (Pipeline.update_progress results y) x.
Proof.
  destruct x as [i [r|]], y as [j [r'|]]; simpl; intros Hij; try done.
  destruct (extracted_truthy r), (extracted_truthy r'); try done.
  by apply list_insert_insert_ne.
Qed.

Lemma foldl_update_progress_perm (c1 c2 : list Pipeline.completed) :
  c1 ≡ₚ c2 → NoDup (fst <$> c1) →
  ∀ results,
    foldl Pipeline.update_progress results c1 =
    foldl Pipeline.update_progress results c2.
Proof.
  induction 1 as [|x l l' Hl IH|x y l|l1 l2 l3 H12 IH12 H23 IH23];
    intros Hnd results; simpl.
  - done.
  - apply IH. by apply NoDup_cons in Hnd as [_ ?].
  - rewrite (update_progress_comm results y x); [done|].
    rewrite !fmap_cons in Hnd. apply NoDup_cons in Hnd as [Hy _].
    intros Heq. apply Hy. rewrite Heq. by left.
  - rewrite IH12 by done. apply IH23. by rewrite <- H12.
Qed.

(** Adaptive pipeline: the slots, and so the list handed on, do not
    depend on the order in which the futures complete. *)
Lemma collect_slots_order_independent n_chunks outcome (order1 order2 : list nat) :
  NoDup order1 → order1 ≡ₚ order2 →
  Pipeline.collect_slots n_chunks (Pipeline.completions outcome order1) =
  Pipeline.collect_slots n_chunks (Pipeline.completions outcome order2).
Proof.
  intros Hnd Hperm. unfold Pipeline.collect_slots, Pipeline.completions.
  f_equal. apply foldl_update_progress_perm.
  - by apply fmap_Permutation.
  - rewrite <- list_fmap_compose.
    by replace (_ <$> order1) with order1 by (symmetry; apply list_fmap_id).
Qed.

(** C2.  Parallel pipeline ([as_completed] and [append]): with the same
    per-chunk results, chunk 0 finishing before chunk 1 and chunk 1
    finishing before chunk 0 hand the Merger the results in different
    orders, and the merged entity for the id [elias] is the copy of chunk 0
    in one run and the copy of chunk 1 in the other. *)
Theorem parallel_merge_follows_completion_order :
  [0; 1] ≡ₚ [1; 0] ∧
  Pipeline.parallel_merge Examples.two_chunks [0; 1] =
    {| entities := Some [Examples.elias_0]; relationships := Some [] |} ∧
  Pipeline.parallel_merge Examples.two_chunks [1; 0] =
    {| entities := Some [Examples.elias_1]; relationships := Some [] |} ∧
  Pipeline.parallel_merge Examples.two_chunks [0; 1] ≠
    Pipeline.parallel_merge Examples.two_chunks [1; 0].
Proof.
  split_and!; [apply Permutation_swap | by vm_compute | by vm_compute |].
  by vm_compute.
Qed.

(** ** Rule-based duplicate entity types *)

(** C8.  On the labels [["Person", "person", "Vehicle"]], whatever the node
    counts, the rule-based prefilter returns exactly one group, its members
    are [Person] and [person], and no group contains [Vehicle]; the
    case-insensitive grouping of the labels gives the same single group. *)
Theorem person_vehicle_one_group (c1 c2 c3 : Z) :
  (∃ g,
     Detection.prefilter_duplicate_entity_types (Examples.person_vehicle c1 c2 c3)
       = [g] ∧
     Detection.duplicate_types g = ["Person"; "person"]) ∧
  (∀ g,
     g ∈ Detection.prefilter_duplicate_entity_types
           (Examples.person_vehicle c1 c2 c3) →
     "Vehicle" ∉ Detection.duplicate_types g) ∧
  Detection.duplicate_types
    <$> Detection.find_case_insensitive_duplicates ["Person"; "person"; "Vehicle"]
  = [["Person"; "person"]].
Proof.
  assert (∃ g,
     Detection.prefilter_duplicate_entity_types (Examples.person_vehicle c1 c2 c3)
       = [g] ∧
     Detection.duplicate_types g = ["Person"; "person"]) as (g & Hg & Hdt).
  { eexists. split; [vm_compute; reflexivity | reflexivity]. }
  split_and!.
  - by exists g.
  - intros g' Hg'. rewrite Hg in Hg'.
    apply list_elem_of_singleton in Hg' as ->. rewrite Hdt.
    intros Hin. repeat (apply elem_of_cons in Hin as [[=]|Hin]).
    by apply elem_of_nil in Hin.
  - reflexivity.
Qed.

(** ** Exit codes *)




(** ** The adaptive pipeline *)

Ltac run_adaptive :=
  unfold Adaptive.process_document_to_graph, Adaptive.try_body,
    Adaptive.process_document, Adaptive.start;
  unfold mbind, Adaptive.M_bind, Adaptive.bind, Adaptive.lift, Adaptive.print,
    Adaptive.read_local, Adaptive.assign_all_extracted_data, mret,
    Adaptive.M_ret, Adaptive.ret;
  cbn;
  repeat (case_match; simplify_eq/=).

Lemma adaptive_trace_has_no_merge env args :
  let st := Adaptive.process_document_to_graph env args in
  (∀ c, Writer.Query c ∉ Writer.trace st) ∧
  (Writer.Print "Merging data from all chunks..." ∉ Writer.trace st) ∧
  (Writer.Print "Building Neo4j graph..." ∉ Writer.trace st).
Proof.
  run_adaptive.
  all: split_and!; [intros c Hin | intros Hin | intros Hin].
  all: repeat (apply elem_of_cons in Hin as [[=]|Hin]).
  all: by apply elem_of_nil in Hin.
Qed.

Lemma adaptive_raises_at_line_937 env args :
  Adaptive.reaches_post_extraction env args →
  ∃ f,
    Adaptive.try_body env args Adaptive.start
      = (Raise (UnboundLocalError "merged_data"), f) ∧
    Writer.trace (Adaptive.process_document_to_graph env args)
      = Writer.trace (Adaptive.io f)
          ++ [Writer.Print
                (Adaptive.handler_line (UnboundLocalError "merged_data"))].
Proof.
  intros (Hinit & loaded & Hload & Hrest). revert Hload Hrest.
  run_adaptive; intros; simplify_eq/=; try done.
  all: try (by eexists).
  all: destruct Hrest as (? & ? & Hsave); [done|]; simplify_eq/=; try done.
  all: try (by eexists).
  all: specialize (Hsave eq_refl); congruence.
Qed.

(** C3.  Whatever the services do, a call of the adaptive
    [process_document_to_graph] sends no query to the graph store and
    never arrives at the merge or at the graph build.  When the stages
    before line 937 all return, the read of [merged_data] raises
    [UnboundLocalError] (a [NameError]), and the handler of the function
    prints it as the last line. *)
Theorem adaptive_pipeline_stops_before_merge
    (env : Adaptive.environment) (args : Adaptive.arguments) :
  let st := Adaptive.process_document_to_graph env args in
  (∀ c, Writer.Query c ∉ Writer.trace st) ∧
  (Writer.Print "Merging data from all chunks..." ∉ Writer.trace st) ∧
  (Writer.Print "Building Neo4j graph..." ∉ Writer.trace st) ∧
  (Adaptive.reaches_post_extraction env args →
   ∃ f,
     Adaptive.try_body env args Adaptive.start
       = (Raise (UnboundLocalError "merged_data"), f) ∧
     Writer.trace st
       = Writer.trace (Adaptive.io f)
           ++ [Writer.Print
                 (Adaptive.handler_line (UnboundLocalError "merged_data"))]).
Proof.
  destruct (adaptive_trace_has_no_merge env args) as (Hq & Hm & Hb).
  split_and!; [done..|]. apply adaptive_raises_at_line_937.
Qed.

Lemma adaptive_pipeline_stops_before_merge_witness :
  Adaptive.reaches_post_extraction Examples.one_chunk_env Examples.default_args ∧
  Writer.trace
    (Adaptive.process_document_to_graph Examples.one_chunk_env
       Examples.default_args)
  = [Writer.Print "Connecting to Neo4j...";
     Writer.Print "Connected to Neo4j successfully.";
     Writer.Print
       (Adaptive.handler_line (UnboundLocalError "merged_data"))].
Proof.
  assert (Adaptive.reaches_post_extraction Examples.one_chunk_env
            Examples.default_args) as Hreach.
  { split; [reflexivity|]. exists []. split; [reflexivity|].
    intros _. exists 1. split; [reflexivity | intros [=]]. }
  split; [exact Hreach|].
  destruct (adaptive_pipeline_stops_before_merge Examples.one_chunk_env
              Examples.default_args) as (_ & _ & _ & Hraise).
  destruct (Hraise Hreach) as (f & Hf & Htrace).
  rewrite Htrace. vm_compute in Hf. injection Hf as <-. reflexivity.
Defined.

(** ** The Graph Writer *)















(** ** The extraction call *)

Lemma substring_zero n s : substring n 0 s = "".
Proof.
  revert n. induction s as [|c s IH]; intros [|n]; simpl; try done.
Qed.


Lemma find_from_get c s i :
  PyStr.find_from c s i = (-1)%Z ∨
  (i ≤ PyStr.find_from c s i)%Z ∧
  String.get (Z.to_nat (PyStr.find_from c s i - i)) s = Some c.
Proof.
  revert i. induction s as [|a s IH]; intros i; simpl; [by left|].
  destruct (Ascii.eqb a c) eqn:Hac.
  - right. apply Ascii.eqb_eq in Hac as ->.
    split; [lia|]. by replace (i - i)%Z with 0%Z by lia.
  - destruct (IH (i + 1)%Z) as [->|[Hle Hget]]; [by left|right].
    split; [lia|].
    replace (Z.to_nat (PyStr.find_from c s (i + 1) - i))
      with (S (Z.to_nat (PyStr.find_from c s (i + 1) - (i + 1)))) by lia.
    done.
Qed.





Section extraction.
Context (json_loads : string → result Extraction.json).
Context (ollama : option exception) (invoke : string → nat → result string).
Context (loads_empty : ∀ data, json_loads "" ≠ Ok data).
Context (loads_object : ∀ rest data,
  json_loads (String "{" rest) = Ok data → Extraction.is_dict data = true).







End extraction.



(** ** The resolution engine *)

Section resolution.
Import Resolution.
Context (w : world).

Lemma added_app st st' new :
  trace st' = trace st ++ new → added st st' = new.
Proof. unfold added. intros ->. by rewrite drop_app_length. Qed.

Lemma execute_cypher_query_trace i stg j q st :
  trace (execute_cypher_query w i stg j q st).2
    = trace st ++ [Query i stg j q].
Proof.
  unfold execute_cypher_query. by destruct (graph w (queries st) q).
Qed.

Lemma run_pre_validation_spec i steps j gr st :
  ∃ new,
    trace (run_pre_validation w i j steps gr st).2 = trace st ++ new ∧
    Forall (of_entry i PreValidation) new ∧
    operation_results (run_pre_validation w i j steps gr st).1.2
      = operation_results gr ∧
    post_validation_results (run_pre_validation w i j steps gr st).1.2
      = post_validation_results gr ∧
    gr_group_id (run_pre_validation w i j steps gr st).1.2 = gr_group_id gr ∧
    ((∀ k a, Input i PreValidation k a ∈ new → PyStr.lower a = "y") ∨
     (run_pre_validation w i j steps gr st).1.1 = false ∧
     status (run_pre_validation w i j steps gr st).1.2
       = "pre_validation_rejected").
Proof.
  revert j gr st. induction steps as [|validation steps IH]; intros j gr st.
  { exists []. simpl. rewrite app_nil_r. split_and!; try done.
    left. by intros k a ?%elem_of_nil. }
  simpl.
  pose proof (execute_cypher_query_trace i PreValidation j
                (get_or (query validation) "") st) as Hq.
  destruct (execute_cypher_query w i PreValidation j
              (get_or (query validation) "") st) as [[rows success] st1].
  simpl in Hq. destruct success; simpl.
  - destruct (String.eqb (PyStr.lower (operator w (prompts st1))) "y")
      eqn:Hanswer; simpl.
    + match goal with
      | |- context [run_pre_validation w i (S j) steps ?g ?s] =>
          destruct (IH (S j) g s) as (new & Htr & Hall & Hop & Hpost & Hid & Hin)
      end.
      exists (Query i PreValidation j (get_or (query validation) "")
                :: Input i PreValidation j (operator w (prompts st1)) :: new).
      simpl in Htr, Hop, Hpost, Hid.
      split_and!; [| | done..|].
      * by rewrite Htr, Hq, <- !app_assoc.
      * by repeat constructor.
      * destruct Hin as [Hin|Hin]; [left|by right].
        intros k a [[=]|[[= -> ->]|Hk]%elem_of_cons]%elem_of_cons.
        -- by apply String.eqb_eq.
        -- by eapply Hin.
    + exists [Query i PreValidation j (get_or (query validation) "");
              Input i PreValidation j (operator w (prompts st1))].
      rewrite Hq, <- app_assoc. simpl.
      split_and!; [done | by repeat constructor | done..|by right].
  - exists [Query i PreValidation j (get_or (query validation) "")].
    split_and!; [done | by repeat constructor | done..|].
    left. intros k a [[=]|?%elem_of_nil]%elem_of_cons. done.
Qed.

Lemma run_merge_operations_spec i steps j gr st :
  ∃ new,
    trace (run_merge_operations w i j steps gr st).2 = trace st ++ new ∧
    Forall (of_entry i MergeOperation) new.
Proof.
  revert j gr st. induction steps as [|operation steps IH]; intros j gr st.
  { exists []. simpl. by rewrite app_nil_r. }
  simpl. destruct (get_or (requires_confirmation operation) true); simpl.
  - destruct (String.eqb (PyStr.lower (operator w (prompts st))) "y"); simpl.
    + match goal with
      | |- context [execute_cypher_query w i MergeOperation j ?q ?s] =>
          pose proof (execute_cypher_query_trace i MergeOperation j q s) as Hq;
          destruct (execute_cypher_query w i MergeOperation j q s)
            as [[rows success] st1]
      end.
      simpl in Hq. destruct success; simpl.
      * match goal with
        | |- context [run_merge_operations w i (S j) steps ?g ?s] =>
            destruct (IH (S j) g s) as (new & Htr & Hall)
        end.
        eexists (_ :: _ :: new). rewrite Htr, Hq, <- !app_assoc. simpl.
        split; [done|]. by repeat constructor.
      * eexists [_; _]. rewrite Hq, <- app_assoc. simpl.
        split; [done|]. by repeat constructor.
    + eexists [_]. split; [done|]. by repeat constructor.
  - match goal with
    | |- context [execute_cypher_query w i MergeOperation j ?q ?s] =>
        pose proof (execute_cypher_query_trace i MergeOperation j q s) as Hq;
        destruct (execute_cypher_query w i MergeOperation j q s)
          as [[rows success] st1]
    end.
    simpl in Hq. destruct success; simpl.
    + match goal with
      | |- context [run_merge_operations w i (S j) steps ?g ?s] =>
          destruct (IH (S j) g s) as (new & Htr & Hall)
      end.
      eexists (_ :: new). rewrite Htr, Hq, <- !app_assoc. simpl.
      split; [done|]. by repeat constructor.
    + eexists [_]. split; [done|]. by repeat constructor.
Qed.

Lemma run_post_validation_spec i steps j gr st :
  ∃ new,
    trace (run_post_validation w i j steps gr st).2 = trace st ++ new ∧
    Forall (of_entry i PostValidation) new.
Proof.
  revert j gr st. induction steps as [|validation steps IH]; intros j gr st.
  { exists []. simpl. by rewrite app_nil_r. }
  simpl.
  pose proof (execute_cypher_query_trace i PostValidation j
                (get_or (query validation) "") st) as Hq.
  destruct (execute_cypher_query w i PostValidation j
              (get_or (query validation) "") st) as [[rows success] st1].
  simpl in Hq. destruct success; simpl.
  - destruct (String.eqb (PyStr.lower (operator w (prompts st1))) "y"); simpl.
    + match goal with
      | |- context [run_post_validation w i (S j) steps ?g ?s] =>
          destruct (IH (S j) g s) as (new & Htr & Hall)
      end.
      eexists (_ :: _ :: new). rewrite Htr. simpl. rewrite Hq, <- !app_assoc.
      simpl. split; [done|]. by repeat constructor.
    + eexists [_; _]. rewrite Hq, <- app_assoc. simpl.
      split; [done|]. by repeat constructor.
  - eexists [_]. split; [done|]. by repeat constructor.
Qed.

Lemma of_entry_indexed i stg new :
  Forall (of_entry i stg) new →
  Forall (λ ev, event_index ev = i ∧ is_Some (event_stage ev)) new.
Proof.
  intros Hall. eapply Forall_impl; [exact Hall|].
  intros ev [? Hstg]. split; [done|]. by rewrite Hstg.
Qed.

(** The events of one entry all carry its index, and none is a warning. *)
Lemma run_group_spec i plan group ex st :
  ∃ new,
    trace (run_group w i plan group ex st).2 = trace st ++ new ∧
    Forall (λ ev, event_index ev = i ∧ is_Some (event_stage ev)) new.
Proof.
  unfold run_group.
  match goal with
  | |- context [run_pre_validation w i 0 ?steps ?g st] =>
      destruct (run_pre_validation_spec i steps 0 g st)
        as (new1 & Htr1 & Hall1 & _);
      destruct (run_pre_validation w i 0 steps g st) as [[passed gr1] st1]
  end.
  simpl in Htr1. apply of_entry_indexed in Hall1.
  destruct passed; simpl; [|by exists new1].
  match goal with
  | |- context [run_merge_operations w i 0 ?steps gr1 st1] =>
      destruct (run_merge_operations_spec i steps 0 gr1 st1)
        as (new2 & Htr2 & Hall2);
      destruct (run_merge_operations w i 0 steps gr1 st1)
        as [[merged gr2] st2]
  end.
  simpl in Htr2. apply of_entry_indexed in Hall2.
  destruct merged; simpl.
  2:{ exists (new1 ++ new2). rewrite Htr2, Htr1, <- app_assoc.
      split; [done|]. by apply Forall_app. }
  match goal with
  | |- context [run_post_validation w i 0 ?steps gr2 st2] =>
      destruct (run_post_validation_spec i steps 0 gr2 st2)
        as (new3 & Htr3 & Hall3);
      destruct (run_post_validation w i 0 steps gr2 st2)
        as [[validated gr3] st3]
  end.
  simpl in Htr3. apply of_entry_indexed in Hall3.
  exists (new1 ++ new2 ++ new3).
  split; [|by rewrite !Forall_app].
  destruct validated; simpl; by rewrite Htr3, Htr2, Htr1, <- !app_assoc.
Qed.


(** The events of the loop over the entries [i], [i+1], .. carry the
    indices of these entries; an entry without group contributes its
    warning and nothing else. *)
Lemma run_plans_spec lookup plans i ex st :
  ∃ new,
    trace (run_plans w lookup i plans ex st).2 = trace st ++ new ∧
    Forall (λ ev, i ≤ event_index ev < i + length plans) new ∧
    ∀ k plan,
      plans !! k = Some plan → find_group lookup plan = None →
      Warning (i + k) (get (plan_group_id plan)) ∈ new ∧
      ∀ ev, ev ∈ new → event_index ev = i + k → event_stage ev = None.
Proof.
  revert i ex st. induction plans as [|plan plans IH]; intros i ex st.
  { exists []. simpl. rewrite app_nil_r. split_and!; [done | constructor |].
    intros k plan Hk. by rewrite lookup_nil in Hk. }
  simpl. destruct (find_group lookup plan) as [group|] eqn:Hgroup.
  - destruct (run_group_spec i plan group ex st) as (new1 & Htr1 & Hall1).
    destruct (run_group w i plan group ex st) as [ex1 st1]. simpl in Htr1.
    destruct (IH (S i) ex1 st1) as (new & Htr & Hall & Horphan).
    exists (new1 ++ new). rewrite Htr, Htr1, <- app_assoc. split_and!; [done| |].
    + apply Forall_app. split.
      * eapply Forall_impl; [done|]. intros ev [-> _]. simpl. lia.
      * eapply Forall_impl; [done|]. intros ev ?. simpl in *. lia.
    + intros [|k] p Hk Hnone; simpl in Hk; simplify_eq.
      destruct (Horphan k p Hk Hnone) as [Hwarn Honly].
      replace (i + S k) with (S i + k) by lia. split.
      * apply elem_of_app. by right.
      * intros ev [Hev|Hev]%elem_of_app Hidx; [|by apply Honly].
        eapply Forall_forall in Hall1 as [Hi _]; [|done]. lia.
  - match goal with
    | |- context [run_plans w lookup (S i) plans ex ?s] =>
        destruct (IH (S i) ex s) as (new & Htr & Hall & Horphan)
    end.
    simpl in Htr.
    exists (Warning i (get (plan_group_id plan)) :: new).
    rewrite Htr, <- app_assoc. split_and!; [done| |].
    + constructor; [simpl; lia|].
      eapply Forall_impl; [done|]. intros ev ?. simpl in *. lia.
    + intros [|k] p Hk Hnone; simpl in Hk; simplify_eq.
      * rewrite Nat.add_0_r. split; [by left|].
        intros ev [->|Hev]%elem_of_cons Hidx; [done|].
        eapply Forall_forall in Hall; [|done]. lia.
      * destruct (Horphan k p Hk Hnone) as [Hwarn Honly].
        replace (i + S k) with (S i + k) by lia. split; [by right|].
        intros ev [->|Hev]%elem_of_cons Hidx; [done|]. by apply Honly.
Qed.

Lemma make_group_lookup_None (groups : list group_dict) (gid : pyval) :
  (∀ g, g ∈ groups → get (group_id g) ≠ gid) →
  make_group_lookup groups !! gid = None.
Proof.
  unfold make_group_lookup.
  assert (∀ m : gmap pyval group_dict,
            m !! gid = None →
            (∀ g, g ∈ groups → get (group_id g) ≠ gid) →
            foldl (λ m g, <[get (group_id g) := g]> m) m groups !! gid = None)
    as Hfold.
  { induction groups as [|g groups IH]; intros m Hm Hall; simpl; [done|].
    apply IH.
    - rewrite lookup_insert_ne; [done|]. apply Hall. by left.
    - intros g' Hg'. apply Hall. by right. }
  intros Hall. by apply Hfold.
Qed.

End resolution.

(** C6, as stated, fails: a plan with an entry whose [group_id] names no
    group is not rejected; the entry of the existing group is executed,
    merge operation included. *)
Lemma plan_with_orphan_entry_is_executed :
  (∀ g, g ∈ get_or (Resolution.groups Examples.plan_with_orphan) [] →
        get (Resolution.group_id g) ≠ PStr "group-9999") ∧
  get_or (Resolution.resolution_plan Examples.plan_with_orphan) [] !! 1
    = Some Examples.orphan_plan ∧
  Resolution.Query 0 Resolution.MergeOperation 0
    "MATCH (n:person) SET n:Person REMOVE n:person"
  ∈ Resolution.trace
      (Resolution.execute_resolution_plan Examples.approving
         (Some Examples.plan_with_orphan) None).2.
Proof.
  split_and!.
  - intros g ->%list_elem_of_singleton. by intros [=].
  - reflexivity.
  - vm_compute. do 2 right. left.
Qed.

(** C6, amended.  When all groups of a plan are executed, an entry of
    [resolution_plan] whose [group_id] is the id of no group is passed
    over with a warning: none of its queries is sent and no prompt is
    shown for it.  (The other entries are executed as usual.) *)
Theorem entry_without_group_is_skipped
    (w : Resolution.world) (rp : Resolution.resolution_plan_dict)
    (i : nat) (plan : Resolution.plan_dict) :
  get_or (Resolution.resolution_plan rp) [] !! i = Some plan →
  (∀ g, g ∈ get_or (Resolution.groups rp) [] →
        get (Resolution.group_id g) ≠ get (Resolution.plan_group_id plan)) →
  let st := (Resolution.execute_resolution_plan w (Some rp) None).2 in
  Resolution.Warning i (get (Resolution.plan_group_id plan))
    ∈ Resolution.trace st ∧
  (∀ stg j q, Resolution.Query i stg j q ∉ Resolution.trace st) ∧
  (∀ stg j a, Resolution.Input i stg j a ∉ Resolution.trace st).
Proof.
  intros Hplan Hgroups.
  assert (Resolution.find_group
            (Resolution.make_group_lookup (get_or (Resolution.groups rp) []))
            plan = None) as Hnone.
  { unfold Resolution.find_group. by rewrite make_group_lookup_None. }
  unfold Resolution.execute_resolution_plan.
  destruct (get_or (Resolution.resolution_plan rp) []) as [|p plans] eqn:Hplans;
    [by rewrite lookup_nil in Hplan|].
  match goal with
  | |- context [Resolution.run_plans w ?lookup 0 ?ps ?ex ?s] =>
      destruct (run_plans_spec w lookup ps 0 ex s) as (new & Htr & _ & Horphan);
      destruct (Resolution.run_plans w lookup 0 ps ex s) as [ex' st']
  end.
  simpl in *. destruct (Horphan i plan Hplan Hnone) as [Hwarn Honly].
  rewrite Htr. split_and!; [done| |].
  - intros stg j q Hin. by specialize (Honly _ Hin eq_refl).
  - intros stg j a Hin. by specialize (Honly _ Hin eq_refl).
Qed.

Lemma entry_without_group_is_skipped_witness :
  let st :=
    (Resolution.execute_resolution_plan Examples.approving
       (Some Examples.plan_with_orphan) None).2 in
  Resolution.Warning 1 (PStr "group-9999") ∈ Resolution.trace st ∧
  (∀ stg j q, Resolution.Query 1 stg j q ∉ Resolution.trace st) ∧
  (∀ stg j a, Resolution.Input 1 stg j a ∉ Resolution.trace st).
Proof.
  apply (entry_without_group_is_skipped Examples.approving
           Examples.plan_with_orphan 1 Examples.orphan_plan).
  - reflexivity.
  - intros g ->%list_elem_of_singleton. by intros [=].
Defined.



(** * Further properties *)

(** ** The Result Merger, continued *)

Section first_wins_more.
Context {A K : Type} `{Countable K} (key : A → K).

Lemma first_occurrences_app seen (l1 l2 : list A) :
  Merger.first_occurrences key seen (l1 ++ l2) =
    Merger.first_occurrences key seen l1
      ++ Merger.first_occurrences key (seen ∪ list_to_set (key <$> l1)) l2.
Proof.
  revert seen. induction l1 as [|x l1 IH]; intros seen; simpl.
  { f_equal. set_solver. }
  case_decide as Hx; rewrite IH.
  - do 2 f_equal. set_solver.
  - simpl. do 3 f_equal. set_solver.
Qed.

Lemma first_occurrences_twice (seen seen' : gset K) (l : list A) :
  Merger.first_occurrences key seen (Merger.first_occurrences key seen' l) =
    Merger.first_occurrences key (seen ∪ seen') l.
Proof.
  revert seen seen'. induction l as [|x l IH]; intros seen seen'; simpl; [done|].
  destruct (decide (key x ∈ seen')) as [Hx'|Hx'].
  - rewrite decide_True by set_solver. apply IH.
  - simpl. destruct (decide (key x ∈ seen)) as [Hx|Hx].
    + rewrite decide_True by set_solver. rewrite IH. f_equal. set_solver.
    + rewrite decide_False by set_solver. rewrite IH. do 2 f_equal. set_solver.
Qed.

Lemma first_occurrences_keys seen (l : list A) :
  seen ∪ list_to_set (key <$> Merger.first_occurrences key seen l) =
    seen ∪ list_to_set (key <$> l).
Proof.
  revert seen. induction l as [|x l IH]; intros seen; simpl; [done|].
  case_decide as Hx.
  - rewrite IH. set_solver.
  - simpl. specialize (IH ({[key x]} ∪ seen)). set_solver.
Qed.

Lemma first_occurrences_batches (l1 l2 : list A) :
  Merger.first_occurrences key ∅
    (Merger.first_occurrences key ∅ l1 ++ Merger.first_occurrences key ∅ l2) =
  Merger.first_occurrences key ∅ (l1 ++ l2).
Proof.
  rewrite !first_occurrences_app, !first_occurrences_twice.
  replace (∅ ∪ ∅ : gset K) with (∅ : gset K) by set_solver.
  f_equal. f_equal. pose proof (first_occurrences_keys ∅ l1). set_solver.
Qed.

End first_wins_more.

(** X1.  What holds for relationships in place of the triple: the merged
    relationships are relationships of the input in input order, no two
    share a key string or a triple, and every key string of the input is
    carried by exactly one merged relationship, the first of the input
    with that key. *)
Theorem merge_keeps_first_relationship_per_key (data_list : list extracted) :
  let merged := get_or (relationships (Merger.merge_extracted_data data_list)) [] in
  let input := Merger.all_relationships data_list in
  merged `sublist_of` input ∧
  NoDup (Merger.rel_key <$> merged) ∧
  NoDup (Merger.triple <$> merged) ∧
  (∀ r, r ∈ input →
     ∃ i first,
       list_find (λ x, Merger.rel_key x = Merger.rel_key r) input
         = Some (i, first) ∧
       filter (λ x, Merger.rel_key x = Merger.rel_key r) merged = [first]).
Proof.
  simpl. destruct (merged_relationships_distinct data_list) as [Hkeys Htriples].
  split_and!; [|done..|].
  - rewrite merge_relationships_spec. apply first_occurrences_sublist.
  - intros r Hr. rewrite merge_relationships_spec.
    by apply first_occurrences_exactly_once.
Qed.

(** X2.  Merging is idempotent: the merge of a merged delta is that
    delta. *)
Theorem merge_is_idempotent (data_list : list extracted) :
  Merger.merge_extracted_data [Merger.merge_extracted_data data_list] =
    Merger.merge_extracted_data data_list.
Proof.
  unfold Merger.merge_extracted_data. f_equal; f_equal.
  - rewrite (merge_entities_spec [_]). unfold Merger.all_entities. simpl.
    rewrite app_nil_r, merge_entities_spec, first_occurrences_twice.
    by replace (∅ ∪ ∅ : gset pyval) with (∅ : gset pyval) by set_solver.
  - rewrite (merge_relationships_spec [_]). unfold Merger.all_relationships.
    simpl.
    rewrite app_nil_r, merge_relationships_spec, first_occurrences_twice.
    by replace (∅ ∪ ∅ : gset string) with (∅ : gset string) by set_solver.
Qed.

(** X3.  Merging in batches: merging two lists of results separately and
    then merging the two deltas gives the delta of merging the
    concatenated list. *)
Theorem merge_in_batches (data_list1 data_list2 : list extracted) :
  Merger.merge_extracted_data
    [Merger.merge_extracted_data data_list1;
     Merger.merge_extracted_data data_list2] =
  Merger.merge_extracted_data (data_list1 ++ data_list2).
Proof.
  unfold Merger.merge_extracted_data. f_equal; f_equal.
  - rewrite (merge_entities_spec [_; _]), !merge_entities_spec.
    unfold Merger.all_entities. simpl.
    rewrite app_nil_r, fmap_app, concat_app.
    apply first_occurrences_batches.
  - rewrite (merge_relationships_spec [_; _]), !merge_relationships_spec.
    unfold Merger.all_relationships. simpl.
    rewrite app_nil_r, fmap_app, concat_app.
    apply first_occurrences_batches.
Qed.

(** ** Collecting the results of the worker pool, continued *)

Lemma update_progress_length results (c : Pipeline.completed) :
  length (Pipeline.update_progress results c) = length results.
Proof.
  destruct c as [idx [r|]]; simpl; [|done].
  destruct (extracted_truthy r); [apply length_insert | done].
Qed.

Lemma foldl_update_progress_snoc_slot results (cs : list Pipeline.completed) extra :
  Forall (λ c, c.1 < length results) cs →
  foldl Pipeline.update_progress (results ++ extra) cs =
    foldl Pipeline.update_progress results cs ++ extra.
Proof.
  revert results. induction cs as [|c cs IH]; intros results Hcs; simpl; [done|].
  apply Forall_cons in Hcs as [Hc Hcs].
  assert (Pipeline.update_progress (results ++ extra) c =
          Pipeline.update_progress results c ++ extra) as ->.
  { destruct c as [idx [r|]]; simpl in *; [|done].
    destruct (extracted_truthy r); [|done]. by apply insert_app_l. }
  apply IH. eapply Forall_impl; [done|].
  intros c'. by rewrite update_progress_length.
Qed.

Lemma foldl_update_progress_seq (outcome : nat → option extracted) n :
  foldl Pipeline.update_progress (replicate n None)
        (Pipeline.completions outcome (seq 0 n)) =
    (λ i, PipelineMore.kept (outcome i)) <$> seq 0 n.
Proof.
  induction n as [|n IH]; [done|].
  rewrite seq_S, replicate_S_end. unfold Pipeline.completions in *.
  rewrite !fmap_app, foldl_app, foldl_update_progress_snoc_slot.
  - rewrite IH. simpl. unfold PipelineMore.kept.
    assert (length ((λ i, PipelineMore.kept (outcome i)) <$> seq 0 n) = n)
      as Hlen by (by rewrite length_fmap, length_seq).
    destruct (outcome n) as [r|]; [|done].
    destruct (extracted_truthy r); [|done].
    rewrite <- (Nat.add_0_r n) at 1. rewrite <- Hlen at 1.
    by rewrite insert_app_r.
  - rewrite Forall_fmap, length_replicate. apply Forall_forall.
    intros i Hi%elem_of_seq. simpl. lia.
Qed.

Lemma foldl_append_completed acc (cs : list Pipeline.completed) :
  foldl Pipeline.append_completed acc cs =
    acc ++ omap (λ c, PipelineMore.kept c.2) cs.
Proof.
  revert acc. induction cs as [|c cs IH]; intros acc; simpl.
  { by rewrite app_nil_r. }
  rewrite IH. unfold Pipeline.append_completed, PipelineMore.kept.
  destruct c as [idx [r|]]; simpl; [|done].
  destruct (extracted_truthy r); [|done]. by rewrite <- app_assoc.
Qed.

Lemma omap_kept_completions (outcome : nat → option extracted) (l : list nat) :
  omap (λ c : Pipeline.completed, PipelineMore.kept c.2)
       (Pipeline.completions outcome l) =
    omap (λ i, PipelineMore.kept (outcome i)) l.
Proof.
  induction l as [|i l IH]; [done|]. unfold Pipeline.completions in *.
  csimpl. by rewrite IH.
Qed.

Lemma omap_id_kept (outcome : nat → option extracted) (l : list nat) :
  omap id ((λ i, PipelineMore.kept (outcome i)) <$> l) =
    omap (λ i, PipelineMore.kept (outcome i)) l.
Proof. induction l as [|i l IH]; [done|]. csimpl. by rewrite IH. Qed.

(** X4.  Adaptive pipeline: whenever the futures complete in an order
    that is a permutation of the chunk indices, the list collected from
    the slots in parallel mode is the list that sequential mode builds:
    the non-empty results in chunk order. *)
Theorem parallel_slots_equal_sequential
    (outcome : nat → option extracted) (n_chunks : nat) (order : list nat) :
  order ≡ₚ seq 0 n_chunks →
  Pipeline.collect_slots n_chunks (Pipeline.completions outcome order) =
    Adaptive.sequential outcome n_chunks ∧
  Adaptive.sequential outcome n_chunks =
    omap (λ i, PipelineMore.kept (outcome i)) (seq 0 n_chunks).
Proof.
  intros Hperm.
  assert (Adaptive.sequential outcome n_chunks =
          omap (λ i, PipelineMore.kept (outcome i)) (seq 0 n_chunks)) as Hseq.
  { unfold Adaptive.sequential, Pipeline.collect_as_completed.
    rewrite foldl_append_completed. simpl. apply omap_kept_completions. }
  split; [|done]. rewrite Hseq. unfold Pipeline.collect_slots.
  rewrite (foldl_update_progress_perm
             (Pipeline.completions outcome order)
             (Pipeline.completions outcome (seq 0 n_chunks))).
  - rewrite foldl_update_progress_seq. apply omap_id_kept.
  - by apply fmap_Permutation.
  - unfold Pipeline.completions. rewrite <- list_fmap_compose.
    replace (_ <$> order) with order by (symmetry; apply list_fmap_id).
    rewrite Hperm. apply NoDup_seq.
Qed.

Lemma parallel_slots_equal_sequential_witness :
  Pipeline.collect_slots 2 (Pipeline.completions Examples.two_chunks [1; 0]) =
    Adaptive.sequential Examples.two_chunks 2 ∧
  Adaptive.sequential Examples.two_chunks 2 =
    omap (λ i, PipelineMore.kept (Examples.two_chunks i)) (seq 0 2).
Proof.
  apply (parallel_slots_equal_sequential Examples.two_chunks 2 [1; 0]).
  apply Permutation_swap.
Defined.

(** ** The Graph Writer, continued *)










Lemma last_value_cons (k : string) (kv : string * pyval) (l : items) :
  WriterMore.last_value k (kv :: l) =
    match WriterMore.last_value k l with
    | Some v => Some v
    | None => if decide (kv.1 = k) then Some kv.2 else None
    end.
Proof.
  unfold WriterMore.last_value, items. rewrite filter_cons.
  case_decide; [|by destruct (last _)].
  rewrite last_cons. by destruct (last _).
Qed.

Lemma dict_of_items_lookup (base : gmap string pyval) (l : items) (k : string) :
  Writer.dict_of_items base l !! k =
    match WriterMore.last_value k l with
    | Some v => Some v
    | None => base !! k
    end.
Proof.
  revert base. induction l as [|kv l IH]; intros base; [done|].
  unfold Writer.dict_of_items in *. simpl. rewrite IH, last_value_cons.
  destruct (WriterMore.last_value k l); [done|].
  case_decide as Hk.
  - subst k. by rewrite lookup_insert_eq.
  - by rewrite lookup_insert_ne.
Qed.

(** X6.  The node of an entity: whenever the entity loop sends a query,
    the dictionary it sets on the node has an [id] and a [name], and the
    [$id] the node is matched on is that dictionary's [id].  An item
    [id] among the entity's own properties takes the place of the
    entity's id there (the last such item, if there are several);
    without one the id is the entity's, or the empty string. *)
Theorem entity_node_is_keyed_on_last_id (entity : entity_dict) (c : Writer.call) :
  Writer.entity_call entity = Ok c →
  let own := get_or (ent_properties entity) [] in
  let key := default (get_or (ent_id entity) (PStr ""))
                     (WriterMore.last_value "id" own) in
  let name := default (get_or (ent_name entity) (PStr ""))
                      (WriterMore.last_value "name" own) in
  Writer.params c = [("id", Writer.PVal key);
                     ("properties", Writer.PProps (Writer.entity_properties entity))] ∧
  Writer.entity_properties entity !! "id" = Some key ∧
  Writer.entity_properties entity !! "name" = Some name ∧
  (∀ k v, WriterMore.last_value k own = Some v →
          Writer.entity_properties entity !! k = Some v).
Proof.
  intros Hcall. simpl.
  assert (Writer.entity_properties entity !! "id" =
          Some (default (get_or (ent_id entity) (PStr ""))
                  (WriterMore.last_value "id" (get_or (ent_properties entity) []))))
    as Hid.
  { unfold Writer.entity_properties. rewrite dict_of_items_lookup.
    destruct (WriterMore.last_value "id" _); [done|].
    rewrite lookup_insert_ne by done. by rewrite lookup_insert_eq. }
  split_and!.
  - unfold Writer.entity_call in Hcall.
    destruct (get_or (ent_type entity) (PStr "Entity")); try done.
    injection Hcall as <-. simpl. by rewrite Hid.
  - done.
  - unfold Writer.entity_properties. rewrite dict_of_items_lookup.
    destruct (WriterMore.last_value "name" _); [done|].
    by rewrite lookup_insert_eq.
  - intros k v Hk. unfold Writer.entity_properties.
    by rewrite dict_of_items_lookup, Hk.
Qed.

Lemma entity_node_is_keyed_on_last_id_witness :
  ∃ c, Writer.entity_call ExamplesMore.renamed = Ok c ∧
       Writer.params c =
         [("id", Writer.PVal (PStr "y"));
          ("properties",
           Writer.PProps (Writer.entity_properties ExamplesMore.renamed))].
Proof.
  eexists. split; [reflexivity|].
  exact (proj1 (entity_node_is_keyed_on_last_id ExamplesMore.renamed _ eq_refl)).
Defined.


Lemma bad_entity_call (e : entity_dict) :
  WriterMore.bad_entity e = true → Writer.entity_call e = Raise TypeError.
Proof.
  unfold WriterMore.bad_entity, Writer.entity_call, get_or.
  by destruct (ent_type e) as [[| |]|].
Qed.


Lemma bad_relationship_call (r : relationship_dict) :
  WriterMore.bad_relationship r = true →
  Writer.relationship_call r = Raise AttributeError.
Proof.
  unfold WriterMore.bad_relationship, Writer.relationship_call, get_or.
  destruct (Writer.missing_endpoint r); [done|].
  by destruct (rel_type r) as [[| |]|].
Qed.



Lemma good_entity_call (e : entity_dict) :
  WriterMore.bad_entity e = false → ∃ c, Writer.entity_call e = Ok c.
Proof.
  unfold WriterMore.bad_entity, Writer.entity_call, get_or.
  destruct (ent_type e) as [[| |]|]; by eauto.
Qed.

Lemma good_relationship_call (r : relationship_dict) :
  WriterMore.bad_relationship r = false →
  ∃ c, Writer.relationship_call r = Ok c.
Proof.
  unfold WriterMore.bad_relationship, Writer.relationship_call, get_or.
  destruct (Writer.missing_endpoint r); [by eauto|].
  destruct (rel_type r) as [[| |]|]; by eauto.
Qed.

Lemma write_entities_raise graph (es : list entity_dict) st :
  WriterMore.raises (Writer.for_each (Writer.write_entity graph) es st).1 =
    existsb WriterMore.bad_entity es.
Proof.
  revert st. induction es as [|e es IH]; intros st; simpl; [done|].
  unfold Writer.write_entity.
  destruct (WriterMore.bad_entity e) eqn:Hbad.
  - by rewrite (bad_entity_call _ Hbad).
  - destruct (good_entity_call _ Hbad) as [c ->]. unfold Writer.graph_query.
    destruct (graph (Writer.calls st) c); simpl; apply IH.
Qed.

Lemma write_relationships_raise graph (rs : list relationship_dict) st :
  WriterMore.raises (Writer.for_each (Writer.write_relationship graph) rs st).1 =
    existsb WriterMore.bad_relationship rs.
Proof.
  revert st. induction rs as [|r rs IH]; intros st; simpl; [done|].
  unfold Writer.write_relationship.
  destruct (WriterMore.bad_relationship r) eqn:Hbad.
  - by rewrite (bad_relationship_call _ Hbad).
  - destruct (good_relationship_call _ Hbad) as [[c|] ->]; [|apply IH].
    unfold Writer.graph_query.
    destruct (graph (Writer.calls st) c); simpl; apply IH.
Qed.

(** X8.  [build_graph] lets an exception out in three cases and no
    other: the query that clears the graph fails; or an entity has a
    type that is no string; or, no entity being so, a relationship with
    both endpoints has a type that is no string.  A query that fails
    for an entity or a relationship never does it. *)
Theorem build_graph_raises_exactly_when
    (graph : Writer.graph_store) (delta : extracted) (clear_existing : bool)
    (st : Writer.state) :
  WriterMore.raises (Writer.build_graph graph delta clear_existing st).1 =
    (clear_existing
       && WriterMore.raises (graph (Writer.calls st) Writer.clear_query))
    || existsb WriterMore.bad_entity (get_or (entities delta) [])
    || existsb WriterMore.bad_relationship (get_or (relationships delta) []).
Proof.
  unfold Writer.build_graph.
  assert (∀ st1,
    WriterMore.raises
      (match Writer.for_each (Writer.write_entity graph)
               (get_or (entities delta) []) st1 with
       | (Raise e, st) => (Raise e, st)
       | (Ok _, st) =>
           Writer.for_each (Writer.write_relationship graph)
             (get_or (relationships delta) []) st
       end).1 =
    existsb WriterMore.bad_entity (get_or (entities delta) [])
    || existsb WriterMore.bad_relationship (get_or (relationships delta) []))
    as Hloops.
  { intros st1. rewrite <- (write_entities_raise graph _ st1).
    destruct (Writer.for_each (Writer.write_entity graph) _ st1) as [[[]|e] st2];
      simpl; [apply write_relationships_raise | done]. }
  destruct clear_existing; simpl; [|apply Hloops].
  unfold Writer.graph_query.
  destruct (graph (Writer.calls st) Writer.clear_query); simpl; [apply Hloops | done].
Qed.

(** ** Rule-based duplicate entity types, continued *)

Lemma add_variant_new (k x : string) (F : string → list string) (ks : list string) :
  k ∉ ks →
  Detection.add_variant k x ((λ k', (k', F k')) <$> ks) =
    ((λ k', (k', F k')) <$> ks) ++ [(k, [x])].
Proof.
  induction ks as [|k0 ks IH]; intros Hk; [done|].
  rewrite fmap_cons. cbn [Detection.add_variant].
  apply not_elem_of_cons in Hk as [Hne Hk].
  destruct (String.eqb k0 k) eqn:Heq.
  - apply String.eqb_eq in Heq. congruence.
  - by rewrite IH.
Qed.

Lemma add_variant_old (k x : string) (F : string → list string) (ks : list string) :
  NoDup ks → k ∈ ks →
  Detection.add_variant k x ((λ k', (k', F k')) <$> ks) =
    (λ k', (k', if decide (k' = k) then F k' ++ [x] else F k')) <$> ks.
Proof.
  induction ks as [|k0 ks IH]; intros Hnd Hk.
  { by apply elem_of_nil in Hk. }
  rewrite !fmap_cons. cbn [Detection.add_variant].
  apply NoDup_cons in Hnd as [Hk0 Hnd].
  destruct (String.eqb k0 k) eqn:Heq.
  - apply String.eqb_eq in Heq as ->. rewrite decide_True by done.
    f_equal. apply list_fmap_ext. intros i k' Hk'%list_elem_of_lookup_2.
    rewrite decide_False; [done|]. by intros ->.
  - apply String.eqb_neq in Heq. rewrite decide_False by done.
    f_equal. apply IH; [done|].
    apply elem_of_cons in Hk as [->|Hk]; done.
Qed.

Lemma lowercase_keys_nodup (labels : list string) :
  NoDup (DetectionMore.lowercase_keys labels).
Proof.
  unfold DetectionMore.lowercase_keys.
  destruct (first_occurrences_keys_nodup (@id string) ∅
              (PyStr.lower <$> labels)) as [Hnd _].
  by rewrite list_fmap_id in Hnd.
Qed.

Lemma lowercase_keys_elem (labels : list string) (k : string) :
  k ∈ DetectionMore.lowercase_keys labels ↔ ∃ l, l ∈ labels ∧ PyStr.lower l = k.
Proof.
  unfold DetectionMore.lowercase_keys.
  pose proof (first_occurrences_keys (@id string) ∅
                (PyStr.lower <$> labels)) as Hkeys.
  rewrite !list_fmap_id in Hkeys.
  assert (k ∈ Merger.first_occurrences id ∅ (PyStr.lower <$> labels) ↔
          k ∈ PyStr.lower <$> labels) as -> by set_solver.
  rewrite list_elem_of_fmap. naive_solver.
Qed.

Lemma lowercase_keys_snoc (labels : list string) (x : string) :
  DetectionMore.lowercase_keys (labels ++ [x]) =
    DetectionMore.lowercase_keys labels ++
      (if decide (PyStr.lower x ∈ DetectionMore.lowercase_keys labels)
       then [] else [PyStr.lower x]).
Proof.
  unfold DetectionMore.lowercase_keys at 1.
  rewrite fmap_app, first_occurrences_app. f_equal. simpl.
  pose proof (lowercase_keys_elem labels (PyStr.lower x)) as Hin.
  rewrite list_fmap_id.
  case_decide as Hseen; case_decide as Hkey; try done.
  - exfalso. apply Hkey, Hin.
    apply elem_of_union in Hseen as [Hseen|Hseen]; [set_solver|].
    apply elem_of_list_to_set, list_elem_of_fmap in Hseen as (l & Hl & Hin').
    by exists l.
  - exfalso. apply Hseen. apply Hin in Hkey as (l & Hl & Hin').
    apply elem_of_union_r, elem_of_list_to_set, list_elem_of_fmap. by exists l.
Qed.

Lemma group_by_lowercase_snoc (labels : list string) (x : string) :
  Detection.group_by_lowercase (labels ++ [x]) =
    Detection.add_variant (PyStr.lower x) x (Detection.group_by_lowercase labels).
Proof. unfold Detection.group_by_lowercase. by rewrite foldl_app. Qed.

(** The dictionary [label_map] (and [groups]) after the loop: one entry
    per lowercase form, in the order of first occurrence, holding the
    labels of that form in the order of the list. *)
Lemma group_by_lowercase_spec (labels : list string) :
  Detection.group_by_lowercase labels =
    (λ k, (k, DetectionMore.variants_of labels k))
      <$> DetectionMore.lowercase_keys labels.
Proof.
  induction labels as [|x labels IH] using rev_ind; [done|].
  rewrite group_by_lowercase_snoc, IH, lowercase_keys_snoc.
  case_decide as Hkey.
  - rewrite app_nil_r, add_variant_old by (done || apply lowercase_keys_nodup).
    apply list_fmap_ext. intros i k Hk. f_equal.
    unfold DetectionMore.variants_of. rewrite filter_app, filter_cons, filter_nil.
    case_decide as Hk1; case_decide as Hk2; try done; try (by rewrite app_nil_r).
    all: congruence.
  - rewrite add_variant_new, fmap_app by done. simpl. f_equal.
    + apply list_fmap_ext. intros i k Hk%list_elem_of_lookup_2. f_equal.
      unfold DetectionMore.variants_of. rewrite filter_app, filter_cons, filter_nil.
      rewrite decide_False; [by rewrite app_nil_r|]. by intros <-.
    + do 2 f_equal.
      unfold DetectionMore.variants_of. rewrite filter_app, filter_cons, filter_nil.
      rewrite decide_True by done.
      destruct (filter _ labels) as [|y ys] eqn:Hflt; [done|].
      exfalso. apply Hkey, lowercase_keys_elem. exists y.
      assert (y ∈ filter (λ l, PyStr.lower l = PyStr.lower x) labels) as Hy
        by (rewrite Hflt; left).
      apply list_elem_of_filter in Hy as [Hy1 Hy2]. done.
Qed.

Lemma omap_fmap_keys {A B C} (f : B → option C) (g : A → B) (l : list A) :
  omap f (g <$> l) = omap (λ x, f (g x)) l.
Proof. induction l as [|x l IH]; [done|]. csimpl. by rewrite IH. Qed.

Lemma case_groups_elem (labels : list string)
    (choose : list string → option Detection.duplicate_group)
    (g : Detection.duplicate_group) :
  g ∈ omap (λ entry : string * list string, choose entry.2)
           (Detection.group_by_lowercase labels) ↔
  ∃ k, k ∈ DetectionMore.lowercase_keys labels ∧
       choose (DetectionMore.variants_of labels k) = Some g.
Proof.
  rewrite group_by_lowercase_spec, list_elem_of_omap. split.
  - intros ([k vs] & (k' & [= -> ->] & Hk)%list_elem_of_fmap & Hg). by exists k'.
  - intros (k & Hk & Hg). exists (k, DetectionMore.variants_of labels k).
    split; [|done]. apply list_elem_of_fmap. by exists k.
Qed.

Lemma variants_of_lower (labels : list string) (k v : string) :
  v ∈ DetectionMore.variants_of labels k → PyStr.lower v = k ∧ v ∈ labels.
Proof. unfold DetectionMore.variants_of. by intros ?%list_elem_of_filter. Qed.

Lemma omap_keys_sublist {A} (choose : string → option A) (proj : A → string)
    (ks : list string) :
  (∀ k a, choose k = Some a → proj a = k) →
  proj <$> omap choose ks `sublist_of` ks.
Proof.
  intros Hproj. induction ks as [|k ks IH]; [done|]. csimpl.
  destruct (choose k) as [a|] eqn:Ha.
  - csimpl. rewrite (Hproj k a Ha). by apply sublist_skip.
  - by apply sublist_cons.
Qed.

(** X9.  [find_case_insensitive_duplicates] on the labels of the store:
    every group it reports holds exactly the labels that are equal to
    its [keep_type] up to case, in the order of the list, at least two
    of them, and recommends the first; no two groups share a lowercase
    form; and every label that has a second label (or a second entry)
    equal to it up to case is in a group. *)
Theorem case_insensitive_groups_are_exact (labels : list string) :
  let groups := Detection.find_case_insensitive_duplicates labels in
  (∀ g, g ∈ groups →
     Detection.duplicate_types g =
       DetectionMore.variants_of labels (PyStr.lower (Detection.keep_type g)) ∧
     head (Detection.duplicate_types g) = Some (Detection.keep_type g) ∧
     (2 ≤ length (Detection.duplicate_types g))%nat ∧
     Detection.reasoning g = Detection.IdenticalExceptCase) ∧
  (∀ l, l ∈ labels →
     (2 ≤ length (DetectionMore.variants_of labels (PyStr.lower l)))%nat →
     ∃ g, g ∈ groups ∧ l ∈ Detection.duplicate_types g) ∧
  NoDup ((λ g, PyStr.lower (Detection.keep_type g)) <$> groups).
Proof.
  set (choose := λ variants : list string,
         match variants with
         | v :: _ :: _ =>
             Some {| Detection.duplicate_types := variants;
                     Detection.reasoning := Detection.IdenticalExceptCase;
                     Detection.keep_type := v |}
         | _ => None
         end).
  assert (∀ k g, choose (DetectionMore.variants_of labels k) = Some g →
            Detection.duplicate_types g = DetectionMore.variants_of labels k ∧
            PyStr.lower (Detection.keep_type g) = k ∧
            head (Detection.duplicate_types g) = Some (Detection.keep_type g) ∧
            (2 ≤ length (Detection.duplicate_types g))%nat ∧
            Detection.reasoning g = Detection.IdenticalExceptCase) as Hchoose.
  { intros k g Hg. unfold choose in Hg.
    destruct (DetectionMore.variants_of labels k) as [|v [|w vs]] eqn:Hvs; try done.
    injection Hg as <-. simpl. split_and!; [done| |done|lia|done].
    assert (v ∈ DetectionMore.variants_of labels k) as Hv by (rewrite Hvs; left).
    by apply variants_of_lower in Hv as [? _]. }
  simpl.
  assert (Detection.find_case_insensitive_duplicates labels =
          omap (λ entry : string * list string, choose entry.2)
               (Detection.group_by_lowercase labels)) as -> by reflexivity.
  split_and!.
  - intros g (k & Hk & Hg)%case_groups_elem.
    destruct (Hchoose k g Hg) as (Hdt & Hlow & Hhd & Hlen & Hwhy).
    by rewrite Hlow.
  - intros l Hl Hlen.
    destruct (choose (DetectionMore.variants_of labels (PyStr.lower l)))
      as [g|] eqn:Hg.
    + exists g. split.
      * apply case_groups_elem. exists (PyStr.lower l). split; [|done].
        apply lowercase_keys_elem. by exists l.
      * destruct (Hchoose _ g Hg) as (-> & _).
        unfold DetectionMore.variants_of. by apply list_elem_of_filter.
    + unfold choose in Hg.
      destruct (DetectionMore.variants_of labels (PyStr.lower l)) as [|v [|w vs]];
        simpl in *; (done || lia).
  - rewrite group_by_lowercase_spec.
    apply (sublist_NoDup _ (DetectionMore.lowercase_keys labels));
      [apply lowercase_keys_nodup|].
    rewrite omap_fmap_keys. simpl.
    apply (omap_keys_sublist
             (λ k, choose (DetectionMore.variants_of labels k))
             (λ g, PyStr.lower (Detection.keep_type g))).
    intros k g Hg. by destruct (Hchoose k g Hg) as (_ & ? & _).
Qed.

Lemma max_from_spec (key : string → Z) (best : string) (l : list string) :
  Detection.max_from key best l ∈ best :: l ∧
  ∀ x, x ∈ best :: l → (key x ≤ key (Detection.max_from key best l))%Z.
Proof.
  revert best. induction l as [|y l IH]; intros best; simpl.
  { split; [left|]. intros x ->%list_elem_of_singleton. lia. }
  destruct (key best <? key y)%Z eqn:Hlt.
  - apply Z.ltb_lt in Hlt. destruct (IH y) as [Hin Hmax]. split.
    + by right.
    + intros x [->|Hx]%elem_of_cons; [|by apply Hmax].
      specialize (Hmax y (list_elem_of_here _ _)). lia.
  - apply Z.ltb_ge in Hlt. destruct (IH best) as [Hin Hmax]. split.
    + apply elem_of_cons in Hin as [->|Hin]; [left | right; by right].
    + intros x [->|[->|Hx]%elem_of_cons]%elem_of_cons.
      * apply Hmax. left.
      * specialize (Hmax best (list_elem_of_here _ _)). lia.
      * apply Hmax. by right.
Qed.

Lemma prefilter_elem (node_labels : list Detection.label_info)
    (g : Detection.duplicate_group) :
  g ∈ DetectionMore.prefilter_duplicate_entity_types node_labels ↔
  g ∈ DetectionMore.case_variation_groups node_labels
        (Detection.group_by_lowercase (Detection.label <$> node_labels)) ∨
  ∃ a b, (a, b) ∈ Detection.singular_plural_pairs (Detection.label <$> node_labels) ∧
         g = {| Detection.duplicate_types := [a; b];
                Detection.reasoning := Detection.SingularPlural;
                Detection.keep_type :=
                  Detection.min_from (λ s, Z.of_nat (String.length s)) a [b] |}.
Proof.
  unfold DetectionMore.prefilter_duplicate_entity_types.
  rewrite elem_of_app, list_elem_of_fmap. split.
  - intros [?|([a b] & -> & Hab)]; [by left | right; by exists a, b].
  - intros [?|(a & b & Hab & ->)]; [by left | right; by exists (a, b)].
Qed.

(** The two prefilters report the same groups with the same members. *)
Lemma prefilter_same_members (node_labels : list Detection.label_info) :
  Detection.duplicate_types
    <$> DetectionMore.prefilter_duplicate_entity_types node_labels =
  Detection.duplicate_types
    <$> Detection.prefilter_duplicate_entity_types node_labels.
Proof.
  unfold DetectionMore.prefilter_duplicate_entity_types,
    Detection.prefilter_duplicate_entity_types.
  rewrite !fmap_app. f_equal.
  unfold DetectionMore.case_variation_groups, Detection.case_variation_groups.
  induction (Detection.group_by_lowercase _) as [|[k vs] m IH]; [done|].
  destruct vs as [|v [|w vs]]; csimpl; [done..|]. simpl. by f_equal.
Qed.

(** With more nodes under the second variant, the recommendation is the
    second variant. *)
Example most_populous_second_variant :
  Detection.keep_type
    <$> DetectionMore.prefilter_duplicate_entity_types ExamplesMore.host_counts
  = ["Host"].
Proof. reflexivity. Qed.

(** X10.  A case-variation group of the prefilter holds exactly the
    labels that are equal to its [keep_type] up to case, at least two
    of them, and the [keep_type] is one of them with the largest node
    count in the statistics. *)
Theorem case_variation_group_keeps_most_populous
    (node_labels : list Detection.label_info) (g : Detection.duplicate_group) :
  g ∈ DetectionMore.prefilter_duplicate_entity_types node_labels →
  Detection.reasoning g = Detection.CaseVariation →
  Detection.duplicate_types g =
    DetectionMore.variants_of (Detection.label <$> node_labels)
      (PyStr.lower (Detection.keep_type g)) ∧
  (2 ≤ length (Detection.duplicate_types g))%nat ∧
  Detection.keep_type g ∈ Detection.duplicate_types g ∧
  ∀ x, x ∈ Detection.duplicate_types g →
       (Detection.count_of node_labels x
          ≤ Detection.count_of node_labels (Detection.keep_type g))%Z.
Proof.
  intros [Hg|(a & b & _ & ->)]%prefilter_elem Hwhy; [|done].
  set (labels := Detection.label <$> node_labels) in *.
  apply (case_groups_elem labels
           (λ variants,
              match variants with
              | v :: others =>
                  match others with
                  | _ :: _ =>
                      Some {| Detection.duplicate_types := variants;
                              Detection.reasoning := Detection.CaseVariation;
                              Detection.keep_type :=
                                Detection.max_from
                                  (Detection.count_of node_labels) v others |}
                  | [] => None
                  end
              | [] => None
              end)) in Hg as (k & Hk & Hg).
  destruct (DetectionMore.variants_of labels k) as [|v [|w vs]] eqn:Hvs; try done.
  injection Hg as <-. cbn [Detection.duplicate_types Detection.keep_type].
  destruct (max_from_spec (Detection.count_of node_labels) v (w :: vs))
    as [Hin Hmax].
  assert (PyStr.lower (Detection.max_from (Detection.count_of node_labels) v (w :: vs)) = k)
    as Hlow.
  { rewrite <- Hvs in Hin. by apply variants_of_lower in Hin as [? _]. }
  simpl in Hin, Hmax, Hlow.
  split_and!; [by rewrite Hlow | simpl; lia | done | done].
Qed.

Lemma case_variation_group_keeps_most_populous_witness :
  let g := {| Detection.duplicate_types := ["host"; "Host"];
              Detection.reasoning := Detection.CaseVariation;
              Detection.keep_type := "Host" |} in
  Detection.duplicate_types g =
    DetectionMore.variants_of
      (Detection.label <$> ExamplesMore.host_counts)
      (PyStr.lower (Detection.keep_type g)) ∧
  (2 ≤ length (Detection.duplicate_types g))%nat ∧
  Detection.keep_type g ∈ Detection.duplicate_types g ∧
  ∀ x, x ∈ Detection.duplicate_types g →
       (Detection.count_of ExamplesMore.host_counts x
          ≤ Detection.count_of ExamplesMore.host_counts
              (Detection.keep_type g))%Z.
Proof.
  apply (case_variation_group_keeps_most_populous ExamplesMore.host_counts).
  - vm_compute. left.
  - reflexivity.
Defined.







(** ** Combining the rule-based groups and the groups of the LLM *)

Lemma count_occ_lower (labels : list string) (k : string) :
  count_occ string_dec (PyStr.lower <$> labels) k =
    length (DetectionMore.variants_of labels k).
Proof.
  unfold DetectionMore.variants_of.
  induction labels as [|l labels IH]; [done|].
  rewrite fmap_cons, filter_cons. simpl.
  destruct (string_dec (PyStr.lower l) k) as [Heq|Hne].
  - rewrite decide_True by done. simpl. by rewrite IH.
  - by rewrite decide_False.
Qed.

Lemma foldl_unchanged {A B} (f : B → A → B) (keep : A → Prop) (b : B) (l : list A) :
  (∀ b x, keep x → f b x = b) → Forall keep l → foldl f b l = b.
Proof.
  intros Hf Hl. revert b. induction Hl as [|x l Hx Hl IH]; intros b; simpl; [done|].
  by rewrite Hf, IH.
Qed.

Lemma no_case_group_no_variants (node_labels : list Detection.label_info) (l : string) :
  DetectionMore.prefilter_duplicate_entity_types node_labels = [] →
  l ∈ Detection.label <$> node_labels →
  (length (DetectionMore.variants_of (Detection.label <$> node_labels)
             (PyStr.lower l)) ≤ 1)%nat.
Proof.
  intros Hnone Hl.
  destruct (DetectionMore.variants_of _ _) as [|v [|w vs]] eqn:Hvs; simpl; try lia.
  exfalso.
  assert ({| Detection.duplicate_types := v :: w :: vs;
             Detection.reasoning := Detection.CaseVariation;
             Detection.keep_type :=
               Detection.max_from (Detection.count_of node_labels) v (w :: vs) |}
          ∈ DetectionMore.prefilter_duplicate_entity_types node_labels) as Hin.
  { unfold DetectionMore.prefilter_duplicate_entity_types. apply elem_of_app. left.
    apply (case_groups_elem (Detection.label <$> node_labels)
             (λ variants,
                match variants with
                | v :: others =>
                    match others with
                    | _ :: _ =>
                        Some {| Detection.duplicate_types := variants;
                                Detection.reasoning := Detection.CaseVariation;
                                Detection.keep_type :=
                                  Detection.max_from
                                    (Detection.count_of node_labels) v others |}
                    | [] => None
                    end
                | [] => None
                end)).
    exists (PyStr.lower l). split.
    - apply lowercase_keys_elem. by exists l.
    - by rewrite Hvs. }
  rewrite Hnone in Hin. by apply elem_of_nil in Hin.
Qed.

(** X12.  When the LLM leaves no group, the function returns the groups
    of the prefilter and nothing else: the search by case that it runs
    as a last resort, when the prefilter has found nothing, never finds
    a group. *)
Theorem last_resort_finds_nothing (node_labels : list Detection.label_info) :
  Identify.identify_potential_duplicate_entity_types node_labels [] =
    if (length node_labels <=? 1)%nat then []
    else Identify.ByRule
           <$> DetectionMore.prefilter_duplicate_entity_types node_labels.
Proof.
  unfold Identify.identify_potential_duplicate_entity_types.
  destruct (length node_labels <=? 1)%nat; [done|].
  destruct (DetectionMore.prefilter_duplicate_entity_types node_labels)
    as [|g gs] eqn:Hrule; [|done].
  simpl. unfold Identify.fallback, Identify.duplicates_by_case.
  rewrite (foldl_unchanged _ (λ l, l ∈ Detection.label <$> node_labels)); [done| |].
  - intros m l Hl. rewrite count_occ_lower.
    pose proof (no_case_group_no_variants node_labels l Hrule Hl) as Hle.
    by rewrite (proj2 (Nat.ltb_ge _ _)) by lia.
  - by apply Forall_forall.
Qed.

Lemma add_llm_groups_spec (llm_duplicates rule_based : list Identify.found_group) :
  ∃ added,
    foldl Identify.add_llm_group rule_based llm_duplicates = rule_based ++ added ∧
    added `sublist_of` llm_duplicates ∧
    (∀ g, g ∈ llm_duplicates →
       g ∈ added ∨
       ∃ e, e ∈ rule_based ++ added ∧ Identify.is_duplicate_group g e = true) ∧
    (∀ before g after, added = before ++ g :: after →
       Forall (λ e, Identify.is_duplicate_group g e = false) (rule_based ++ before)).
Proof.
  revert rule_based. induction llm_duplicates as [|g llm IH]; intros rule_based.
  { exists []. rewrite app_nil_r. split_and!; [done..| |].
    - by intros g ?%elem_of_nil.
    - by intros [|??] ?? ?. }
  simpl. unfold Identify.add_llm_group at 2.
  destruct (existsb (Identify.is_duplicate_group g) rule_based) eqn:Hany.
  - destruct (IH rule_based) as (added & Heq & Hsub & Hcov & Hnew).
    exists added. split_and!; [done | by apply sublist_cons | | done].
    intros h [->|Hh]%elem_of_cons; [|by apply Hcov].
    right. apply existsb_exists in Hany as (e & He & Hdup).
    exists e. split; [|done]. apply elem_of_app. left. by apply list_elem_of_In.
  - destruct (IH (rule_based ++ [g])) as (added & Heq & Hsub & Hcov & Hnew).
    exists (g :: added). rewrite Heq, <- app_assoc. split_and!.
    + done.
    + by apply sublist_skip.
    + intros h [->|Hh]%elem_of_cons; [left; left|].
      destruct (Hcov h Hh) as [?|(e & He & Hdup)]; [left; by right|].
      right. exists e. split; [|done]. by rewrite <- app_assoc in He.
    + intros [|b before] h after Hsplit.
      * injection Hsplit as <- <-. rewrite app_nil_r. apply Forall_forall.
        intros e He%list_elem_of_In.
        destruct (Identify.is_duplicate_group g e) eqn:Hdup; [|done].
        assert (existsb (Identify.is_duplicate_group g) rule_based = true) as Hyes
          by (apply existsb_exists; eauto).
        congruence.
      * injection Hsplit as <- ->.
        specialize (Hnew before h after eq_refl).
        by rewrite <- app_assoc in Hnew.
Qed.

(** X13.  With groups from the LLM, the returned list is the groups of
    the prefilter, all of them and first, followed by some of the groups
    of the LLM in their order.  A group of the LLM is left out only when
    it shares a type with a group of the returned list, and one that is
    taken shares no type with any group before it in the list. *)
Theorem llm_groups_are_added_unless_covered
    (node_labels : list Detection.label_info)
    (llm_duplicates : list Identify.found_group) :
  (1 < length node_labels)%nat →
  llm_duplicates ≠ [] →
  let rule_based :=
    Identify.ByRule
      <$> DetectionMore.prefilter_duplicate_entity_types node_labels in
  let all_duplicates :=
    Identify.identify_potential_duplicate_entity_types node_labels llm_duplicates in
  ∃ added,
    all_duplicates = rule_based ++ added ∧
    added `sublist_of` llm_duplicates ∧
    (∀ g, g ∈ llm_duplicates →
       g ∈ added ∨
       ∃ e, e ∈ all_duplicates ∧ Identify.is_duplicate_group g e = true) ∧
    (∀ before g after, added = before ++ g :: after →
       Forall (λ e, Identify.is_duplicate_group g e = false)
              (rule_based ++ before)).
Proof.
  intros Hlen Hllm. simpl.
  unfold Identify.identify_potential_duplicate_entity_types.
  rewrite (proj2 (Nat.leb_gt _ _)) by lia.
  destruct llm_duplicates as [|g llm]; [done|].
  destruct (add_llm_groups_spec (g :: llm)
              (Identify.ByRule
                 <$> DetectionMore.prefilter_duplicate_entity_types node_labels))
    as (added & Heq & Hsub & Hcov & Hnew).
  exists added. split_and!; [done..| |done].
  intros h Hh. destruct (Hcov h Hh) as [?|(e & He & Hdup)]; [by left|].
  right. exists e. by rewrite Heq.
Qed.

Lemma llm_groups_are_added_unless_covered_witness :
  ∃ added,
    Identify.identify_potential_duplicate_entity_types ExamplesMore.host_counts
      ExamplesMore.llm_answer =
      (Identify.ByRule
         <$> DetectionMore.prefilter_duplicate_entity_types ExamplesMore.host_counts)
      ++ added ∧
    added `sublist_of` ExamplesMore.llm_answer ∧
    (∀ g, g ∈ ExamplesMore.llm_answer →
       g ∈ added ∨
       ∃ e, e ∈ Identify.identify_potential_duplicate_entity_types
                  ExamplesMore.host_counts ExamplesMore.llm_answer ∧
            Identify.is_duplicate_group g e = true) ∧
    (∀ before g after, added = before ++ g :: after →
       Forall (λ e, Identify.is_duplicate_group g e = false)
              ((Identify.ByRule
                  <$> DetectionMore.prefilter_duplicate_entity_types
                        ExamplesMore.host_counts) ++ before)).
Proof.
  apply (llm_groups_are_added_unless_covered ExamplesMore.host_counts
           ExamplesMore.llm_answer).
  - simpl. lia.
  - done.
Defined.

(** ** The resolution engine, continued *)

Section resolution_more.
Import Resolution.
Context (w : world).









End resolution_more.


Section resolution_gate.
Import Resolution.
Context (w : world).








End resolution_gate.


Section resolution_selected.
Import Resolution.
Context (w : world).

Lemma run_merge_operations_group_id i steps j gr st :
  gr_group_id (run_merge_operations w i j steps gr st).1.2 = gr_group_id gr.
Proof.
  revert j gr st. induction steps as [|operation steps IH]; intros j gr st; [done|].
  simpl. unfold execute_cypher_query, confirm.
  destruct (get_or (requires_confirmation operation) true); simpl.
  - destruct (String.eqb (PyStr.lower (operator w (prompts st))) "y"); simpl;
      [|done].
    destruct (graph w _ (get_or (query operation) "")); simpl; [|done].
    by rewrite IH.
  - destruct (graph w _ (get_or (query operation) "")); simpl; [|done].
    by rewrite IH.
Qed.

Lemma run_post_validation_group_id i steps j gr st :
  gr_group_id (run_post_validation w i j steps gr st).1.2 = gr_group_id gr.
Proof.
  revert j gr st. induction steps as [|validation steps IH]; intros j gr st; [done|].
  simpl. unfold execute_cypher_query.
  destruct (graph w (queries st) (get_or (query validation) "")); simpl; [|done].
  destruct (String.eqb (PyStr.lower (operator w (prompts st))) "y"); simpl;
    [|done].
  by rewrite IH.
Qed.

Lemma run_group_report i plan group ex st :
  ∃ gr,
    group_results (run_group w i plan group ex st).1 = group_results ex ++ [gr] ∧
    gr_group_id gr = get (group_id group) ∧
    total_groups (run_group w i plan group ex st).1 = total_groups ex.
Proof.
  unfold run_group.
  match goal with
  | |- context [run_pre_validation w i 0 ?steps ?gr0 st] =>
      destruct (run_pre_validation_spec w i steps 0 gr0 st)
        as (_ & _ & _ & _ & _ & Hid1 & _);
      destruct (run_pre_validation w i 0 steps gr0 st) as [[b1 gr1] st1]
  end.
  simpl in Hid1. destruct b1; simpl; [|by exists gr1].
  match goal with
  | |- context [run_merge_operations w i 0 ?steps gr1 st1] =>
      pose proof (run_merge_operations_group_id i steps 0 gr1 st1) as Hid2;
      destruct (run_merge_operations w i 0 steps gr1 st1) as [[b2 gr2] st2]
  end.
  simpl in Hid2. destruct b2; simpl; [|exists gr2; by rewrite Hid2].
  match goal with
  | |- context [run_post_validation w i 0 ?steps gr2 st2] =>
      pose proof (run_post_validation_group_id i steps 0 gr2 st2) as Hid3;
      destruct (run_post_validation w i 0 steps gr2 st2) as [[b3 gr3] st3]
  end.
  simpl in Hid3. destruct b3; simpl; eexists; (split; [done|]); simpl;
    by rewrite Hid3, Hid2.
Qed.

Lemma run_plans_one_group lookup group plans i ex st :
  Forall (λ plan, find_group lookup plan = Some group) plans →
  ∃ reports new,
    group_results (run_plans w lookup i plans ex st).1
      = group_results ex ++ reports ∧
    length reports = length plans ∧
    Forall (λ gr, gr_group_id gr = get (group_id group)) reports ∧
    total_groups (run_plans w lookup i plans ex st).1 = total_groups ex ∧
    trace (run_plans w lookup i plans ex st).2 = trace st ++ new ∧
    Forall (λ ev, is_Some (event_stage ev)) new.
Proof.
  revert i ex st. induction plans as [|plan plans IH]; intros i ex st Hall.
  { exists [], []. simpl. rewrite !app_nil_r. by split_and!. }
  apply Forall_cons in Hall as [Hplan Hall]. simpl. rewrite Hplan.
  destruct (run_group_report i plan group ex st) as (gr & Hres & Hid & Htotal).
  destruct (run_group_spec w i plan group ex st) as (new1 & Htr1 & Hall1).
  destruct (run_group w i plan group ex st) as [ex1 st1]. simpl in *.
  destruct (IH (S i) ex1 st1 Hall)
    as (reports & new & Hres' & Hlen & Hids & Htotal' & Htr & Hev).
  exists (gr :: reports), (new1 ++ new).
  rewrite Hres', Hres, Htotal', Htotal, Htr, Htr1, <- !app_assoc. simpl.
  split_and!; [done | by rewrite Hlen | by constructor | done | done |].
  apply Forall_app. split; [|done].
  eapply Forall_impl; [done|]. by intros ev [_ ?].
Qed.

End resolution_selected.

(** X16.  Executing one group by its index: when a report is made, the
    run is about the group at that index alone.  The report counts one
    group in all, holds one group report for every entry of the plan
    that carries the id of that group, each under this id, and no entry
    is passed over with a warning. *)
Theorem selected_group_runs_alone
    (w : Resolution.world) (rp : Resolution.resolution_plan_dict) (group_idx : Z)
    (returned : bool) (report : Resolution.execution_results)
    (st : Resolution.state) :
  Resolution.execute_resolution_plan w (Some rp) (Some group_idx)
    = (returned, Some report, st) →
  ∃ group gid,
    (0 ≤ group_idx)%Z ∧
    get_or (Resolution.groups rp) [] !! Z.to_nat group_idx = Some group ∧
    Resolution.group_id group = Some gid ∧
    Resolution.total_groups report = 1 ∧
    length (Resolution.group_results report) =
      length (filter (λ p, get (Resolution.plan_group_id p) = gid)
                     (get_or (Resolution.resolution_plan rp) [])) ∧
    Forall (λ gr, Resolution.gr_group_id gr = gid)
           (Resolution.group_results report) ∧
    ∀ i g, Resolution.Warning i g ∉ Resolution.trace st.
Proof.
  unfold Resolution.execute_resolution_plan.
  destruct (get_or (Resolution.resolution_plan rp) []) as [|p ps] eqn:Hplans;
    [done|].
  destruct ((group_idx <? 0)%Z
            || (Z.of_nat (length (get_or (Resolution.groups rp) [])) <=? group_idx)%Z)
    eqn:Hrange; [done|].
  apply orb_false_iff in Hrange as [Hlow%Z.ltb_ge _].
  destruct (get_or (Resolution.groups rp) [] !! Z.to_nat group_idx)
    as [group|] eqn:Hgroup; [|done].
  destruct (Resolution.group_id group) as [gid|] eqn:Hgid; [|done].
  destruct (filter (λ p, get (Resolution.plan_group_id p) = gid) (p :: ps))
    as [|p1 selected] eqn:Hselected; [done|].
  assert (Forall (λ plan,
            Resolution.find_group (Resolution.make_group_lookup [group]) plan
              = Some group) (p1 :: selected)) as Hfound.
  { rewrite <- Hselected. apply Forall_forall.
    intros plan [Hplan _]%list_elem_of_filter.
    unfold Resolution.find_group, Resolution.make_group_lookup. simpl.
    rewrite Hgid. simpl. rewrite Hplan, lookup_insert_eq.
    unfold Resolution.group_truthy. by rewrite Hgid. }
  match goal with
  | |- context [Resolution.run_plans w ?lookup 0 ?plans ?ex0 Resolution.initial] =>
      destruct (run_plans_one_group w lookup group plans 0 ex0
                  Resolution.initial Hfound)
        as (reports & new & Hres & Hlen & Hids & Htotal & Htr & Hev);
      destruct (Resolution.run_plans w lookup 0 plans ex0 Resolution.initial)
        as [ex st']
  end.
  simpl in *. intros [= <- <- <-].
  exists group, gid. rewrite Hres, Htotal, Htr. simpl.
  split_and!; [done | done | done | done | by rewrite Hselected, Hlen | | ].
  - eapply Forall_impl; [done|]. intros gr ->. by rewrite Hgid.
  - intros i g Hin. eapply Forall_forall in Hev; [|done]. by destruct Hev.
Qed.

Lemma selected_group_runs_alone_witness :
  ∃ returned report st,
    Resolution.execute_resolution_plan Examples.approving
      (Some Examples.plan_with_orphan) (Some 0%Z) = (returned, Some report, st) ∧
    ∃ group gid,
      (0 ≤ 0)%Z ∧
      get_or (Resolution.groups Examples.plan_with_orphan) [] !! Z.to_nat 0
        = Some group ∧
      Resolution.group_id group = Some gid ∧
      Resolution.total_groups report = 1 ∧
      length (Resolution.group_results report) =
        length (filter (λ p, get (Resolution.plan_group_id p) = gid)
                  (get_or (Resolution.resolution_plan Examples.plan_with_orphan) [])) ∧
      Forall (λ gr, Resolution.gr_group_id gr = gid)
             (Resolution.group_results report) ∧
      ∀ i g, Resolution.Warning i g ∉ Resolution.trace st.
Proof.
  eexists _, _, _. split; [vm_compute; reflexivity|].
  eapply (selected_group_runs_alone Examples.approving
            Examples.plan_with_orphan 0%Z).
  vm_compute. reflexivity.
Defined.

(** ** The parallel pipeline *)



Ltac run_parallel :=
  unfold Parallel.process_document_to_graph, Parallel.try_body, Adaptive.start;
  unfold mbind, Parallel.M_bind, Adaptive.bind, Adaptive.lift, Adaptive.print,
    Adaptive.with_io, mret, Parallel.M_ret, Adaptive.ret;
  cbn -[Writer.build_graph Merger.merge_extracted_data Writer.graph_query
        Writer.queries Parallel.extract_all].



(** X18.  The parallel script leaves the graph alone when it has nothing
    to write: when the connection fails, when loading, splitting or
    saving raises, or when no chunk yields a result, it sends no query,
    so that the existing graph is not cleared either. *)
Theorem parallel_script_without_results_sends_nothing
    (env : Adaptive.environment) (args : Adaptive.arguments) :
  (Adaptive.init_neo4j_graph env ≠ Ok () ∨
   ∀ data rest, Parallel.extract_all env args ≠ Ok (data :: rest)) →
  Writer.queries (Writer.trace (Parallel.process_document_to_graph env args)) = [].
Proof.
  intros Hnothing. run_parallel.
  destruct (Adaptive.init_neo4j_graph env) as [[]|e]; [|done].
  destruct Hnothing as [?|Hnone]; [done|].
  cbn -[Writer.build_graph Merger.merge_extracted_data Writer.graph_query
        Writer.queries Parallel.extract_all].
  destruct (Parallel.extract_all env args) as [[|data rest]|e]; [done| |done].
  by destruct (Hnone data rest).
Qed.

Lemma parallel_script_without_results_sends_nothing_witness :
  Writer.queries
    (Writer.trace
       (Parallel.process_document_to_graph ExamplesMore.barren_env
          Examples.default_args)) = [].
Proof.
  apply parallel_script_without_results_sends_nothing.
  right. intros data rest. vm_compute. discriminate.
Defined.

(** ** Processing one chunk *)

Lemma try_once_Some (extraction : result Extraction.json) (data : Extraction.json) :
  Chunk.try_once extraction = Some data →
  extraction = Ok data ∧ Chunk.found_something data = Ok true ∧
  Extraction.is_dict data = true ∧ Chunk.json_truthy data = true.
Proof.
  unfold Chunk.try_once. destruct extraction as [d|e]; [|done].
  destruct (Chunk.found_something d) as [[]|] eqn:Hfound; try done.
  intros [= <-]. split_and!; [done..| |].
  - unfold Chunk.found_something, Chunk.count, Extraction.json_get in Hfound.
    by destruct d.
  - unfold Chunk.found_something, Chunk.count, Extraction.json_get in Hfound.
    destruct d as [| | | | |[|kv o]]; try done.
Qed.

Lemma retries_spec (extraction : nat → result Extraction.json)
    (retry_count remaining : nat) :
  match Chunk.retries extraction retry_count remaining with
  | Some data =>
      ∃ k, retry_count ≤ k < retry_count + remaining ∧
           Chunk.try_once (extraction k) = Some data ∧
           ∀ k', retry_count ≤ k' < k → Chunk.try_once (extraction k') = None
  | None =>
      ∀ k, retry_count ≤ k < retry_count + remaining →
           Chunk.try_once (extraction k) = None
  end.
Proof.
  revert retry_count. induction remaining as [|remaining IH]; intros retry_count.
  { simpl. intros k ?. lia. }
  simpl. destruct (Chunk.try_once (extraction retry_count)) as [data|] eqn:Hfirst.
  - exists retry_count. split; [lia|]. split; [done|]. intros k' ?. lia.
  - specialize (IH (S retry_count)).
    destruct (Chunk.retries extraction (S retry_count) remaining) as [data|].
    + destruct IH as (k & Hk & Hfound & Hbefore).
      exists k. split; [lia|]. split; [done|].
      intros k' Hk'. destruct (decide (k' = retry_count)) as [->|]; [done|].
      apply Hbefore. lia.
    + intros k Hk. destruct (decide (k = retry_count)) as [->|]; [done|].
      apply IH. lia.
Qed.

(** X19.  [process_chunk] of the adaptive pipeline makes at most
    [max_retries + 1] passes.  What it returns is the data of the first
    pass in which the extraction returned a dictionary with at least one
    entity or relationship; this data is a non-empty dictionary, so that
    the test [if result] of the callers never fails on it.  It returns
    [None] exactly when every pass finds nothing or is stopped by an
    exception. *)
Theorem process_chunk_returns_the_first_find
    (extraction : nat → result Extraction.json) (max_retries : nat) :
  match Chunk.process_chunk extraction max_retries with
  | Some data =>
      ∃ k, (k ≤ max_retries)%nat ∧
           extraction k = Ok data ∧
           Chunk.found_something data = Ok true ∧
           Extraction.is_dict data = true ∧
           Chunk.json_truthy data = true ∧
           ∀ k', (k' < k)%nat → Chunk.try_once (extraction k') = None
  | None => ∀ k, (k ≤ max_retries)%nat → Chunk.try_once (extraction k) = None
  end.
Proof.
  unfold Chunk.process_chunk.
  pose proof (retries_spec extraction 0 (S max_retries)) as Hspec.
  destruct (Chunk.retries extraction 0 (S max_retries)) as [data|].
  - destruct Hspec as (k & Hk & Hfound & Hbefore).
    apply try_once_Some in Hfound as (Hok & Hsome & Hdict & Htruthy).
    exists k. split_and!; [lia | done..|]. intros k' ?. apply Hbefore. lia.
  - intros k ?. apply Hspec. lia.
Qed.

(** X20.  [get_optimal_chunk_settings] always returns a chunk size and
    an overlap that the splitter accepts, the overlap being positive and
    at most an eighth of the size, also when the size of the file cannot
    be read; and a larger file never gets smaller settings. *)
Theorem chunk_settings_are_valid_and_monotone (getsize : result Z) :
  let '(chunk_size, chunk_overlap) := Chunk.get_optimal_chunk_settings getsize in
  (0 < chunk_overlap ∧ 8 * chunk_overlap ≤ chunk_size)%Z ∧
  ∀ smaller,
    match getsize with
    | Ok file_size =>
        (smaller ≤ file_size)%Z →
        ((Chunk.get_optimal_chunk_settings (Ok smaller)).1 ≤ chunk_size ∧
         (Chunk.get_optimal_chunk_settings (Ok smaller)).2 ≤ chunk_overlap)%Z
    | Raise _ => True
    end.
Proof.
  unfold Chunk.get_optimal_chunk_settings. destruct getsize as [file_size|e].
  - repeat case_match; simplify_eq; (split; [lia|]); intros smaller Hle;
      repeat case_match; simplify_eq/=; lia.
  - split; [lia|done].
Qed.

(** X21.  The two extraction calls on the same first answer of the LLM:
    whenever the extraction of the parallel pipeline gets its result by
    parsing the answer, and the entities of the result can be counted,
    the extraction of the adaptive pipeline returns the same result (for
    at least one attempt). *)
Theorem adaptive_extraction_agrees_with_single_attempt
    (json_loads : string → result Extraction.json)
    (invoke : string → nat → result string)
    (text_chunk result_text : string) (data : Extraction.json)
    (n : nat) (max_attempts : nat) :
  (0 < max_attempts)%nat →
  invoke text_chunk 0 = Ok result_text →
  Extraction.has_json result_text = true →
  json_loads (Extraction.json_str result_text) = Ok data →
  Extraction.found_entities data = Ok n →
  Chunk.extract_once json_loads (λ text, invoke text 0) text_chunk = data ∧
  Extraction.extract_entities_relationships json_loads None invoke
    text_chunk max_attempts = Ok data.
Proof.
  intros Hmax Hinvoke Hjson Hloads Hcount. split.
  - unfold Chunk.extract_once. by rewrite Hinvoke, Hjson, Hloads.
  - unfold Extraction.extract_entities_relationships.
    destruct max_attempts as [|m]; [lia|]. simpl.
    unfold Extraction.attempt_step, Extraction.attempt_body,
      Extraction.parse_and_return.
    by rewrite Hinvoke, Hjson, Hloads, Hcount.
Qed.

Lemma adaptive_extraction_agrees_with_single_attempt_witness :
  Chunk.extract_once Extraction.tiny_loads (λ _, Ok "Here is the JSON: {} as requested")
    "Elias and Clara rehearsed a scene" = Extraction.JObj [] ∧
  Extraction.extract_entities_relationships Extraction.tiny_loads None
    (λ _ _, Ok "Here is the JSON: {} as requested")
    "Elias and Clara rehearsed a scene" 2 = Ok (Extraction.JObj []).
Proof.
  apply (adaptive_extraction_agrees_with_single_attempt Extraction.tiny_loads
           (λ _ _, Ok "Here is the JSON: {} as requested")
           "Elias and Clara rehearsed a scene"
           "Here is the JSON: {} as requested" (Extraction.JObj []) 0 2).
  - lia.
  - reflexivity.
  - reflexivity.
  - reflexivity.
  - reflexivity.
Defined.

(** ** [initialize_llm] *)

Lemma unique_models_from (models unique : list string) :
  NoDup unique →
  let result :=
    foldl (λ unique model,
             if bool_decide (model ∈ unique) then unique else unique ++ [model])
          unique models in
  NoDup result ∧ unique `prefix_of` result ∧
  ∀ m, m ∈ result ↔ m ∈ unique ∨ m ∈ models.
Proof.
  revert unique. induction models as [|model models IH]; intros unique Hnd; simpl.
  { split_and!; [done..|]. intros m. rewrite elem_of_nil. naive_solver. }
  case_bool_decide as Hin.
  - destruct (IH unique Hnd) as (Hnd' & Hpre & Hel). split_and!; [done..|].
    intros m. rewrite Hel, elem_of_cons. naive_solver.
  - destruct (IH (unique ++ [model])) as (Hnd' & Hpre & Hel).
    { apply NoDup_app. split_and!; [done| |apply NoDup_singleton].
      intros x Hx ->%list_elem_of_singleton. done. }
    split_and!; [done| |].
    + etrans; [|done]. by apply prefix_app_r.
    + intros m. rewrite Hel, elem_of_app, list_elem_of_singleton, elem_of_cons.
      naive_solver.
Qed.

Lemma try_models_spec (connect : string → result ()) (models attempted : list string)
    (last_exception : option exception) :
  ∃ tried,
    (LLM.try_models connect models attempted last_exception).2 = attempted ++ tried ∧
    tried `prefix_of` models ∧
    match (LLM.try_models connect models attempted last_exception).1 with
    | Ok model =>
        ∃ failed, tried = failed ++ [model] ∧ connect model = Ok () ∧
                  Forall (λ m, WriterMore.raises (connect m) = true) failed
    | Raise _ =>
        tried = models ∧ Forall (λ m, WriterMore.raises (connect m) = true) models
    end.
Proof.
  revert attempted last_exception.
  induction models as [|model models IH]; intros attempted last_exception; simpl.
  { exists []. by rewrite app_nil_r. }
  destruct (connect model) as [[]|e] eqn:Hconnect; simpl.
  - exists [model]. split_and!; [done | by apply prefix_cons, prefix_nil |].
    exists []. by split_and!.
  - destruct (IH (attempted ++ [model]) (Some e)) as (tried & Hatt & Hpre & Hres).
    exists (model :: tried). rewrite Hatt, <- app_assoc. split_and!; [done| |].
    + by apply prefix_cons.
    + destruct (LLM.try_models connect models (attempted ++ [model]) (Some e)).1.
      * destruct Hres as (failed & -> & Hok & Hfailed).
        exists (model :: failed). split_and!; [done..|].
        constructor; [by rewrite Hconnect | done].
      * destruct Hres as [-> Hfailed]. split; [done|].
        constructor; [by rewrite Hconnect | done].
Qed.

(** X22.  [initialize_llm] tries the model asked for first and then the
    four fixed models, none of them twice, and stops at the first one
    that answers: the model it returns answered and every model tried
    before it failed.  It raises exactly when every model of the list
    fails, each having been tried once. *)
Theorem initialize_llm_returns_first_working_model
    (connect : string → result ()) (model_name : string) :
  let '(outcome, attempted) := LLM.initialize_llm connect model_name in
  NoDup attempted ∧
  head attempted = Some model_name ∧
  (∀ m, m ∈ attempted → m ∈ LLM.models_to_try model_name) ∧
  match outcome with
  | Ok model =>
      last attempted = Some model ∧ connect model = Ok () ∧
      ∀ m, m ∈ attempted → m ≠ model → WriterMore.raises (connect m) = true
  | Raise _ =>
      (∀ m, m ∈ attempted ↔ m ∈ LLM.models_to_try model_name) ∧
      ∀ m, m ∈ LLM.models_to_try model_name →
           WriterMore.raises (connect m) = true
  end.
Proof.
  unfold LLM.initialize_llm.
  destruct (unique_models_from (LLM.models_to_try model_name) [])
    as (Hnd & _ & Hel); [constructor|].
  fold (LLM.unique_models (LLM.models_to_try model_name)) in Hnd, Hel.
  assert (head (LLM.unique_models (LLM.models_to_try model_name)) = Some model_name)
    as Hhead.
  { destruct (unique_models_from
                ["gemma3:12b"; "gemma3:4b"; "llama3.1:latest"; "deepseek-r1:8b"]
                [model_name]) as (_ & [rest Hpre] & _); [apply NoDup_singleton|].
    unfold LLM.unique_models, LLM.models_to_try. simpl in *. by rewrite Hpre. }
  destruct (try_models_spec connect
              (LLM.unique_models (LLM.models_to_try model_name)) [] None)
    as (tried & Hatt & Hpre & Hres).
  destruct (LLM.try_models connect _ [] None) as [outcome attempted].
  simpl in *. subst attempted.
  assert (NoDup tried) as Hnd_tried.
  { destruct Hpre as [rest Hpre]. rewrite Hpre in Hnd.
    by apply NoDup_app in Hnd as (? & _). }
  assert (∀ m, m ∈ tried → m ∈ LLM.models_to_try model_name) as Hsub.
  { intros m Hm. destruct Hpre as [rest Hpre].
    assert (m ∈ LLM.unique_models (LLM.models_to_try model_name)) as Hin
      by (rewrite Hpre; apply elem_of_app; by left).
    apply Hel in Hin as [Hin|Hin]; [by apply elem_of_nil in Hin | done]. }
  destruct outcome as [model|e].
  - destruct Hres as (failed & -> & Hok & Hfailed).
    split_and!; [done| |done| | done |].
    + destruct Hpre as [rest Hpre]. rewrite Hpre in Hhead.
      by destruct failed.
    + by rewrite last_snoc.
    + intros m [Hm|Hm%list_elem_of_singleton]%elem_of_app Hne; [|done].
      by eapply Forall_forall in Hfailed.
  - destruct Hres as [-> Hfailed]. split_and!; [done..| |].
    + intros m. rewrite Hel, elem_of_nil. naive_solver.
    + intros m Hm. eapply Forall_forall in Hfailed; [done|].
      apply Hel. by right.
Qed.

(** ** The groups handed to the LLM for a resolution plan *)

Lemma ascii_compare_N (a b : ascii) :
  Ascii.compare a b = N.compare (N_of_ascii a) (N_of_ascii b).
Proof. reflexivity. Qed.

Lemma string_compare_trans (a b c : string) (o : comparison) :
  String.compare a b = o → String.compare b c = o → o ≠ Eq →
  String.compare a c = o.
Proof.
  revert b c. induction a as [|x a IH]; intros [|y b] [|z c]; simpl; try congruence.
  rewrite !ascii_compare_N.
  destruct (N.compare_spec (N_of_ascii x) (N_of_ascii y)) as [Hxy|Hxy|Hxy];
    destruct (N.compare_spec (N_of_ascii y) (N_of_ascii z)) as [Hyz|Hyz|Hyz];
    destruct (N.compare_spec (N_of_ascii x) (N_of_ascii z)) as [Hxz|Hxz|Hxz];
    try congruence; try lia; eauto.
Qed.

Lemma string_compare_eq_l (a b c : string) :
  String.compare a b = Eq → String.compare a c = String.compare b c.
Proof. by intros ->%String.compare_eq_iff. Qed.

#[local] Instance string_le_total : Total Plan.string_le.
Proof. intros a b. apply String.leb_total. Qed.

#[local] Instance string_le_antisym : AntiSymm (=) Plan.string_le.
Proof. intros a b. apply String.leb_antisym. Qed.

#[local] Instance string_le_trans : Transitive Plan.string_le.
Proof.
  intros a b c. unfold Plan.string_le, String.leb.
  destruct (String.compare a b) eqn:Hab; [| |done].
  - by rewrite (string_compare_eq_l a b c Hab).
  - destruct (String.compare b c) eqn:Hbc; [| |done]; intros _ _.
    + apply String.compare_eq_iff in Hbc as <-. by rewrite Hab.
    + by rewrite (string_compare_trans a b c Lt).
Qed.

(** Two lists have the same sorted tuple exactly when one is a
    rearrangement of the other. *)
Lemma items_eq_iff (g1 g2 : Identify.found_group) :
  Plan.items g1 = Plan.items g2 ↔
  Identify.duplicate_types g1 ≡ₚ Identify.duplicate_types g2.
Proof.
  unfold Plan.items. split.
  - intros Heq.
    etrans; [symmetry; apply (merge_sort_Permutation Plan.string_le)|].
    rewrite Heq. apply (merge_sort_Permutation Plan.string_le).
  - intros Hperm. apply (Sorted_unique Plan.string_le).
    + apply (Sorted_merge_sort Plan.string_le).
    + apply (Sorted_merge_sort Plan.string_le).
    + by rewrite !merge_sort_Permutation.
Qed.

Lemma items_length (g : Identify.found_group) :
  length (Plan.items g) = length (Identify.duplicate_types g).
Proof.
  unfold Plan.items.
  by rewrite (merge_sort_Permutation Plan.string_le (Identify.duplicate_types g)).
Qed.

Lemma unique_groups_spec (duplicate_groups : list Identify.found_group) :
  Plan.unique_groups duplicate_groups =
    Merger.first_occurrences Plan.items ∅
      (filter (λ g, 1 < length (Identify.duplicate_types g)) duplicate_groups).
Proof.
  unfold Plan.unique_groups.
  assert (∀ unique seen,
    foldl Plan.keep_unseen (unique, seen) duplicate_groups =
      (unique ++ Merger.first_occurrences Plan.items seen
                   (filter (λ g, 1 < length (Identify.duplicate_types g))
                           duplicate_groups),
       seen ∪ list_to_set
                (Plan.items <$> filter (λ g, 1 < length (Identify.duplicate_types g))
                                       duplicate_groups))) as Hloop.
  { induction duplicate_groups as [|g gs IH]; intros unique seen; simpl.
    { f_equal; [by rewrite app_nil_r | set_solver]. }
    rewrite filter_cons. pose proof (items_length g) as Hlen.
    destruct (decide (1 < length (Identify.duplicate_types g))) as [Hbig|Hsmall].
    - simpl. rewrite (proj2 (Nat.ltb_lt _ _)) by lia.
      rewrite bool_decide_eq_true_2 by (destruct (Plan.items g); simpl in *; [lia|done]).
      case_decide as Hseen.
      + rewrite bool_decide_eq_false_2 by (by intros ?). simpl.
        rewrite IH. f_equal. set_solver.
      + rewrite bool_decide_eq_true_2 by done. simpl.
        rewrite IH, <- app_assoc. f_equal. set_solver.
    - rewrite (proj2 (Nat.ltb_ge _ _)) by lia. rewrite andb_false_r. apply IH. }
  by rewrite Hloop.
Qed.

(** X23.  The groups that [create_resolution_plan] keeps for the LLM
    when it resolves entity types: they are groups of the list given, in
    their order, each with at least two types; no two of them have the
    same types up to order; and every given group with at least two
    types has the same types, up to order, as a kept one.  So of the two
    groups that the prefilter makes for a singular and its plural, the
    second is dropped here. *)
Theorem plan_groups_are_unique_up_to_order
    (duplicate_groups : list Identify.found_group) :
  let unique_groups := Plan.unique_groups duplicate_groups in
  unique_groups `sublist_of` duplicate_groups ∧
  Forall (λ g, 1 < length (Identify.duplicate_types g)) unique_groups ∧
  (∀ i j g1 g2,
     unique_groups !! i = Some g1 → unique_groups !! j = Some g2 →
     Identify.duplicate_types g1 ≡ₚ Identify.duplicate_types g2 → i = j) ∧
  (∀ g, g ∈ duplicate_groups → 1 < length (Identify.duplicate_types g) →
     ∃ kept, kept ∈ unique_groups ∧
             Identify.duplicate_types kept ≡ₚ Identify.duplicate_types g).
Proof.
  simpl. rewrite unique_groups_spec.
  set (big := filter (λ g, 1 < length (Identify.duplicate_types g)) duplicate_groups).
  split_and!.
  - etrans; [apply first_occurrences_sublist | apply sublist_filter].
  - apply Forall_forall. intros g Hg.
    assert (g ∈ big) as Hbig
      by (eapply elem_of_sublist; [done | apply first_occurrences_sublist]).
    by apply list_elem_of_filter in Hbig as [? _].
  - intros i j g1 g2 Hi Hj Hperm%items_eq_iff.
    destruct (first_occurrences_keys_nodup Plan.items ∅ big) as [Hnd _].
    eapply NoDup_lookup; [exact Hnd|..].
    + by rewrite list_lookup_fmap, Hi.
    + rewrite list_lookup_fmap, Hj. simpl. by rewrite Hperm.
  - intros g Hg Hlen.
    assert (g ∈ big) as Hbig by (by apply list_elem_of_filter).
    destruct (first_occurrences_exactly_once Plan.items big g Hbig)
      as (i & first & Hfind & Hflt).
    exists first.
    assert (first ∈ filter (λ x, Plan.items x = Plan.items g)
                       (Merger.first_occurrences Plan.items ∅ big)) as Hin
      by (rewrite Hflt; left).
    apply list_elem_of_filter in Hin as [Hkey Hin]. split; [done|].
    by apply items_eq_iff.
Qed.

(** ** The interactive workflow and the command line of the detection script *)

Lemma selected_indices_numbers (numbers : list Z) :
  Workflow.selected_indices (Some <$> numbers) = Some ((λ n, n - 1)%Z <$> numbers).
Proof.
  apply mapM_Some. induction numbers as [|n numbers IH]; csimpl; by constructor.
Qed.

Lemma selected_indices_None (pieces : list (option Z)) :
  None ∈ pieces → Workflow.selected_indices pieces = None.
Proof.
  intros Hin. apply mapM_None, Exists_exists. by exists None.
Qed.

(** X24.  The groups the operator selects by their numbers in the
    interactive workflow: every selected group is one of the groups
    found; the numbers outside [1 .. len] are passed over and a number
    given twice selects its group twice; and when one piece of the
    answer is not a number, all groups found are selected. *)
Theorem group_selection_falls_back_to_all {G} (duplicate_groups : list G)
    (pieces : list (option Z)) :
  (∀ g, g ∈ Workflow.select_groups duplicate_groups pieces → g ∈ duplicate_groups) ∧
  (None ∈ pieces → Workflow.select_groups duplicate_groups pieces = duplicate_groups) ∧
  (∀ numbers, pieces = Some <$> numbers →
     Workflow.select_groups duplicate_groups pieces =
       omap (λ n : Z,
               if bool_decide (1 ≤ n ≤ Z.of_nat (length duplicate_groups))%Z
               then duplicate_groups !! Z.to_nat (n - 1)
               else None) numbers).
Proof.
  split_and!.
  - unfold Workflow.select_groups.
    destruct (Workflow.selected_indices pieces) as [indices|]; [|done].
    intros g (idx & _ & Hidx)%list_elem_of_omap.
    destruct (_ && _); [|done]. by eapply list_elem_of_lookup_2.
  - intros Hin. unfold Workflow.select_groups.
    by rewrite selected_indices_None.
  - intros numbers ->. unfold Workflow.select_groups.
    rewrite selected_indices_numbers.
    induction numbers as [|n numbers IH]; [done|]. csimpl. rewrite IH.
    destruct (decide (1 ≤ n ≤ Z.of_nat (length duplicate_groups))%Z) as [Hn|Hn].
    + rewrite bool_decide_eq_true_2 by done.
      rewrite (proj2 (Z.leb_le _ _)), (proj2 (Z.ltb_lt _ _)) by lia. done.
    + rewrite bool_decide_eq_false_2 by done.
      destruct (0 <=? n - 1)%Z eqn:H0; [|done].
      destruct (n - 1 <? Z.of_nat (length duplicate_groups))%Z eqn:H1; [|done].
      apply Z.leb_le in H0. apply Z.ltb_lt in H1. lia.
Qed.

(** X25.  Starting a saved plan with [--load-plan]: the plan is executed
    exactly when the run is no dry run, the execution was asked for by
    [--execute] or by the answer [y], and, if a backup was tried and
    failed, the operator answered [y] to go on.  A backup is made only
    on [--backup] or on the answer [y], also in a dry run.  With
    [--execute] and [--backup] and a backup that succeeds nothing is
    asked. *)
Theorem loaded_plan_is_executed_only_when_approved
    (args : Workflow.load_plan_args) (operator : nat → string)
    (backup_success : bool) :
  let steps := Workflow.load_plan args operator backup_success in
  (Workflow.Execute ∈ steps ↔
     Workflow.dry_run args = false ∧
     (Workflow.execute args = true ∨ Workflow.approved Workflow.ExecutePlan steps) ∧
     (Workflow.Backup false ∈ steps →
      Workflow.approved Workflow.ProceedAnyway steps)) ∧
  (∀ success, Workflow.Backup success ∈ steps →
     success = backup_success ∧
     (Workflow.backup args = true ∨
      Workflow.approved Workflow.CreateBackup steps)) ∧
  (Workflow.execute args = true → Workflow.backup args = true →
   backup_success = true →
   steps = Workflow.Backup true
             :: (if Workflow.dry_run args then [] else [Workflow.Execute])).
Proof.
  unfold Workflow.load_plan, Workflow.approved.
  destruct args as [[] [] []], backup_success; simpl;
    repeat (case_match; simplify_eq/=).
  all: repeat match goal with
       | H : negb _ = true |- _ => apply negb_true_iff in H
       | H : negb _ = false |- _ => apply negb_false_iff in H
       end.
  all: split_and!; [split| |done || (intros; congruence)].
  all: repeat setoid_rewrite elem_of_cons; repeat setoid_rewrite elem_of_nil.
  all: try naive_solver congruence.
  all: naive_solver.
Qed.

Lemma rfind_from_last_index (c : ascii) (s : string) (i last : Z) :
  PyStr.rfind_from c s i last =
    match Workflow.last_index c s with
    | Some k => (i + Z.of_nat k)%Z
    | None => last
    end.
Proof.
  revert i last. induction s as [|a s IH]; intros i last;
    cbn [PyStr.rfind_from Workflow.last_index]; [done|].
  rewrite IH. destruct (Workflow.last_index c s) as [k|]; [lia|].
  destruct (Ascii.eqb a c); [lia | done].
Qed.

Lemma last_index_lt (c : ascii) (s : string) (k : nat) :
  Workflow.last_index c s = Some k → k < String.length s.
Proof.
  revert k. induction s as [|a s IH]; intros k; simpl; [done|].
  destruct (Workflow.last_index c s) as [k'|].
  - intros [= <-]. specialize (IH k' eq_refl). lia.
  - destruct (Ascii.eqb a c); [|done]. intros [= <-]. lia.
Qed.

Lemma last_index_None_find (c : ascii) (s : string) (i : Z) :
  (0 ≤ i)%Z →
  Workflow.last_index c s = None ↔ PyStr.find_from c s i = (-1)%Z.
Proof.
  revert i. induction s as [|a s IH]; intros i Hi; simpl; [done|].
  destruct (Ascii.eqb a c) eqn:Hac.
  - destruct (Workflow.last_index c s); split; (done || lia).
  - rewrite <- (IH (i + 1)%Z) by lia. by destruct (Workflow.last_index c s).
Qed.

Lemma substring_full (s : string) : substring 0 (String.length s) s = s.
Proof. induction s as [|a s IH]; simpl; [done|]. by rewrite IH. Qed.

Lemma substring_after_last (c : ascii) (s : string) (k : nat) :
  Workflow.last_index c s = Some k →
  Workflow.last_index c (substring (S k) (String.length s - S k) s) = None.
Proof.
  revert k. induction s as [|a s IH]; intros k; simpl; [done|].
  destruct (Workflow.last_index c s) as [k'|] eqn:Hlast.
  - intros [= <-]. by apply IH.
  - destruct (Ascii.eqb a c); [|done]. intros [= <-].
    by rewrite Nat.sub_0_r, substring_full.
Qed.

Lemma basename_spec (p : string) :
  Workflow.basename p =
    match Workflow.last_index "/" p with
    | Some k => substring (S k) (String.length p - S k) p
    | None => p
    end.
Proof.
  unfold Workflow.basename, PyStr.rfind, PyStr.slice.
  rewrite rfind_from_last_index.
  destruct (Workflow.last_index "/" p) as [k|] eqn:Hlast.
  - apply last_index_lt in Hlast.
    rewrite (proj2 (Z.ltb_ge _ _)) by lia. rewrite (proj2 (Z.ltb_ge _ _)) by lia.
    rewrite Z.min_id, Z.min_l by lia. f_equal; lia.
  - simpl. rewrite (proj2 (Z.ltb_ge _ _)) by lia.
    rewrite Z.min_id. replace (Z.min 0 _) with 0%Z by lia.
    rewrite Z.sub_0_r, Nat2Z.id. apply substring_full.
Qed.

(** X26.  The directory that [save_resolution_plan] writes to is never
    empty and holds no [/], whatever directory is asked for.  A name
    without [/] is used as it is, so that [..] is: the plan is then
    written to the parent of the working directory. *)
Theorem saved_plan_directory_has_no_slash (output_dir : string) :
  let directory := Workflow.output_dir output_dir in
  directory ≠ "" ∧
  PyStr.find "/" directory = (-1)%Z ∧
  (PyStr.find "/" output_dir = (-1)%Z → output_dir ≠ "" →
   directory = output_dir) ∧
  Workflow.output_dir ".." = "..".
Proof.
  simpl. unfold Workflow.output_dir.
  assert (PyStr.find "/" (Workflow.basename output_dir) = (-1)%Z) as Hnone.
  { rewrite basename_spec. unfold PyStr.find.
    destruct (Workflow.last_index "/" output_dir) as [k|] eqn:Hlast.
    - by apply last_index_None_find, substring_after_last.
    - by apply last_index_None_find. }
  split_and!.
  - destruct (String.eqb_spec (Workflow.basename output_dir) ""); done.
  - destruct (String.eqb_spec (Workflow.basename output_dir) ""); done.
  - intros Hfind Hne. rewrite basename_spec.
    apply (last_index_None_find "/" output_dir 0) in Hfind; [|done].
    rewrite Hfind.
    by destruct (String.eqb_spec output_dir "").
  - reflexivity.
Qed.

Section resolution_order.
Import Resolution.
Context (w : world).

Lemma run_pre_validation_passed i steps j gr st :
  (run_pre_validation w i j steps gr st).1.1 = true →
  ∃ new results,
    trace (run_pre_validation w i j steps gr st).2 = trace st ++ new ∧
    pre_validation_results (run_pre_validation w i j steps gr st).1.2
      = pre_validation_results gr ++ results ∧
    length results = length steps ∧
    Forall (λ r, v_success r = true ∧ v_user_approved r = Some true) results ∧
    ∀ k validation,
      steps !! k = Some validation →
      Query i PreValidation (j + k) (get_or (query validation) "") ∈ new ∧
      ∃ answer, Input i PreValidation (j + k) answer ∈ new ∧
                PyStr.lower answer = "y".
Proof.
  revert j gr st. induction steps as [|validation steps IH]; intros j gr st.
  { intros _. exists [], []. simpl. rewrite !app_nil_r. split_and!; [done..|].
    intros k v Hk. by rewrite lookup_nil in Hk. }
  simpl.
  pose proof (execute_cypher_query_trace w i PreValidation j
                (get_or (query validation) "") st) as Hq.
  assert (prompts (execute_cypher_query w i PreValidation j
                     (get_or (query validation) "") st).2 = prompts st) as Hprompts
    by (unfold execute_cypher_query; by destruct (graph w _ _)).
  destruct (execute_cypher_query w i PreValidation j
              (get_or (query validation) "") st) as [[rows success] st1].
  simpl in Hq, Hprompts. destruct success; simpl; [|done].
  destruct (String.eqb (PyStr.lower (operator w (prompts st1))) "y")
    eqn:Hanswer; simpl; [|done].
  apply String.eqb_eq in Hanswer. intros Hpassed.
  match goal with
  | |- context [run_pre_validation w i (S j) steps ?g ?s] =>
      destruct (IH (S j) g s Hpassed) as (new & results & Htr & Hres & Hlen & Hok & Hall)
  end.
  simpl in Htr, Hres.
  exists (Query i PreValidation j (get_or (query validation) "")
            :: Input i PreValidation j (operator w (prompts st1)) :: new),
         ({| v_step := S j; v_success := true; v_result_count := length rows;
             v_user_approved := Some true |} :: results).
  split_and!.
  - by rewrite Htr, Hq, <- !app_assoc.
  - by rewrite Hres, <- app_assoc.
  - simpl. by rewrite Hlen.
  - by constructor.
  - intros [|k] v Hk; simpl in Hk; simplify_eq.
    + rewrite Nat.add_0_r. split; [left|].
      exists (operator w (prompts st1)). split; [right; left | done].
    + destruct (Hall k v Hk) as (Hquery & a & Hin & Ha).
      replace (j + S k) with (S j + k) by lia. split; [by do 2 right|].
      exists a. split; [by do 2 right | done].
Qed.

Lemma run_merge_operations_pre_results i steps j gr st :
  pre_validation_results (run_merge_operations w i j steps gr st).1.2
    = pre_validation_results gr.
Proof.
  revert j gr st. induction steps as [|operation steps IH]; intros j gr st; [done|].
  simpl. unfold execute_cypher_query, confirm.
  destruct (get_or (requires_confirmation operation) true); simpl.
  - destruct (String.eqb (PyStr.lower (operator w (prompts st))) "y"); simpl;
      [|done].
    destruct (graph w _ (get_or (query operation) "")); simpl; [|done].
    by rewrite IH.
  - destruct (graph w _ (get_or (query operation) "")); simpl; [|done].
    by rewrite IH.
Qed.

Lemma run_post_validation_pre_results i steps j gr st :
  pre_validation_results (run_post_validation w i j steps gr st).1.2
    = pre_validation_results gr.
Proof.
  revert j gr st. induction steps as [|validation steps IH]; intros j gr st; [done|].
  simpl. unfold execute_cypher_query.
  destruct (graph w (queries st) (get_or (query validation) "")); simpl; [|done].
  destruct (String.eqb (PyStr.lower (operator w (prompts st))) "y"); simpl;
    [|done].
  by rewrite IH.
Qed.

End resolution_order.

(** X27.  A merge operation of a plan entry is sent to the graph only
    when every pre-merge validation of the entry has gone through: each
    of their queries has been sent and answered with [y], and the report
    of the group holds one pre-validation result per validation, each a
    success that the operator approved. *)
Theorem merge_only_after_every_validation_passed
    (w : Resolution.world) (i : nat) (plan : Resolution.plan_dict)
    (group : Resolution.group_dict) (ex : Resolution.execution_results)
    (st : Resolution.state) (j : nat) (q : string) :
  let run := Resolution.run_group w i plan group ex st in
  let validations := get_or (Resolution.pre_merge_validation plan) [] in
  Resolution.Query i Resolution.MergeOperation j q ∈ Resolution.added st run.2 →
  (∀ k validation,
     validations !! k = Some validation →
     Resolution.Query i Resolution.PreValidation k
       (get_or (Resolution.query validation) "") ∈ Resolution.added st run.2 ∧
     ∃ answer,
       Resolution.Input i Resolution.PreValidation k answer
         ∈ Resolution.added st run.2 ∧
       PyStr.lower answer = "y") ∧
  ∃ gr,
    Resolution.group_results run.1 = Resolution.group_results ex ++ [gr] ∧
    length (Resolution.pre_validation_results gr) = length validations ∧
    Forall (λ r, Resolution.v_success r = true ∧
                 Resolution.v_user_approved r = Some true)
           (Resolution.pre_validation_results gr).
Proof.
  simpl. unfold Resolution.run_group.
  match goal with
  | |- context [Resolution.run_pre_validation w i 0 ?steps ?g st] =>
      destruct (run_pre_validation_spec w i steps 0 g st)
        as (new1 & Htr1 & Hall1 & _);
      pose proof (run_pre_validation_passed w i steps 0 g st) as Hpassed;
      destruct (Resolution.run_pre_validation w i 0 steps g st)
        as [[passed gr1] st1]
  end.
  simpl in Htr1, Hpassed. destruct passed; simpl.
  2:{ rewrite (added_app st st1 new1 Htr1). intros Hin.
      eapply Forall_forall in Hall1 as [_ Hstage]; [|done]. done. }
  destruct (Hpassed eq_refl) as (new & results & Htr & Hres & Hlen & Hok & Hsent).
  simpl in Hres. rewrite Htr1 in Htr. apply app_inv_head in Htr as <-.
  match goal with
  | |- context [Resolution.run_merge_operations w i 0 ?steps gr1 st1] =>
      destruct (run_merge_operations_spec w i steps 0 gr1 st1)
        as (new2 & Htr2 & _);
      pose proof (run_merge_operations_pre_results w i steps 0 gr1 st1) as Hpre2;
      destruct (Resolution.run_merge_operations w i 0 steps gr1 st1)
        as [[merged gr2] st2]
  end.
  simpl in Htr2, Hpre2.
  assert (∀ tr,
    (∀ k validation,
       get_or (Resolution.pre_merge_validation plan) [] !! k = Some validation →
       Resolution.Query i Resolution.PreValidation k
         (get_or (Resolution.query validation) "") ∈ new1 ++ tr ∧
       ∃ answer,
         Resolution.Input i Resolution.PreValidation k answer ∈ new1 ++ tr ∧
         PyStr.lower answer = "y")) as Hfirst.
  { intros tr k v Hk. destruct (Hsent k v Hk) as (Hquery & a & Hin & Ha).
    split; [apply elem_of_app; by left|].
    exists a. split; [apply elem_of_app; by left | done]. }
  destruct merged; simpl.
  2:{ intros _. rewrite (added_app st st2 (new1 ++ new2))
        by (by rewrite Htr2, Htr1, <- app_assoc).
      split; [apply Hfirst|]. exists gr2. rewrite Hpre2, Hres. simpl.
      by split_and!. }
  match goal with
  | |- context [Resolution.run_post_validation w i 0 ?steps gr2 st2] =>
      destruct (run_post_validation_spec w i steps 0 gr2 st2)
        as (new3 & Htr3 & _);
      pose proof (run_post_validation_pre_results w i steps 0 gr2 st2) as Hpre3;
      destruct (Resolution.run_post_validation w i 0 steps gr2 st2)
        as [[validated gr3] st3]
  end.
  simpl in Htr3, Hpre3. intros _.
  assert (Resolution.added st st3 = new1 ++ new2 ++ new3) as Hadded
    by (apply added_app; by rewrite Htr3, Htr2, Htr1, <- !app_assoc).
  destruct validated; simpl; rewrite Hadded; (split; [apply Hfirst|]);
    eexists; (split; [done|]); simpl; rewrite Hpre3, Hpre2, Hres; simpl;
    by split.
Qed.

Lemma merge_only_after_every_validation_passed_witness :
  let ex := {| Resolution.total_groups := 1; Resolution.successful_groups := 0;
               Resolution.failed_groups := 0; Resolution.skipped_groups := 0;
               Resolution.group_results := [] |} in
  let run := Resolution.run_group Examples.approving 0 Examples.person_plan
               Examples.person_group ex Resolution.initial in
  Resolution.Query 0 Resolution.PreValidation 0
    "MATCH (n:person) RETURN count(n)" ∈ Resolution.added Resolution.initial run.2 ∧
  ∃ gr, Resolution.group_results run.1 = [gr] ∧
        length (Resolution.pre_validation_results gr) = 1.
Proof.
  simpl.
  destruct (merge_only_after_every_validation_passed Examples.approving 0
              Examples.person_plan Examples.person_group
              {| Resolution.total_groups := 1; Resolution.successful_groups := 0;
                 Resolution.failed_groups := 0; Resolution.skipped_groups := 0;
                 Resolution.group_results := [] |}
              Resolution.initial 0
              "MATCH (n:person) SET n:Person REMOVE n:person")
    as (Hsent & gr & Hres & Hlen & _).
  - vm_compute. right. right. left.
  - split.
    + exact (proj1 (Hsent 0 Examples.check_labels eq_refl)).
    + exists gr. split; [exact Hres | exact Hlen].
Defined.

(** ** The candidate text of an answer *)

(** X28.  The test [json_start != -1 and json_end != -1] that guards
    the parsing of an answer of the LLM: its second half never fails, so
    that the test says just that the answer holds a [{].  An answer with
    a [{] and no [}] passes it, and the text handed to [json.loads] is
    then empty. *)
Theorem json_end_test_never_fails (result_text : string) :
  Extraction.json_end result_text ≠ (-1)%Z ∧
  Extraction.has_json result_text =
    negb (Extraction.json_start result_text =? -1)%Z ∧
  (Extraction.json_start result_text ≠ (-1)%Z →
   PyStr.rfind "}" result_text = (-1)%Z →
   Extraction.has_json result_text = true ∧
   Extraction.json_str result_text = "").
Proof.
  assert (-1 ≤ PyStr.rfind "}" result_text)%Z as Hge.
  { unfold PyStr.rfind. rewrite rfind_from_last_index.
    destruct (Workflow.last_index "}" result_text); lia. }
  assert (Extraction.json_end result_text ≠ (-1)%Z) as Hend
    by (unfold Extraction.json_end; lia).
  assert (Extraction.has_json result_text =
            negb (Extraction.json_start result_text =? -1)%Z) as Htest.
  { unfold Extraction.has_json.
    rewrite (proj2 (Z.eqb_neq _ _) Hend). simpl. by rewrite andb_true_r. }
  split_and!; [done..|]. intros Hstart Hnone. split.
  - rewrite Htest. by rewrite (proj2 (Z.eqb_neq _ _) Hstart).
  - unfold Extraction.json_str, Extraction.json_end, PyStr.slice.
    rewrite Hnone. simpl.
    destruct (find_from_get "{" result_text 0) as [Hf|[Hle _]].
    { unfold Extraction.json_start, PyStr.find in Hstart. done. }
    fold (PyStr.find "{" result_text) in Hle.
    fold (Extraction.json_start result_text) in Hle.
    rewrite (proj2 (Z.ltb_ge _ _)) by done.
    match goal with
    | |- substring _ (Z.to_nat ?d) _ = _ =>
        replace (Z.to_nat d) with 0 by lia
    end.
    apply substring_zero.
Qed.

(** ** [levenshtein_distance] *)

Lemma dist_nil_r (r1 : list ascii) : Levenshtein.dist r1 [] = length r1.
Proof. by destruct r1. Qed.

Lemma dist_cons (a b : ascii) (r1 r2 : list ascii) :
  Levenshtein.dist (a :: r1) (b :: r2) =
    Nat.min (Nat.min (Levenshtein.dist r1 (b :: r2) + 1)
                     (Levenshtein.dist (a :: r1) r2 + 1))
            (Levenshtein.dist r1 r2 + (if Ascii.eqb a b then 0 else 1)).
Proof. reflexivity. Qed.

Lemma dist_sym (r1 r2 : list ascii) :
  Levenshtein.dist r1 r2 = Levenshtein.dist r2 r1.
Proof.
  revert r2. induction r1 as [|a r1 IH1]; intros r2.
  { by rewrite dist_nil_r. }
  induction r2 as [|b r2 IH2].
  { by rewrite dist_nil_r. }
  rewrite !dist_cons, (IH1 (b :: r2)), IH2, (IH1 r2), (Ascii.eqb_sym a b). lia.
Qed.

Lemma dist_refl (r : list ascii) : Levenshtein.dist r r = 0.
Proof.
  induction r as [|a r IH]; [done|].
  rewrite dist_cons, IH, Ascii.eqb_refl. lia.
Qed.

Lemma row_of_head r1 done2 rest2 :
  Levenshtein.row_of r1 done2 rest2 =
    Levenshtein.dist r1 (reverse done2) :: tail (Levenshtein.row_of r1 done2 rest2).
Proof. by destruct rest2. Qed.

Lemma row_from_spec (c1 : ascii) (r1 rest2 done2 : list ascii) :
  Levenshtein.row_from c1 rest2 (Levenshtein.row_of r1 done2 rest2)
    (Levenshtein.dist (c1 :: r1) (reverse done2)) =
  tail (Levenshtein.row_of (c1 :: r1) done2 rest2).
Proof.
  revert done2. induction rest2 as [|b rest2 IH]; intros done2; [done|].
  cbn [Levenshtein.row_of Levenshtein.row_from tail].
  rewrite (row_of_head r1 (done2 ++ [b]) rest2).
  rewrite (row_of_head (c1 :: r1) (done2 ++ [b]) rest2).
  rewrite <- (row_of_head r1 (done2 ++ [b]) rest2).
  rewrite reverse_snoc, dist_cons. cbv zeta. f_equal.
  specialize (IH (done2 ++ [b])). rewrite reverse_snoc, dist_cons in IH.
  exact IH.
Qed.

Lemma row_of_first (done2 rest2 : list ascii) :
  Levenshtein.row_of [] done2 rest2 = seq (length done2) (S (length rest2)).
Proof.
  revert done2. induction rest2 as [|b rest2 IH]; intros done2.
  - simpl. by rewrite length_reverse.
  - cbn [Levenshtein.row_of]. rewrite IH, length_app.
    cbn [Levenshtein.dist length seq]. rewrite length_reverse.
    by replace (length done2 + 1) with (S (length done2)) by lia.
Qed.

Lemma row_of_last r1 done2 rest2 :
  last (Levenshtein.row_of r1 done2 rest2) =
    Some (Levenshtein.dist r1 (reverse (done2 ++ rest2))).
Proof.
  revert done2. induction rest2 as [|b rest2 IH]; intros done2.
  - simpl. by rewrite app_nil_r.
  - cbn [Levenshtein.row_of]. rewrite last_cons, IH, <- app_assoc. done.
Qed.

Lemma rows_spec (rest1 s2 done1 : list ascii) :
  Levenshtein.rows rest1 s2 (length done1)
    (Levenshtein.row_of (reverse done1) [] s2) =
  Levenshtein.row_of (reverse (done1 ++ rest1)) [] s2.
Proof.
  revert done1. induction rest1 as [|c1 rest1 IH]; intros done1.
  { simpl. by rewrite app_nil_r. }
  cbn [Levenshtein.rows]. unfold Levenshtein.current_row.
  replace (length done1 + 1) with
    (Levenshtein.dist (c1 :: reverse done1) (reverse []))
    by (rewrite reverse_nil, dist_nil_r; simpl; rewrite length_reverse; lia).
  rewrite row_from_spec, <- row_of_head, <- reverse_snoc.
  replace (S (length done1)) with (length (done1 ++ [c1]))
    by (rewrite length_app; simpl; lia).
  rewrite IH, <- app_assoc. done.
Qed.

Lemma longer_first_spec (s1 s2 : list ascii) :
  Levenshtein.longer_first s1 s2 = Levenshtein.dist (reverse s1) (reverse s2).
Proof.
  unfold Levenshtein.longer_first. destruct s2 as [|b s2].
  - simpl. by rewrite reverse_nil, dist_nil_r, length_reverse.
  - cbn [length Nat.eqb].
    pose proof (row_of_first [] (b :: s2)) as Hfirst.
    pose proof (rows_spec s1 (b :: s2) []) as Hrows.
    rewrite reverse_nil in Hrows. cbn [length] in Hfirst, Hrows.
    rewrite <- Hfirst, Hrows. by rewrite row_of_last.
Qed.

(** X29.  [levenshtein_distance] computes the edit distance of its two
    strings as the recurrence on their last characters defines it,
    whichever of them is the longer one.  It is therefore symmetric, it
    is [0] on two equal strings, and against the empty string it is the
    length of the other string. *)
Theorem levenshtein_distance_is_the_edit_distance (s1 s2 : string) :
  Levenshtein.levenshtein_distance s1 s2 = Levenshtein.edit_distance s1 s2 ∧
  Levenshtein.levenshtein_distance s1 s2 = Levenshtein.levenshtein_distance s2 s1 ∧
  Levenshtein.levenshtein_distance s1 s1 = 0 ∧
  Levenshtein.levenshtein_distance s1 "" = String.length s1.
Proof.
  assert (∀ a b, Levenshtein.levenshtein_distance a b = Levenshtein.edit_distance a b)
    as Hspec.
  { intros a b. unfold Levenshtein.levenshtein_distance, Levenshtein.edit_distance.
    destruct (_ <? _)%nat; rewrite longer_first_spec; [apply dist_sym | done]. }
  split_and!.
  - apply Hspec.
  - rewrite !Hspec. apply dist_sym.
  - rewrite Hspec. apply dist_refl.
  - rewrite Hspec. unfold Levenshtein.edit_distance. simpl.
    rewrite reverse_nil, dist_nil_r, length_reverse.
    induction s1 as [|c s1 IH]; simpl; [done|]. by rewrite IH.
Qed.
